(** * molyso: signal-processing core and cell boundary detection

    A shallow embedding of [molyso/generic/signal.py] and of the segment
    classifier of [molyso/mm/cell_detection.py], with the properties the
    specification states about them.

    Numbers.  A finite float64 value is a rational, and the three
    non-finite values are kept apart, so that an unguarded division or an
    infinite fallback envelope is visible.  Where a property depends on the
    rounding or the overflow of float64 ([normalize], [fit_to_type]), the
    arithmetic is that of float64, every result rounded to the nearest
    number of 53 bits ([Float64.binary64]); elsewhere the operations on
    finite values are exact.
    The two functions whose arithmetic leaves the rationals
    ([threshold_outliers] takes a square root, [find_phase] a Fourier
    transform) are modelled over the real numbers. *)

From Stdlib Require Import ZArith QArith Qminmax List Bool Lia Lqa.
From Stdlib Require Import Sorted Reals Lra.
From Stdlib Require String.
Import ListNotations.
Local Open Scope Z_scope.

(** ** Exceptions *)

Inductive exn : Type := ValueError | IndexError | TypeError | AttributeError.

Inductive result (A : Type) : Type :=
| Ok (a : A)
| Raise (e : exn).
Arguments Ok {A} a.
Arguments Raise {A} e.

Definition bind {A B : Type} (c : result A) (k : A -> result B) : result B :=
  match c with
  | Ok a => k a
  | Raise e => Raise e
  end.

Declare Scope py_scope.
Delimit Scope py_scope with py.
Notation "x <- c ;; k" := (bind c (fun x => k))
  (at level 61, c at next level, right associativity) : py_scope.

(** ** float64 values, exact on the finite ones *)

Module Float.

Inductive float : Type :=
| Fin (q : Q)
| PInf
| NInf
| NaN.

Definition of_Z (z : Z) : float := Fin (inject_Z z).

Definition Qltb (a b : Q) : bool := negb (Qle_bool b a).

Definition is_nan (x : float) : bool :=
  match x with NaN => true | _ => false end.

Definition is_finite (x : float) : bool :=
  match x with Fin _ => true | _ => false end.

(** [x < y]; every comparison with a NaN is false. *)
Definition ltb (x y : float) : bool :=
  match x, y with
  | NaN, _ | _, NaN => false
  | Fin a, Fin b => Qltb a b
  | NInf, NInf => false
  | NInf, _ => true
  | _, NInf => false
  | PInf, _ => false
  | Fin _, PInf => true
  end.

Definition gtb (x y : float) : bool := ltb y x.

(** [x == y] of numpy: numeric equality, false on NaN. *)
Definition eqb (x y : float) : bool :=
  match x, y with
  | Fin a, Fin b => Qeq_bool a b
  | PInf, PInf | NInf, NInf => true
  | _, _ => false
  end.

Definition neg (x : float) : float :=
  match x with
  | Fin a => Fin (- a)
  | PInf => NInf
  | NInf => PInf
  | NaN => NaN
  end.

Definition add (x y : float) : float :=
  match x, y with
  | NaN, _ | _, NaN => NaN
  | Fin a, Fin b => Fin (a + b)
  | PInf, NInf | NInf, PInf => NaN
  | PInf, _ | _, PInf => PInf
  | NInf, _ | _, NInf => NInf
  end.

Definition sub (x y : float) : float := add x (neg y).

(** Division is never guarded by numpy: a zero divisor gives NaN or an
    infinity (signed zeros are not told apart). *)
Definition div (x y : float) : float :=
  match x, y with
  | NaN, _ | _, NaN => NaN
  | Fin a, Fin b =>
      if Qeq_bool b 0 then
        if Qeq_bool a 0 then NaN else if Qltb 0 a then PInf else NInf
      else Fin (a / b)
  | Fin _, _ => Fin 0
  | PInf, Fin b => if Qltb b 0 then NInf else PInf
  | NInf, Fin b => if Qltb b 0 then PInf else NInf
  | _, _ => NaN
  end.

(** Numeric equality of two values as a proposition: [Qeq] on the finite
    ones, identity on the others. *)
Definition eq (x y : float) : Prop :=
  match x, y with
  | Fin a, Fin b => a == b
  | PInf, PInf | NInf, NInf | NaN, NaN => True
  | _, _ => False
  end.

End Float.

Import Float.

(** ** numpy arrays of float64, as lists *)

Definition ndarray : Type := list float.

Definition len {A : Type} (a : list A) : Z := Z.of_nat (length a).

(** [a[i]] with Python's negative indices; out of range raises. *)
Definition getitem {A : Type} (a : list A) (i : Z) : result A :=
  let j := if i <? 0 then i + len a else i in
  if (j <? 0) || (len a <=? j) then Raise IndexError
  else match nth_error a (Z.to_nat j) with
       | Some x => Ok x
       | None => Raise IndexError
       end.

(** [a[indices]]: indexing by an integer array. *)
Fixpoint take (a : ndarray) (indices : list Z) : result ndarray :=
  match indices with
  | [] => Ok []
  | i :: rest =>
      (x <- getitem a i ;;
       xs <- take a rest ;;
       Ok (x :: xs))%py
  end.

(** [a.take(indices, mode='clip')]: indices are clipped into range. *)
Definition clip (i lo hi : Z) : Z := Z.max lo (Z.min i hi).

Definition take_clip (a : ndarray) (indices : list Z) : ndarray :=
  map (fun i => nth (Z.to_nat (clip i 0 (len a - 1))) a NaN) indices.

(** [numpy.arange(0, n)]. *)
Definition arange (n : nat) : list Z := map Z.of_nat (seq 0 n).

(** [numpy.linspace(0, n - 1, n)]. *)
Definition linspace0 (n : nat) : ndarray := map of_Z (arange n).

(** [numpy.argmax]: the first index of the largest value; a NaN counts as
    the largest.  The state of the scan is (position, best index, best). *)
Fixpoint argmax_from (a : ndarray) (pos best_i : Z) (best : float) : Z :=
  match a with
  | [] => best_i
  | x :: rest =>
      if gtb x best || (is_nan x && negb (is_nan best))
      then argmax_from rest (pos + 1) pos x
      else argmax_from rest (pos + 1) best_i best
  end.

Definition argmax (a : ndarray) : result Z :=
  match a with
  | [] => Raise ValueError
  | x :: rest => Ok (argmax_from rest 1 0 x)
  end.

Fixpoint argmin_from (a : ndarray) (pos best_i : Z) (best : float) : Z :=
  match a with
  | [] => best_i
  | x :: rest =>
      if ltb x best || (is_nan x && negb (is_nan best))
      then argmin_from rest (pos + 1) pos x
      else argmin_from rest (pos + 1) best_i best
  end.

Definition argmin (a : ndarray) : result Z :=
  match a with
  | [] => Raise ValueError
  | x :: rest => Ok (argmin_from rest 1 0 x)
  end.

(** Element-wise operations on two arrays of one shape; numpy refuses two
    1-d arrays of different lengths unless one of them has length 1. *)
Fixpoint zip_with {A B C : Type} (f : A -> B -> C) (a : list A) (b : list B)
  : list C :=
  match a, b with
  | x :: a', y :: b' => f x y :: zip_with f a' b'
  | _, _ => []
  end.

Definition broadcast {A B C : Type} (f : A -> B -> C) (a : list A)
  (b : list B) : result (list C) :=
  if (length a =? length b)%nat then Ok (zip_with f a b)
  else match a, b with
       | [x], _ => Ok (map (f x) b)
       | _, [y] => Ok (map (fun x => f x y) a)
       | _, _ => Raise ValueError
       end.

(** [numpy.nonzero] of a boolean array. *)
Definition nonzero (mask : list bool) : list Z :=
  filter (fun i => nth (Z.to_nat i) mask false) (arange (length mask)).

(** ** Relative extrema

    [scipy.signal.argrelmax] and [argrelmin] are library code; they are
    modelled after scipy's [_boolrelextrema] with its default
    [mode='clip']: a position survives when the comparator holds against
    both neighbours at every distance [1..order], the neighbours beyond an
    end being the end sample itself.  An [order] below 1 is a
    [ValueError]. *)

Definition and_arrays (a b : list bool) : list bool := zip_with andb a b.

Fixpoint boolrelextrema_loop (comparator : float -> float -> bool)
  (data : ndarray) (shifts : list Z) (results : list bool) : list bool :=
  match shifts with
  | [] => results
  | shift :: rest =>
      let locs := arange (length data) in
      let main := take_clip data locs in
      let plus := take_clip data (map (fun l => l + shift) locs) in
      let minus := take_clip data (map (fun l => l - shift) locs) in
      let results := and_arrays results (zip_with comparator main plus) in
      let results := and_arrays results (zip_with comparator main minus) in
      if negb (existsb (fun b => b) results) then results
      else boolrelextrema_loop comparator data rest results
  end.

Definition boolrelextrema (comparator : float -> float -> bool)
  (data : ndarray) (order : Z) : result (list bool) :=
  if order <? 1 then Raise ValueError
  else Ok (boolrelextrema_loop comparator data
             (map (fun s => Z.of_nat s) (seq 1 (Z.to_nat order)))
             (repeat true (length data))).

Definition argrelextrema (comparator : float -> float -> bool)
  (data : ndarray) (order : Z) : result (list Z) :=
  (results <- boolrelextrema comparator data order ;;
   Ok (nonzero results))%py.

Definition relative_maxima (signal : ndarray) (order : Z) : result (list Z) :=
  argrelextrema gtb signal order.

Definition relative_minima (signal : ndarray) (order : Z) : result (list Z) :=
  argrelextrema ltb signal order.

(** ** find_extrema_and_prominence *)

(** A fitted spline is a callable from an array of abscissae to the array
    of its values there. *)
Definition spline : Type := ndarray -> ndarray.

Record ExtremeAndProminence : Type := {
  maxima : list Z;
  minima : list Z;
  signal : ndarray;
  order : Z;
  max_spline : spline;
  min_spline : spline;
  xpts : ndarray;
  max_spline_points : ndarray;
  min_spline_points : ndarray;
  prominence : ndarray
}.

(** The retry loop
    [while iorder > 0: try: m = f(signal, iorder) / except ValueError:
    iorder -= 1; continue / break], by recursion on the value of [iorder]:
    at [iorder <= 0] the initial value of [m] is kept. *)
Fixpoint retry_extrema (f : ndarray -> Z -> result (list Z))
  (signal : ndarray) (iorder : nat) (initial : list Z) : result (list Z) :=
  match iorder with
  | O => Ok initial
  | S below =>
      match f signal (Z.of_nat iorder) with
      | Ok found => Ok found
      | Raise ValueError => retry_extrema f signal below initial
      | Raise e => Raise e
      end
  end.

(** [x[0] = 0; x[1:-1] = extrema; x[-1] = len(signal) - 1]. *)
Definition anchored_x (extrema : list Z) (signal : ndarray) : ndarray :=
  of_Z 0 :: map of_Z extrema ++ [of_Z (len signal - 1)].

(** [y[0] = signal[extrema][0]; y[1:-1] = signal[extrema];
    y[-1] = signal[extrema][-1]]. *)
Definition anchored_y (extrema : list Z) (signal : ndarray) : result ndarray :=
  (values <- take signal extrema ;;
   first <- getitem values 0 ;;
   last <- getitem values (-1) ;;
   Ok (first :: values ++ [last]))%py.

(** The degenerate envelope: [zeros_like(arg)] filled with one value. *)
Definition constant_spline (value : float) : spline :=
  fun arg => map (fun _ => value) arg.

Section FindExtrema.

(** [scipy.interpolate.UnivariateSpline(x, y, bbox=..., k=...)], library
    code: taken as given. *)
Variable UnivariateSpline : ndarray -> ndarray -> Z * Z -> Z -> spline.

(** The [k = 3 / if len(y) <= 3 / if k < 1 / else] block, with the value of
    the fallback envelope. *)
Definition fit_envelope (fallback : float) (intpx intpy : ndarray)
  (signal : ndarray) : spline :=
  let k := 3 in
  let k := if len intpy <=? 3 then len intpy - 1 else k in
  if k <? 1 then constant_spline fallback
  else UnivariateSpline intpx intpy (0, len signal) k.

Definition find_extrema_and_prominence (signal : ndarray) (order : Z)
  : result ExtremeAndProminence :=
  (first_max <- argmax signal ;;
   maxima <- retry_extrema relative_maxima signal (Z.to_nat order) [first_max] ;;
   maxima <- (if (length maxima =? 0)%nat
              then (m <- argmax signal ;; Ok [m]) else Ok maxima) ;;
   first_min <- argmin signal ;;
   minima <- retry_extrema relative_minima signal (Z.to_nat order) [first_min] ;;
   minima <- (if (length minima =? 0)%nat
              then (m <- argmin signal ;; Ok [m]) else Ok minima) ;;
   let maximaintpx := anchored_x maxima signal in
   maximaintpy <- anchored_y maxima signal ;;
   let minimaintpx := anchored_x minima signal in
   minimaintpy <- anchored_y minima signal ;;
   let max_spline := fit_envelope PInf maximaintpx maximaintpy signal in
   let min_spline := fit_envelope NInf minimaintpx minimaintpy signal in
   let xpts := linspace0 (length signal) in
   let maxsy := max_spline xpts in
   let minsy := min_spline xpts in
   prominence <- broadcast sub maxsy minsy ;;
   Ok {| maxima := maxima; minima := minima; signal := signal;
         order := order; max_spline := max_spline; min_spline := min_spline;
         xpts := xpts; max_spline_points := maxsy;
         min_spline_points := minsy; prominence := prominence |})%py.

End FindExtrema.

(** ** A concrete spline: the interpolating polynomial

    With as many control points as the degree plus one, the least-squares
    polynomial FITPACK starts from passes through every point, so its
    residual is below any smoothing factor and it is the spline returned.
    [interpolate] is that polynomial in Lagrange form. *)

Definition finite_part (x : float) : Q :=
  match x with Fin q => q | _ => 0%Q end.

Definition lagrange_basis (xs : list Q) (j : nat) (t : Q) : Q :=
  fold_right Qmult 1%Q
    (map (fun m => if (m =? j)%nat then 1%Q
                   else ((t - nth m xs 0) / (nth j xs 0 - nth m xs 0))%Q)
         (seq 0 (length xs))).

Definition interpolate (xs ys : list Q) (t : Q) : Q :=
  fold_right Qplus 0%Q
    (map (fun j => (nth j ys 0 * lagrange_basis xs j t)%Q)
         (seq 0 (length xs))).

Definition interpolating_spline (x y : ndarray) (bbox : Z * Z) (k : Z)
  : spline :=
  fun arg =>
    map (fun t => Fin (Qred (interpolate (map finite_part x)
                                         (map finite_part y)
                                         (finite_part t)))) arg.

(** ** Reductions and slices *)

Definition fmax2 (x y : float) : float :=
  if is_nan x || is_nan y then NaN else if ltb x y then y else x.

Definition fmin2 (x y : float) : float :=
  if is_nan x || is_nan y then NaN else if ltb y x then y else x.

(** [a.max()] and [a.min()]: a [ValueError] on an empty array. *)
Definition amax (a : ndarray) : result float :=
  match a with
  | [] => Raise ValueError
  | x :: rest => Ok (fold_left fmax2 rest x)
  end.

Definition amin (a : ndarray) : result float :=
  match a with
  | [] => Raise ValueError
  | x :: rest => Ok (fold_left fmin2 rest x)
  end.

Definition asum (a : ndarray) : float := fold_left add a (Fin 0).

(** [a.mean()]: the mean of an empty array is NaN (numpy warns, it does
    not raise). *)
Definition mean (a : ndarray) : float := div (asum a) (of_Z (len a)).

(** [a[lo:hi]] with Python's treatment of negative and oversized bounds. *)
Definition slice_bound {A : Type} (a : list A) (i : Z) : nat :=
  let j := if i <? 0 then i + len a else i in
  Z.to_nat (clip j 0 (len a)).

Definition slice {A : Type} (a : list A) (lo hi : Z) : list A :=
  let lo := slice_bound a lo in
  let hi := slice_bound a hi in
  firstn (hi - lo) (skipn lo a).

(** ** normalize *)

(** [normalize] with exact operations on an array of floats; with the
    rounding of float64 it is [Float64.normalize], below. *)
Definition normalize (data : ndarray) : result ndarray :=
  (let result := data in
   lowest <- amin result ;;
   let result := map (fun x => sub x lowest) result in
   highest <- amax result ;;
   let result := map (fun x => div x highest) result in
   Ok result)%py.

(** ** find_insides *)

(** Python's truth value of [last_true]: [None] and [0] are both false. *)
Definition truthy (last_true : option Z) : bool :=
  match last_true with
  | None => false
  | Some n => negb (n =? 0)
  end.

Definition pair_from (last_true : option Z) (stop : Z) : Z * Z :=
  match last_true with
  | Some start => (start, stop)
  | None => (0, stop)
  end.

Fixpoint find_insides_loop (signal : list bool) (n : Z)
  (last_true : option Z) (pairs : list (Z * Z))
  : option Z * list (Z * Z) :=
  match signal with
  | [] => (last_true, pairs)
  | i :: rest =>
      if i && negb (truthy last_true) then
        find_insides_loop rest (n + 1) (Some n) pairs
      else if negb i && truthy last_true then
        find_insides_loop rest (n + 1) None
          (pairs ++ [pair_from last_true n])
      else find_insides_loop rest (n + 1) last_true pairs
  end.

Definition find_insides (signal : list bool) : list (Z * Z) :=
  let '(last_true, pairs) := find_insides_loop signal 0 None [] in
  if truthy last_true
  then pairs ++ [pair_from last_true (len signal - 1)]
  else pairs.

(** ** find_cells_in_channel *)

(** The tunables read by the detector, with their compiled-in defaults. *)
Record Tunables : Type := {
  cells_empty_channel_skipping : bool;
  cells_empty_channel_skipping_intensity_range_quotient : float;
  cells_extrema_order : Z;
  cells_filtering_maximum_brightness : float;
  cells_filtering_minimum_prominence : float
}.

Definition default_tunables : Tunables := {|
  cells_empty_channel_skipping := false;
  cells_empty_channel_skipping_intensity_range_quotient := Fin (1 # 2);
  cells_extrema_order := 15;
  cells_filtering_maximum_brightness := Fin (1 # 2);
  cells_filtering_minimum_prominence := Fin 10
|}.

Section CellDetection.

Variable tunable : Tunables.

Definition is_a_cell (profile_of_binary_image prominence : ndarray)
  (last_pos pos : Z) : bool :=
  (2 <? pos - last_pos)
  && ltb (mean (slice profile_of_binary_image last_pos pos))
         (cells_filtering_maximum_brightness tunable)
  && gtb (mean (slice prominence last_pos pos))
         (cells_filtering_minimum_prominence tunable).

(** [[_pos for _pos in maxima if prominence[_pos] > 0]]. *)
Fixpoint prominent (maxima : list Z) (prominence : ndarray)
  : result (list Z) :=
  match maxima with
  | [] => Ok []
  | _pos :: rest =>
      (p <- getitem prominence _pos ;;
       kept <- prominent rest prominence ;;
       Ok (if gtb p (Fin 0) then _pos :: kept else kept))%py
  end.

Definition positions (maxima : list Z) (prominence : ndarray)
  (profile_size : Z) : result (list Z) :=
  (kept <- prominent maxima prominence ;;
   Ok (kept ++ [profile_size]))%py.

(** Python's [zip]: as long as the shorter list. *)
Definition zip {A B : Type} (a : list A) (b : list B) : list (A * B) :=
  zip_with pair a b.

Definition cells (profile_of_binary_image prominence : ndarray)
  (positions : list Z) : list (Z * Z) :=
  map (fun '(_last_pos, _pos) => (_last_pos + 1, _pos - 1))
    (filter (fun '(_last_pos, _pos) =>
               is_a_cell profile_of_binary_image prominence _last_pos _pos)
            (zip (0 :: positions) positions)).

Variable UnivariateSpline : ndarray -> ndarray -> Z * Z -> Z -> spline.

(** [find_cells_in_channel] from the three profiles on.  Their computation
    from the image needs [threshold_otsu] and [hamming_smooth], which live
    in modules outside the sources at hand: [thresholded_profile] is the
    outlier-clamped mean profile, [profile_of_binary_image] the mean of the
    Otsu mask, and [profile] the baseline-corrected, smoothed and rounded
    mean profile. *)
Definition find_cells_in_channel
  (thresholded_profile profile_of_binary_image profile : ndarray)
  : result (list (Z * Z)) :=
  (highest <- amax thresholded_profile ;;
   lowest <- amin thresholded_profile ;;
   if ltb (div (sub highest lowest) highest)
          (cells_empty_channel_skipping_intensity_range_quotient tunable)
      && cells_empty_channel_skipping tunable
   then Ok []
   else
     extrema <- find_extrema_and_prominence UnivariateSpline profile
                  (cells_extrema_order tunable) ;;
     positions <- positions (maxima extrema) (prominence extrema)
                    (len profile) ;;
     Ok (cells profile_of_binary_image (prominence extrema) positions))%py.

End CellDetection.

(** ** threshold_outliers, over the reals, on a store of arrays

    The function copies its argument and assigns into the copy, and what an
    assignment stores depends on the dtype of the array: the model keeps a
    store of arrays addressed by references and two dtypes, int64 (as
    unbounded integers) and float64 (as reals). *)

Module Outliers.

Local Open Scope R_scope.

Inductive array : Type :=
| IntArray (items : list Z)
| FloatArray (items : list R).

Inductive dtype : Type := int64 | float64.

Definition dtype_of (a : array) : dtype :=
  match a with IntArray _ => int64 | FloatArray _ => float64 end.

Definition size (a : array) : nat :=
  match a with IntArray l => length l | FloatArray l => length l end.

(** The values of an array as numbers, as arithmetic with a float sees
    them. *)
Definition values (a : array) : list R :=
  match a with IntArray l => map IZR l | FloatArray l => l end.

(** The C cast from float64 to int64: truncation towards zero. *)
Definition truncate (x : R) : Z :=
  if Rle_dec 0 x then Int_part x else (- Int_part (- x))%Z.

Definition Rgtb (x y : R) : bool := if Rgt_dec x y then true else false.
Definition Rltb (x y : R) : bool := if Rlt_dec x y then true else false.

(** References and the store. *)
Definition ref : Type := nat.
Definition store : Type := list array.

(** A computation on the store; [None] is a dangling reference, which no
    Python program can produce. *)
Definition M (A : Type) : Type := store -> option (A * store).

Definition ret {A : Type} (a : A) : M A := fun h => Some (a, h).

Definition mbind {A B : Type} (c : M A) (k : A -> M B) : M B :=
  fun h => match c h with
           | Some (a, h') => k a h'
           | None => None
           end.

Notation "x <- c ;; k" := (mbind c (fun x => k))
  (at level 61, c at next level, right associativity).
Notation "c ;;; k" := (mbind c (fun _ => k))
  (at level 61, right associativity).

Definition read (r : ref) : M array :=
  fun h => match nth_error h r with
           | Some a => Some (a, h)
           | None => None
           end.

Fixpoint update (h : store) (r : ref) (a : array) : store :=
  match h, r with
  | [], _ => []
  | _ :: h', O => a :: h'
  | b :: h', S r' => b :: update h' r' a
  end.

Definition write (r : ref) (a : array) : M unit :=
  fun h => match nth_error h r with
           | Some _ => Some (tt, update h r a)
           | None => None
           end.

Definition alloc (a : array) : M ref :=
  fun h => Some (length h, h ++ [a]).

(** [data.copy()]. *)
Definition copy (data : ref) : M ref :=
  a <- read data ;; alloc a.

(** Sorting, for the median. *)
Fixpoint insert_sorted (x : R) (l : list R) : list R :=
  match l with
  | [] => [x]
  | y :: l' => if Rle_dec x y then x :: l else y :: insert_sorted x l'
  end.

Definition sort (l : list R) : list R := fold_right insert_sorted [] l.

Definition Rsum (l : list R) : R := fold_right Rplus 0 l.

Definition Rmean (l : list R) : R := Rsum l / INR (length l).

(** [numpy.median]: the middle of the sorted values, or the mean of the two
    middle ones.  (Of an empty array numpy gives NaN, which is then compared
    with no element; the model gives 0 there.) *)
Definition median_of (l : list R) : R :=
  let s := sort l in
  let n := length l in
  if Nat.even n
  then (nth (n / 2 - 1) s 0 + nth (n / 2) s 0) / 2
  else nth (n / 2) s 0.

(** [numpy.std]: the root of the mean squared deviation from the mean. *)
Definition std_of (l : list R) : R :=
  let m := Rmean l in
  sqrt (Rmean (map (fun x => Rsqr (Rabs (x - m))) l)).

Definition numpy_median (data : ref) : M R :=
  a <- read data ;; ret (median_of (values a)).

Definition numpy_std (data : ref) : M R :=
  a <- read data ;; ret (std_of (values a)).

(** [data[mask] = value]: the value is cast to the dtype of the array. *)
Definition assign_masked (a : array) (mask : list bool) (value : R) : array :=
  match a with
  | IntArray l =>
      IntArray (zip_with (fun (m : bool) x => if m then truncate value else x)
                         mask l)
  | FloatArray l =>
      FloatArray (zip_with (fun (m : bool) x => if m then value else x) mask l)
  end.

Definition setitem_mask (data : ref) (mask : list bool) (value : R) : M unit :=
  a <- read data ;; write data (assign_masked a mask value).

(** [(data - median) > (times_std * std)]. *)
Definition above_mask (data : ref) (median bound : R) : M (list bool) :=
  a <- read data ;;
  ret (map (fun x => Rgtb (x - median) bound) (values a)).

(** [((data - median) < 0) & (abs(data - median) > times_std * std)]. *)
Definition below_mask (data : ref) (median bound : R) : M (list bool) :=
  a <- read data ;;
  ret (map (fun x => Rltb (x - median) 0 && Rgtb (Rabs (x - median)) bound)
           (values a)).

Definition threshold_outliers (data : ref) (times_std : R) : M ref :=
  data <- copy data ;;
  median <- numpy_median data ;;
  std <- numpy_std data ;;
  mask <- above_mask data median (times_std * std) ;;
  setitem_mask data mask (median + (times_std * std)) ;;;
  mask <- below_mask data median (times_std * std) ;;
  setitem_mask data mask (median - (times_std * std)) ;;;
  ret data.

(** What an assignment of [value] stores in an array of the given dtype,
    read back as a number. *)
Definition stored (d : dtype) (value : R) : R :=
  match d with
  | int64 => IZR (truncate value)
  | float64 => value
  end.

(** The clamp of one value, as the docstring's example shows it: down to
    [median + bound] from above, up to [median - bound] from below. *)
Definition clamp (d : dtype) (median bound : R) (x : R) : R :=
  if Rgtb (x - median) bound then stored d (median + bound)
  else if Rltb (x - median) 0 && Rgtb (Rabs (x - median)) bound
       then stored d (median - bound)
       else x.

(** The array [threshold_outliers] leaves in its copy of [a]. *)
Definition clamped (a : array) (times_std : R) : array :=
  let median := median_of (values a) in
  let bound := times_std * std_of (values a) in
  let a1 :=
    assign_masked a (map (fun x => Rgtb (x - median) bound) (values a))
      (median + bound) in
  assign_masked a1
    (map (fun x => Rltb (x - median) 0 && Rgtb (Rabs (x - median)) bound)
         (values a1))
    (median - bound).

(** The array of the doctest of [threshold_outliers]. *)
Definition doctest_data : array := IntArray [10; 9; 11; 40; 8; 12; 14; 7]%Z.

(** [outliers]: the mask [absolute(data - median(data)) > times_std *
    std(data)]. *)
Definition outliers (data : ref) (times_std : R) : M (list bool) :=
  a <- read data ;;
  ret (map (fun x => Rgtb (Rabs (x - median_of (values a)))
                          (times_std * std_of (values a)))
           (values a)).

(** [data[mask]] with a boolean mask of the length of the array: a new
    array of the values at the true positions. *)
Fixpoint select_items {A : Type} (l : list A) (mask : list bool) : list A :=
  match l, mask with
  | x :: l', m :: mask' =>
      if m then x :: select_items l' mask' else select_items l' mask'
  | _, _ => []
  end.

Definition select (a : array) (mask : list bool) : array :=
  match a with
  | IntArray l => IntArray (select_items l mask)
  | FloatArray l => FloatArray (select_items l mask)
  end.

(** [remove_outliers]: [data[~outliers(data, times_std)]].  The [except
    TypeError: return data] of the source answers to arguments that are not
    numeric arrays, which this model does not have. *)
Definition remove_outliers (data : ref) (times_std : R) : M ref :=
  mask <- outliers data times_std ;;
  a <- read data ;;
  alloc (select a (map negb mask)).

End Outliers.

(** ** find_phase, over the reals *)

Module Phase.

Local Open Scope R_scope.

(** Complex numbers, as numpy's complex128 with exact parts. *)
Definition complex : Type := (R * R)%type.

Definition Cre (z : complex) : R := fst z.
Definition Cim (z : complex) : R := snd z.
Definition of_real (x : R) : complex := (x, 0).
Definition Cadd (z w : complex) : complex := (Cre z + Cre w, Cim z + Cim w).
Definition Cmul (z w : complex) : complex :=
  (Cre z * Cre w - Cim z * Cim w, Cre z * Cim w + Cim z * Cre w).
Definition Cneg (z : complex) : complex := (- Cre z, - Cim z).
Definition conjugate (z : complex) : complex := (Cre z, - Cim z).
Definition Cscale (r : R) (z : complex) : complex := (r * Cre z, r * Cim z).
Definition absolute (z : complex) : R := sqrt (Cre z * Cre z + Cim z * Cim z).

Definition Csum (l : list complex) : complex := fold_right Cadd (0, 0) l.

(** [exp(2 pi i j / n)]. *)
Definition twiddle (n : nat) (j : Z) : complex :=
  (cos (2 * PI * IZR j / INR n), sin (2 * PI * IZR j / INR n)).

(** Modelled from the spec: the [fft] and [ifft] of the module
    [molyso.generic.fft], which is not among the sources; the spec calls
    them the frequency-domain transform and the inverse transform, that is,
    the discrete Fourier transform and its inverse with numpy's
    conventions, [A_k = sum_m a_m exp(-2 pi i m k / n)] and
    [a_m = (1/n) sum_k A_k exp(2 pi i m k / n)].  Numpy refuses an empty
    array. *)
Definition dft (sign : Z) (a : list complex) : list complex :=
  let n := length a in
  map (fun k =>
         Csum (map (fun m => Cmul (nth m a (0, 0))
                                  (twiddle n (sign * Z.of_nat m * Z.of_nat k)))
                   (seq 0 n)))
      (seq 0 n).

Definition fft (a : list complex) : result (list complex) :=
  match a with
  | [] => Raise ValueError
  | _ => Ok (dft (-1) a)
  end.

Definition ifft (a : list complex) : result (list complex) :=
  match a with
  | [] => Raise ValueError
  | _ => Ok (map (Cscale (/ INR (length a))) (dft 1 a))
  end.

(** [numpy.argmax] of a real array. *)
Fixpoint argmax_from (a : list R) (pos best_i : Z) (best : R) : Z :=
  match a with
  | [] => best_i
  | x :: rest =>
      if Rgt_dec x best
      then argmax_from rest (pos + 1) pos x
      else argmax_from rest (pos + 1) best_i best
  end.

Definition argmax (a : list R) : result Z :=
  match a with
  | [] => Raise ValueError
  | x :: rest => Ok (argmax_from rest 1 0 x)
  end.

(** What [find_phase] returns: the shift, then the transforms asked for. *)
Record phase : Type := {
  shift : Z;
  returned_1 : option (list complex);
  returned_2 : option (list complex)
}.

(** [if signal is not None and fft is None: fft = fft(signal)]. *)
Definition transform_unless_given (signal : option (list R))
  (given : option (list complex)) : result (option (list complex)) :=
  match signal, given with
  | Some s, None => (f <- fft (map of_real s) ;; Ok (Some f))%py
  | _, _ => Ok given
  end.

Definition find_phase (signal_1 signal_2 : option (list R))
  (fft_1 fft_2 : option (list complex)) (return_1 return_2 : bool)
  : result phase :=
  (fft_1 <- transform_unless_given signal_1 fft_1 ;;
   fft_2 <- transform_unless_given signal_2 fft_2 ;;
   match fft_1, fft_2 with
   | _, None => Raise AttributeError
   | None, Some _ => Raise TypeError
   | Some f1, Some f2 =>
       product <- broadcast Cmul f1 (map Cneg (map conjugate f2)) ;;
       corr <- ifft product ;;
       let corr := map absolute corr in
       the_max <- argmax corr ;;
       let the_max :=
         if Rlt_dec (IZR the_max) (IZR (len f1) / 2)
         then (- the_max)%Z else (len f1 - the_max)%Z in
       Ok {| shift := the_max;
             returned_1 := if return_1 then Some f1 else None;
             returned_2 := if return_2 then Some f2 else None |}
   end)%py.

(** The phase correlation in the words of the specification: the inverse
    transform of [F1] times the conjugate of the negated [F2], its
    magnitude, the index [m] of the peak, and the shift [-m] when
    [m < N / 2] ([N / 2] being a true division) and [N - m] otherwise. *)
Definition phase_by_spec (signal_1 signal_2 : list R) : result Z :=
  (F1 <- fft (map of_real signal_1) ;;
   F2 <- fft (map of_real signal_2) ;;
   product <- broadcast Cmul F1 (map conjugate (map Cneg F2)) ;;
   corr <- ifft product ;;
   m <- argmax (map absolute corr) ;;
   Ok (if (2 * m <? len F1)%Z then (- m)%Z else (len F1 - m)%Z))%py.

End Phase.

(** ** Properties stated by the specification *)

(** An index array as numpy's [nonzero] gives it: strictly ascending, hence
    without duplicates, and within [[0, n - 1]]. *)
Definition ascending_within (indices : list Z) (n : Z) : Prop :=
  StronglySorted Z.lt indices
  /\ NoDup indices
  /\ Forall (fun i => 0 <= i <= n - 1) indices.

(** The extrema kept by [find_extrema_and_prominence]: the relative extrema
    when there are any, the global extremum otherwise. *)
Definition extrema_or_global (relative : result (list Z)) (global : Z)
  : list Z :=
  match relative with
  | Ok (i :: rest) => i :: rest
  | _ => [global]
  end.

(** The signal of the doctests of [find_extrema_and_prominence] and of
    [relative_maxima]. *)
Definition doctest_signal : ndarray :=
  map of_Z [1; 2; 3; 2; 1; 0; 1; 2; 15; 2; -15; 2; 1].

(** The candidate split points of the detector: the maxima of strictly
    positive prominence, then the sentinel at the end of the profile. *)
Definition candidate_positions (maxima : list Z) (prominence : ndarray)
  (profile_size : Z) : list Z :=
  filter (fun p => gtb (nth (Z.to_nat p) prominence NaN) (Fin 0)) maxima
  ++ [profile_size].

(** The three criteria on a candidate segment. *)
Definition accepted (tunable : Tunables)
  (profile_of_binary_image prominence : ndarray) (last_pos pos : Z) : Prop :=
  pos - last_pos > 2
  /\ ltb (mean (slice profile_of_binary_image last_pos pos))
         (cells_filtering_maximum_brightness tunable) = true
  /\ gtb (mean (slice prominence last_pos pos))
         (cells_filtering_minimum_prominence tunable) = true.

(** Segments in ascending order, each ending before the next begins. *)
Definition ascending_segments (segments : list (Z * Z)) : Prop :=
  StronglySorted (fun c c' => snd c < fst c') segments.

(** The tunables of the doctests' scale: extrema of order 2. *)
Definition doctest_tunables : Tunables := {|
  cells_empty_channel_skipping := false;
  cells_empty_channel_skipping_intensity_range_quotient := Fin (1 # 2);
  cells_extrema_order := 2;
  cells_filtering_maximum_brightness := Fin (1 # 2);
  cells_filtering_minimum_prominence := Fin 10
|}.

(** The length of the run of true samples a boolean signal starts with. *)
Fixpoint leading_run (signal : list bool) : nat :=
  match signal with
  | true :: rest => S (leading_run rest)
  | _ => O
  end.

(** "The run starting at index 0 is not reported as a pair": no returned
    pair starts inside that run. *)
Definition run_at_zero_unreported (signal : list bool) : Prop :=
  forall p, In p (find_insides signal) -> Z.of_nat (leading_run signal) <= fst p.

(** A finite array, and the two kinds of finite array [normalize] tells
    apart: one with all its values numerically equal, and one with two
    values that differ. *)
Definition finite_array (data : ndarray) : Prop :=
  Forall (fun x => is_finite x = true) data.

Definition constant_array (data : ndarray) : Prop :=
  data <> [] /\ exists c, Forall (fun x => Float.eq x (Fin c)) data.

Definition non_constant_array (data : ndarray) : Prop :=
  exists x y, In x data /\ In y data /\ ~ Float.eq x y.

(** What a call returned, seen through an accessor of the result. *)
Definition observe {A B : Type} (f : A -> B) (r : result A) : option B :=
  match r with
  | Ok a => Some (f a)
  | Raise _ => None
  end.

(** A value with its fraction in lowest terms. *)
Definition reduced (x : float) : float :=
  match x with
  | Fin q => Fin (Qred q)
  | other => other
  end.

(** The tunables with the empty-channel shortcut switched off. *)
Definition without_skipping (tunable : Tunables) : Tunables := {|
  cells_empty_channel_skipping := false;
  cells_empty_channel_skipping_intensity_range_quotient :=
    cells_empty_channel_skipping_intensity_range_quotient tunable;
  cells_extrema_order := cells_extrema_order tunable;
  cells_filtering_maximum_brightness :=
    cells_filtering_maximum_brightness tunable;
  cells_filtering_minimum_prominence :=
    cells_filtering_minimum_prominence tunable
|}.

(** The sample at an index clipped into the signal, as [take(...,
    mode='clip')] reads it. *)
Definition sample (data : ndarray) (i : Z) : float :=
  nth (Z.to_nat (clip i 0 (len data - 1))) data NaN.

(** [i] beats both of its neighbours at every distance up to [order]. *)
Definition dominates (comparator : float -> float -> bool) (data : ndarray)
  (order : Z) (i : Z) : Prop :=
  forall shift, 1 <= shift <= order ->
    comparator (sample data i) (sample data (i + shift)) = true
    /\ comparator (sample data i) (sample data (i - shift)) = true.

(** ** one_every_n and each_image_slice

    Two helpers that divide: next to the exceptions above they can end in a
    [ZeroDivisionError]. *)

Module Utilities.

Import String.

Inductive failure : Type :=
| Exception (e : exn)
| ZeroDivisionError.

Inductive attempt (A : Type) : Type :=
| Done (a : A)
| Failed (f : failure).
Arguments Done {A} a.
Arguments Failed {A} f.

Definition and_then {A B : Type} (c : attempt A) (k : A -> attempt B)
  : attempt B :=
  match c with
  | Done a => k a
  | Failed f => Failed f
  end.

Notation "x <- c ;; k" := (and_then c (fun x => k))
  (at level 61, c at next level, right associativity).

(** [numpy.zeros(n)]. *)
Definition zeros (n : Z) : attempt ndarray :=
  if n <? 0 then Failed (Exception ValueError)
  else Done (repeat (Fin 0) (Z.to_nat n)).

(** Python's [a % n] and [a // n] on integers: the remainder has the sign
    of the divisor, the quotient is rounded down. *)
Definition py_mod (a n : Z) : attempt Z :=
  if n =? 0 then Failed ZeroDivisionError else Done (a mod n).

Definition py_floordiv (a n : Z) : attempt Z :=
  if n =? 0 then Failed ZeroDivisionError else Done (a / n).

(** The cast to int32, with its wrap-around. *)
Definition wrap32 (z : Z) : Z := (z + 2 ^ 31) mod 2 ^ 32 - 2 ^ 31.

(** [numpy.arange(start, stop, step, dtype=numpy.int32)] for a step other
    than 0: [ceil((stop - start) / step)] values, none when that is
    negative. *)
Definition arange_step (start stop step : Z) : list Z :=
  let count := if 0 <? step then (stop - start + step - 1) / step
               else (stop - start + step + 1) / step in
  map (fun k => wrap32 (start + Z.of_nat k * step)) (seq 0 (Z.to_nat count)).

Fixpoint set_nth {A : Type} (i : nat) (l : list A) (value : A) : list A :=
  match l, i with
  | [], _ => []
  | _ :: rest, O => value :: rest
  | x :: rest, S i' => x :: set_nth i' rest value
  end.

(** [signal[indices] = value] with an integer index array: negative indices
    count from the end, an index out of range is an [IndexError]. *)
Fixpoint put_all (signal : ndarray) (indices : list Z) (value : float)
  : attempt ndarray :=
  match indices with
  | [] => Done signal
  | i :: rest =>
      let j := if i <? 0 then i + len signal else i in
      if (j <? 0) || (len signal <=? j) then Failed (Exception IndexError)
      else put_all (set_nth (Z.to_nat j) signal value) rest value
  end.

Definition one_every_n (length n shift : Z) : attempt ndarray :=
  signal <- zeros length ;;
  start <- py_mod shift n ;;
  let indices := arange_step start length n in
  let indices := filter (fun i => i <? len signal) indices in
  put_all signal indices (Fin 1).

(** A 2-d array as the list of its rows; [shape[0]] is the number of rows
    and [shape[1]] the length of a row. *)
Definition image (A : Type) : Type := list (list A).

Definition shape0 {A : Type} (img : image A) : Z := len img.
Definition shape1 {A : Type} (img : image A) : Z := len (hd [] img).

(** [image[:, lo:hi]] and [image[lo:hi, :]]. *)
Definition columns {A : Type} (img : image A) (lo hi : Z) : image A :=
  map (fun row => slice row lo hi) img.

Definition rows {A : Type} (img : image A) (lo hi : Z) : image A :=
  slice img lo hi.

(** [range(n)]. *)
Definition range (n : Z) : list Z := arange (Z.to_nat n).

(** [each_image_slice], as the list of what the generator yields; the
    errors surface at the first [next]. *)
Definition each_image_slice {A : Type} (img : image A) (steps : Z)
  (direction : string) : attempt (list (Z * Z * image A)) :=
  if (direction =? "vertical")%string then
    step <- py_floordiv (shape1 img) steps ;;
    Done (map (fun n => (n, step, columns img (step * n) (step * (n + 1))))
              (range steps))
  else if (direction =? "horizontal")%string then
    step <- py_floordiv (shape0 img) steps ;;
    Done (map (fun n => (n, step, rows img (step * n) (step * (n + 1))))
              (range steps))
  else Failed (Exception ValueError).

End Utilities.

(** ** find_insides: the state of its loop *)

(** The samples from [start] up to [stop], [stop] left out, are true, and the
    one before [start] is not, index 0 apart. *)
Definition is_run (signal : list bool) (start stop : Z) : Prop :=
  1 <= start
  /\ (forall k, start <= k < stop -> getitem signal k = Ok true)
  /\ (start = 1 \/ getitem signal (start - 1) = Ok false).

(** What holds of [last_true] and [pairs] once the loop of [find_insides]
    has gone through [signal]. *)
Definition find_insides_invariant (signal : list bool)
  (state : option Z * list (Z * Z)) : Prop :=
  (truthy (fst state) = false ->
   len signal <= 1 \/ getitem signal (len signal - 1) = Ok false)
  /\ (forall m, fst state = Some m -> m <> 0 ->
      m < len signal
      /\ is_run signal m (len signal)
      /\ Forall (fun p => snd p < m) (snd state))
  /\ Forall (fun p => fst p < snd p < len signal
                      /\ is_run signal (fst p) (snd p)
                      /\ getitem signal (snd p) = Ok false) (snd state)
  /\ StronglySorted (fun p q => snd p < fst q) (snd state).

(** ** Cell and Cells *)

Module CellClasses.

(** The channel object, as far as [Cells] looks at it: the [mu_to_pixel] of
    its image.  The class is defined in a module outside the sources at
    hand. *)
Record Channel : Type := {
  image_mu_to_pixel : float -> float
}.

Record Cell : Type := {
  local_top : float;
  local_bottom : float;
  channel : Channel
}.

(** [Cell.__init__]; [float(top)] is [top] itself for an index below
    2^53. *)
Definition Cell_init (top bottom : Z) (channel : Channel) : Cell :=
  {| local_top := of_Z top; local_bottom := of_Z bottom; channel := channel |}.

(** [Cell.__lt__]. *)
Definition lt (self other_cell : Cell) : bool :=
  ltb (local_top self) (local_top other_cell).

Section Bootstrap.

Variable tunable : Tunables.

(** The tunable [cells.minimal_length.in_mu], 1.0 unless overridden. *)
Variable cells_minimal_length_in_mu : float.

Variable UnivariateSpline : ndarray -> ndarray -> Z * Z -> Z -> spline.

(** [Cells.__init__], returning [cells_list]; the channel image enters
    through the three profiles [find_cells_in_channel] derives from it. *)
Definition Cells_init (channel : Channel)
  (thresholded_profile profile_of_binary_image profile : ndarray)
  (bootstrap : bool) : result (list Cell) :=
  if negb bootstrap then Ok []
  else
    (found <- find_cells_in_channel tunable UnivariateSpline
                thresholded_profile profile_of_binary_image profile ;;
     Ok (map (fun '(b, e) => Cell_init b e channel)
           (filter (fun '(b, e) =>
                      ltb (image_mu_to_pixel channel
                             cells_minimal_length_in_mu)
                          (of_Z (e - b)))
                   found)))%py.

End Bootstrap.

(** Two cells in the order of [__lt__], the first ending before the second
    begins. *)
Definition before (self other_cell : Cell) : Prop :=
  lt self other_cell = true
  /\ ltb (local_bottom self) (local_top other_cell) = true.

End CellClasses.

(** ** TunableManager *)

Module Tunable.

Import String.

(** The values a tunable takes in this program, and after a JSON file of
    overrides has been read: floats, integers, booleans and strings. *)
Inductive value : Type :=
| VFloat (x : float)
| VInt (z : Z)
| VBool (b : bool)
| VStr (s : string).

Inductive type : Type := float_type | int_type | bool_type | str_type.

Definition type_of (v : value) : type :=
  match v with
  | VFloat _ => float_type
  | VInt _ => int_type
  | VBool _ => bool_type
  | VStr _ => str_type
  end.

Inductive failure : Type :=
| Exception (e : exn)
| OverflowError
| KeyError.

Inductive attempt (A : Type) : Type :=
| Done (a : A)
| Failed (f : failure).
Arguments Done {A} a.
Arguments Failed {A} f.

(** A dict with string keys, in insertion order. *)
Definition dict : Type := list (string * value).

Fixpoint lookup (d : dict) (key : string) : option value :=
  match d with
  | [] => None
  | (k, v) :: rest => if String.eqb k key then Some v else lookup rest key
  end.

(** [key in d]. *)
Definition contains (d : dict) (key : string) : bool :=
  match lookup d key with Some _ => true | None => false end.

(** [d[key]]. *)
Definition getitem (d : dict) (key : string) : attempt value :=
  match lookup d key with Some v => Done v | None => Failed KeyError end.

(** [d[key] = v]: a key already there keeps its place. *)
Fixpoint setitem (d : dict) (key : string) (v : value) : dict :=
  match d with
  | [] => [(key, v)]
  | (k, v') :: rest =>
      if String.eqb k key then (k, v) :: rest
      else (k, v') :: setitem rest key v
  end.

Section Casts.

(** Reading a number off a string and printing a value are Python's own. *)
Variable float_of_string : string -> attempt float.
Variable int_of_string : string -> attempt Z.
Variable str_of : value -> string.

(** [float(x)]; an integer that rounds to 2^1024 or beyond does not fit.
    The rounding of the others to 53 bits is not modelled. *)
Definition to_float (x : value) : attempt float :=
  match x with
  | VFloat f => Done f
  | VInt z =>
      if Z.abs z <? 2 ^ 1024 - 2 ^ 970 then Done (of_Z z)
      else Failed OverflowError
  | VBool b => Done (if b then Fin 1 else Fin 0)
  | VStr s => float_of_string s
  end.

(** [int(x)]: truncation towards zero. *)
Definition to_int (x : value) : attempt Z :=
  match x with
  | VFloat (Fin q) => Done (Z.quot (Qnum q) (Z.pos (Qden q)))
  | VFloat NaN => Failed (Exception ValueError)
  | VFloat _ => Failed OverflowError
  | VInt z => Done z
  | VBool b => Done (if b then 1 else 0)
  | VStr s => int_of_string s
  end.

(** [bool(x)]: the truth value. *)
Definition to_bool (x : value) : bool :=
  match x with
  | VFloat (Fin q) => negb (Qeq_bool q 0)
  | VFloat _ => true
  | VInt z => negb (z =? 0)
  | VBool b => b
  | VStr s => negb (String.eqb s "")
  end.

Definition to_str (x : value) : string :=
  match x with
  | VStr s => s
  | _ => str_of x
  end.

(** [t(x)] for the type [t] of a default. *)
Definition cast (t : type) (x : value) : attempt value :=
  match t with
  | float_type =>
      match to_float x with Done f => Done (VFloat f) | Failed e => Failed e end
  | int_type =>
      match to_int x with Done z => Done (VInt z) | Failed e => Failed e end
  | bool_type => Done (VBool (to_bool x))
  | str_type => Done (VStr (to_str x))
  end.

(** The class attributes. *)
Record TunableManager : Type := {
  defaults : dict;
  current : dict;
  force_default : bool
}.

Definition load_tunables (data : dict) (cls : TunableManager)
  : TunableManager :=
  {| defaults := defaults cls;
     current := data;
     force_default := force_default cls |}.

Definition get_defaults (cls : TunableManager) : dict := defaults cls.

(** [get_tunable]: the result, or the exception of the cast, and the class
    afterwards; the default is stored before anything can fail.  The calls
    of the logger are left out. *)
Definition get_tunable (what : string) (default : value)
  (cls : TunableManager) : attempt value * TunableManager :=
  let cls := {| defaults := setitem (defaults cls) what default;
                current := current cls;
                force_default := force_default cls |} in
  if force_default cls || negb (contains (current cls) what) then
    (Done default, cls)
  else
    match getitem (current cls) what with
    | Done override => (cast (type_of default) override, cls)
    | Failed e => (Failed e, cls)
    end.

Definition tunable (what : string) (default : value)
  (cls : TunableManager) : attempt value * TunableManager :=
  get_tunable what default cls.

End Casts.

End Tunable.

(** ** FluorescentImage: the background of every fluorescence *)

Module Fluorescence.

(** The product of two floats, exact on the finite ones. *)
Definition mul (x y : float) : float :=
  match x, y with
  | NaN, _ | _, NaN => NaN
  | Fin a, Fin b => Fin (a * b)
  | Fin a, PInf | PInf, Fin a =>
      if Qeq_bool a 0 then NaN else if Qltb 0 a then PInf else NInf
  | Fin a, NInf | NInf, Fin a =>
      if Qeq_bool a 0 then NaN else if Qltb 0 a then NInf else PInf
  | PInf, PInf | NInf, NInf => PInf
  | PInf, NInf | NInf, PInf => NInf
  end.

Section Images.

(** A fluorescence image, a channel, and
    [fluorescence_image[next_channel.real_top:next_channel.real_bottom,
    previous_channel.right:next_channel.left]], the pixels between two
    channels: the classes [Image] and [Channel] are defined in modules
    outside the sources at hand. *)
Variable image : Type.
Variable Channel : Type.
Variable background_fragment : image -> Channel -> Channel -> ndarray.

(** The attributes [FluorescentImage] adds, and the channels found. *)
Record FluorescentImage : Type := {
  image_fluorescences : list (option image);
  original_image_fluorescences : list (option image);
  background_fluorescences : list float;
  channels : list Channel
}.

(** [__init__]. *)
Definition FluorescentImage_init : FluorescentImage :=
  {| image_fluorescences := [];
     original_image_fluorescences := [];
     background_fluorescences := [];
     channels := [] |}.

Definition setup_add_fluorescence (fimg : image) (self : FluorescentImage)
  : FluorescentImage :=
  {| image_fluorescences := image_fluorescences self ++ [Some fimg];
     original_image_fluorescences :=
       original_image_fluorescences self ++ [Some fimg];
     background_fluorescences := background_fluorescences self ++ [Fin 0];
     channels := channels self |}.

Definition clean (self : FluorescentImage) : FluorescentImage :=
  let fluor_count := List.length (image_fluorescences self) in
  {| image_fluorescences := repeat None fluor_count;
     original_image_fluorescences := repeat None fluor_count;
     background_fluorescences := background_fluorescences self;
     channels := channels self |}.

(** The rows of [background_fluorescence_means]: mean and size of the
    fragment before every channel but the first.  An image that is [None]
    cannot be sliced. *)
Fixpoint background_fluorescence_means (fluorescence_image : option image)
  (previous_channel : Channel) (channel_iterator : list Channel)
  : result (list (float * float)) :=
  match channel_iterator with
  | [] => Ok []
  | next_channel :: channel_iterator =>
      match fluorescence_image with
      | None => Raise TypeError
      | Some pixels =>
          let background_fragment :=
            background_fragment pixels previous_channel next_channel in
          (rows <- background_fluorescence_means fluorescence_image
                     next_channel channel_iterator ;;
           Ok ((mean background_fragment, of_Z (len background_fragment))
                 :: rows))%py
      end
  end.

(** The value assigned to [background_fluorescences[i]]: [0 / 0] when there
    is no fragment.  With fragments the sums and quotients are exact here,
    where numpy rounds them. *)
Definition background_fluorescence (fluorescence_image : option image)
  (first : Channel) (others : list Channel) : result float :=
  (rows <- background_fluorescence_means fluorescence_image first others ;;
   let weighted := map (fun row => mul (fst row) (snd row)) rows in
   Ok (div (asum weighted) (asum (map snd rows))))%py.

(** The loop over the fluorescences, assigning into the list. *)
Fixpoint assign_backgrounds (fluorescences : list (option image)) (i : nat)
  (first : Channel) (others : list Channel) (backgrounds : list float)
  : result (list float) :=
  match fluorescences with
  | [] => Ok backgrounds
  | fluorescence_image :: fluorescences =>
      (value <- background_fluorescence fluorescence_image first others ;;
       if (i <? List.length backgrounds)%nat then
         assign_backgrounds fluorescences (S i) first others
           (Utilities.set_nth i backgrounds value)
       else Raise IndexError)%py
  end.

(** [find_channels], after the channels were found by the base class. *)
Definition find_channels (found : list Channel) (self : FluorescentImage)
  : result FluorescentImage :=
  let fluor_count := List.length (image_fluorescences self) in
  match found with
  | [] =>
      Ok {| image_fluorescences := image_fluorescences self;
            original_image_fluorescences := original_image_fluorescences self;
            background_fluorescences := repeat (Fin 0) fluor_count;
            channels := found |}
  | first :: others =>
      (backgrounds <- assign_backgrounds (image_fluorescences self) 0 first
                        others (background_fluorescences self) ;;
       Ok {| image_fluorescences := image_fluorescences self;
             original_image_fluorescences :=
               original_image_fluorescences self;
             background_fluorescences := backgrounds;
             channels := found |})%py
  end.

(** The three lists grow together. *)
Definition in_step (self : FluorescentImage) : Prop :=
  List.length (original_image_fluorescences self)
  = List.length (image_fluorescences self)
  /\ List.length (background_fluorescences self)
     = List.length (image_fluorescences self).

End Images.

(** A comprehension whose body can raise. *)
Fixpoint for_each {A B : Type} (body : A -> result B) (items : list A)
  : result (list B) :=
  match items with
  | [] => Ok []
  | item :: items =>
      (first <- body item ;;
       others <- for_each body items ;;
       Ok (first :: others))%py
  end.

(** [enumerate]. *)
Definition enumerate {A : Type} (items : list A) : list (Z * A) :=
  zip (arange (List.length items)) items.

(** The attributes [FluorescentCell] adds to a cell. *)
Record FluorescentCell : Type := {
  fluorescences_mean : list float;
  fluorescences_std : list float
}.

(** What [flatten] keeps of the cells: for every fluorescence, for every
    channel, the value of every cell. *)
Record flattened : Type := {
  channels_cells_fluorescences_mean : list (list (list float));
  channels_cells_fluorescences_std : list (list (list float))
}.

Definition by_fluorescence (attribute : FluorescentCell -> list float)
  (fluor_count : Z) (channels : list (list FluorescentCell))
  : result (list (list (list float))) :=
  for_each (fun f =>
              for_each (fun c => for_each (fun cc => getitem (attribute cc) f)
                                   c)
                channels)
    (Utilities.range fluor_count).

(** [flatten], on the cells of the channels. *)
Definition flatten (fluor_count : Z) (channels : list (list FluorescentCell))
  : result flattened :=
  (means <- by_fluorescence fluorescences_mean fluor_count channels ;;
   stds <- by_fluorescence fluorescences_std fluor_count channels ;;
   Ok {| channels_cells_fluorescences_mean := means;
         channels_cells_fluorescences_std := stds |})%py.

Definition of_cell (table : list (list (list float))) (fluor_count n cn : Z)
  : result (list float) :=
  for_each (fun f =>
              (of_fluorescence <- getitem table f ;;
               of_channel <- getitem of_fluorescence n ;;
               getitem of_channel cn)%py)
    (Utilities.range fluor_count).

(** [unflatten], on the cells the base class has made anew. *)
Definition unflatten (fluor_count : Z) (self : flattened)
  (channels : list (list FluorescentCell))
  : result (list (list FluorescentCell)) :=
  for_each (fun numbered_channel =>
     let n := fst numbered_channel in
     for_each (fun numbered_cell =>
        let cn := fst numbered_cell in
        (means <- of_cell (channels_cells_fluorescences_mean self)
                    fluor_count n cn ;;
         stds <- of_cell (channels_cells_fluorescences_std self)
                   fluor_count n cn ;;
         Ok {| fluorescences_mean := means; fluorescences_std := stds |})%py)
       (enumerate (snd numbered_channel)))
    (enumerate channels).

(** Every cell holds one value for every fluorescence. *)
Definition complete (fluor_count : nat)
  (channels : list (list FluorescentCell)) : Prop :=
  Forall (Forall (fun cell =>
                    List.length (fluorescences_mean cell) = fluor_count
                    /\ List.length (fluorescences_std cell) = fluor_count))
    channels.

(** [FluorescentCell.fluorescences]: the means less the backgrounds of the
    image the cell belongs to. *)
Definition fluorescences {image Channel : Type} (self : FluorescentCell)
  (its_image : FluorescentImage image Channel) : result (list float) :=
  for_each (fun f =>
              (measured <- getitem (fluorescences_mean self) f ;;
               background <- getitem (background_fluorescences image Channel
                                        its_image) f ;;
               Ok (sub measured background))%py)
    (Utilities.range (len (image_fluorescences image Channel its_image))).

(** [FluorescentCell.fluorescences_raw]. *)
Definition fluorescences_raw (self : FluorescentCell) : list float :=
  fluorescences_mean self.

End Fluorescence.

(** ** parse_range *)

Module Ranges.

Import Ascii.
Import String.

(** [s.split(sep)] for a separator of one character: one fragment more
    than there are separators. *)
Fixpoint split (sep : ascii) (s : string) : list string :=
  match s with
  | EmptyString => [EmptyString]
  | String c rest =>
      if Ascii.eqb c sep then EmptyString :: split sep rest
      else match split sep rest with
           | [] => [String c EmptyString]
           | fragment :: fragments => String c fragment :: fragments
           end
  end.

(** [s.replace(old, new)] for single characters. *)
Fixpoint replace (old new : ascii) (s : string) : string :=
  match s with
  | EmptyString => EmptyString
  | String c rest =>
      String (if Ascii.eqb c old then new else c) (replace old new rest)
  end.

(** [c in s]. *)
Fixpoint contains (c : ascii) (s : string) : bool :=
  match s with
  | EmptyString => false
  | String c' rest => Ascii.eqb c' c || contains c rest
  end.

(** An item of the result: an integer, or [float('Inf')]. *)
Inductive item : Type :=
| Number (z : Z)
| Inf.

(** [range(start, stop)], as a list. *)
Definition range (start stop : Z) : list Z :=
  map (fun i => start + Z.of_nat i) (seq 0 (Z.to_nat (stop - start))).

Section Parsing.

(** Python's [int] on a string. *)
Variable int : string -> result Z.

(** The body of the loop, on [ranges] and [tail]. *)
Definition parse_fragment (allow_open_interval : bool) (frag : string)
  (state : list item * list item) : result (list item * list item) :=
  let '(ranges, tail) := state in
  if contains "-" frag then
    match split "-" frag with
    | [f; t] =>
        if String.eqb t "" then
          if allow_open_interval then
            (start <- int f ;; Ok (ranges, [Number start; Inf]))%py
          else Raise ValueError
        else
          (start <- int f ;;
           stop <- int t ;;
           Ok (ranges ++ map Number (range start (stop + 1)), tail))%py
    | _ => Raise ValueError
    end
  else
    (only <- int frag ;; Ok (ranges ++ [Number only], tail))%py.

Fixpoint parse_fragments (allow_open_interval : bool)
  (fragments : list string) (state : list item * list item)
  : result (list item * list item) :=
  match fragments with
  | [] => Ok state
  | frag :: fragments =>
      (state <- parse_fragment allow_open_interval frag state ;;
       parse_fragments allow_open_interval fragments state)%py
  end.

Definition parse_range (s : string) (allow_open_interval : bool)
  : result (list item) :=
  (state <- parse_fragments allow_open_interval
              (split "," (replace ";" "," s)) ([], []) ;;
   Ok (fst state ++ snd state))%py.

End Parsing.

(** A reader of unsigned decimal numbers, for the examples. *)
Definition digit (c : ascii) : option Z :=
  let n := Z.of_nat (nat_of_ascii c) - 48 in
  if (0 <=? n) && (n <=? 9) then Some n else None.

Fixpoint decimal (s : string) (value : Z) : result Z :=
  match s with
  | EmptyString => Ok value
  | String c rest =>
      match digit c with
      | Some d => decimal rest (10 * value + d)
      | None => Raise ValueError
      end
  end.

Definition unsigned (s : string) : result Z :=
  match s with
  | EmptyString => Raise ValueError
  | _ => decimal s 0
  end.

Definition is_number (x : item) : Prop :=
  match x with Number _ => True | Inf => False end.

End Ranges.

(** ** normalize and fit_to_type, in float64 arithmetic with its rounding

    A finite float64 is a rational; every operation on finite values gives
    the exact result rounded.  The operations take the rounding as [round];
    the rounding of float64 is [binary64], defined below.  What the proofs
    use of a rounding is collected in [IEEE]. *)

Module Float64.

Import Ascii.

(** [x <= y] between two floats, none of them a NaN. *)
Definition le (x y : float) : Prop :=
  match x, y with
  | NaN, _ | _, NaN => False
  | NInf, _ | _, PInf => True
  | Fin a, Fin b => (a <= b)%Q
  | _, _ => False
  end.

(** Rounding to nearest, as far as it is used: the result depends on the
    number only and is never a NaN; rounding is monotone and leaves a
    float64 as it is; integers up to 2^53 are float64 numbers; from 2^1024
    on the result is the infinity; and, underflow being gradual, the
    difference of two different float64 numbers is not rounded to zero. *)
Record IEEE (round : Q -> float) : Prop := {
  round_proper : forall a b, (a == b)%Q -> round a = round b;
  round_monotone : forall a b, (a <= b)%Q -> le (round a) (round b);
  round_idempotent : forall a b, round a = Fin b -> round b = Fin b;
  round_integer :
    forall z, Z.abs z <= 2 ^ 53 -> round (inject_Z z) = Fin (inject_Z z);
  round_overflow :
    forall a, (inject_Z (2 ^ 1024) <= a)%Q -> round a = PInf;
  round_difference :
    forall a b, round a = Fin a -> round b = Fin b ->
                Float.eq (round (a - b)%Q) (Fin 0) -> (a == b)%Q
}.

(** A numpy dtype, as far as [fit_to_type] looks at it: the kind character
    and the size of an item in bytes. *)
Record numpy_dtype : Type := {
  kind : Ascii.ascii;
  itemsize : Z
}.

(** An array of int64 or of float64, as [normalize] is given one. *)
Inductive numeric_array : Type :=
| IntArray (items : list Z)
| FloatArray (items : ndarray).

(** The arrays [fit_to_type] can return. *)
Inductive typed_array : Type :=
| OfFloat (items : ndarray)
| OfInt (items : list Z)
| OfBool (items : list bool).

(** Truncation towards zero. *)
Definition Qtruncate (q : Q) : Z := Z.quot (Qnum q) (Z.pos (Qden q)).

Section Rounding.

Variable round : Q -> float.

Definition sub (x y : float) : float :=
  match x, y with
  | Fin a, Fin b => round (a - b)%Q
  | _, _ => Float.sub x y
  end.

Definition mul (x y : float) : float :=
  match x, y with
  | NaN, _ | _, NaN => NaN
  | Fin a, Fin b => round (a * b)%Q
  | Fin a, PInf | PInf, Fin a =>
      if Qeq_bool a 0 then NaN else if Qltb 0 a then PInf else NInf
  | Fin a, NInf | NInf, Fin a =>
      if Qeq_bool a 0 then NaN else if Qltb 0 a then NInf else PInf
  | PInf, PInf | NInf, NInf => PInf
  | PInf, NInf | NInf, PInf => NInf
  end.

Definition div (x y : float) : float :=
  match x, y with
  | Fin a, Fin b => if Qeq_bool b 0 then Float.div x y else round (a / b)%Q
  | _, _ => Float.div x y
  end.

(** A Python integer, or an int64, as a float64. *)
Definition float_of_int (z : Z) : float := round (inject_Z z).

(** [data.astype(float)]. *)
Definition astype_float (data : numeric_array) : ndarray :=
  match data with
  | IntArray items => map float_of_int items
  | FloatArray items => items
  end.

Definition normalize (data : numeric_array) : result ndarray :=
  (let result := astype_float data in
   lowest <- amin result ;;
   let result := map (fun x => sub x lowest) result in
   highest <- amax result ;;
   let result := map (fun x => div x highest) result in
   Ok result)%py.

(** The C cast of a float that is not a number, or whose integer part the
    target type cannot hold, is undefined: whatever the platform gives. *)
Variable undefined_cast : float -> Z.

(** [astype] to an integer type with values [lo..hi]. *)
Definition cast_between (lo hi : Z) (x : float) : Z :=
  match x with
  | Fin q =>
      let t := Qtruncate q in
      if (lo <=? t) && (t <=? hi) then t else undefined_cast x
  | _ => undefined_cast x
  end.

(** [image.astype(to_type)] for a float type: the rounding to its width. *)
Variable astype_floating : numpy_dtype -> numeric_array -> ndarray.

Definition fit_to_type (image : numeric_array) (new_dtype : numpy_dtype)
  : result typed_array :=
  (scaled_img <- normalize image ;;
   let to_type := new_dtype in
   let bits := itemsize to_type * 8 in
   if Ascii.eqb (kind to_type) "f"%char then
     Ok (OfFloat (astype_floating to_type image))
   else if Ascii.eqb (kind to_type) "u"%char then
     Ok (OfInt (map (fun x => cast_between 0 (2 ^ bits - 1)
                                (mul x (float_of_int (2 ^ bits - 1))))
                    scaled_img))
   else if Ascii.eqb (kind to_type) "i"%char then
     Ok (OfInt (map (fun x => cast_between (- 2 ^ (bits - 1))
                                (2 ^ (bits - 1) - 1)
                                (sub (mul x (float_of_int (2 ^ bits - 1)))
                                     (float_of_int (2 ^ (bits - 1)))))
                    scaled_img))
   else if Ascii.eqb (kind to_type) "b"%char then
     Ok (OfBool (map (fun x => gtb x (Fin (1 # 2))) scaled_img))
   else Raise TypeError)%py.

(** An array of float64 numbers: every finite value is one the rounding
    leaves as it is. *)
Definition float64_array (data : ndarray) : Prop :=
  forall a, In (Fin a) data -> round a = Fin a.

(** No difference of two values of the array overflows. *)
Definition spread_fits (data : ndarray) : Prop :=
  forall a b, In (Fin a) data -> In (Fin b) data ->
              is_finite (round (a - b)%Q) = true.

End Rounding.

(** The rounding of float64: to the nearest number of 53 bits, a tie going
    to the even one, with gradual underflow and with overflow to an
    infinity.  Every float64 number is a multiple [k] of 2^-1074, the
    smallest one. *)

(** The integer nearest to [a / b], for [0 < b]; a tie goes to the even
    one. *)
Definition nearest_even (a b : Z) : Z :=
  let q := a / b in
  match 2 * (a mod b) ?= b with
  | Lt => q
  | Gt => q + 1
  | Eq => if Z.even q then q else q + 1
  end.

(** The exponent of the last of the 53 bits of [n / d]; 0 for the
    subnormal numbers. *)
Definition exponent (n d : Z) : Z := Z.max 0 (Z.log2 (Z.abs n / d) - 52).

(** The number of 53 bits nearest to [n / d], for [0 < d]. *)
Definition nearest_float (n d : Z) : Z :=
  nearest_even n (d * 2 ^ exponent n d) * 2 ^ exponent n d.

Definition smallest : positive := 2 ^ 1074.

(** The float64 nearest to [a], in units of 2^-1074. *)
Definition scaled (a : Q) : Z :=
  let a := Qred a in
  nearest_float (Qnum a * Z.pos smallest) (Z.pos (Qden a)).

Definition binary64 (a : Q) : float :=
  let k := scaled a in
  if 2 ^ 2098 <=? k then PInf
  else if k <=? - 2 ^ 2098 then NInf
  else Fin (Qred (k # smallest)).

(** The multiples of the unit with 53 bits. *)
Definition is_float (k : Z) : Prop :=
  exists m j, k = m * 2 ^ j /\ Z.abs m < 2 ^ 53 /\ 0 <= j.

Definition uint8 : numpy_dtype := {| kind := "u"%char; itemsize := 1 |}.
Definition int8 : numpy_dtype := {| kind := "i"%char; itemsize := 1 |}.
Definition bool_ : numpy_dtype := {| kind := "b"%char; itemsize := 1 |}.
Definition float32 : numpy_dtype := {| kind := "f"%char; itemsize := 4 |}.

End Float64.

(** * Proofs *)

(** ** Index arrays *)

Lemma len_nonneg {A : Type} (a : list A) : 0 <= len a.
Proof. unfold len. lia. Qed.

Lemma arange_length n : length (arange n) = n.
Proof. unfold arange. now rewrite length_map, length_seq. Qed.

Lemma arange_from_sorted start n :
  StronglySorted Z.lt (map Z.of_nat (seq start n)).
Proof.
  revert start. induction n as [|n IH]; intros start; simpl.
  - constructor.
  - constructor; [apply IH|].
    apply Forall_forall. intros z Hz.
    apply in_map_iff in Hz. destruct Hz as [m [<- Hm]].
    apply in_seq in Hm. lia.
Qed.

Lemma arange_bounds n i : In i (arange n) -> 0 <= i <= Z.of_nat n - 1.
Proof.
  unfold arange. intros Hi. apply in_map_iff in Hi.
  destruct Hi as [m [<- Hm]]. apply in_seq in Hm. lia.
Qed.

Lemma filter_sorted {A : Type} (R : A -> A -> Prop) (p : A -> bool) l :
  StronglySorted R l -> StronglySorted R (filter p l).
Proof.
  induction 1 as [|x l Hs IH Hall]; simpl; [constructor|].
  destruct (p x); [|exact IH].
  constructor; [exact IH|].
  apply Forall_forall. intros y Hy. apply filter_In in Hy.
  rewrite Forall_forall in Hall. now apply Hall.
Qed.

Lemma sorted_lt_nodup l : StronglySorted Z.lt l -> NoDup l.
Proof.
  induction 1 as [|x l Hs IH Hall]; constructor; [|exact IH].
  intros Hin. rewrite Forall_forall in Hall. specialize (Hall x Hin). lia.
Qed.

Lemma nonzero_ascending mask : ascending_within (nonzero mask) (len mask).
Proof.
  unfold nonzero, len.
  assert (Hs : StronglySorted Z.lt
                 (filter (fun i => nth (Z.to_nat i) mask false)
                         (arange (length mask)))).
  { apply filter_sorted. apply arange_from_sorted. }
  split; [exact Hs|]. split; [now apply sorted_lt_nodup|].
  apply Forall_forall. intros i Hi. apply filter_In in Hi.
  now apply arange_bounds.
Qed.

Lemma singleton_ascending i n : 0 <= i <= n - 1 -> ascending_within [i] n.
Proof.
  intros Hi. repeat split.
  - repeat constructor.
  - constructor; [intros []|constructor].
  - now constructor.
Qed.

(** ** Relative extrema are index arrays of the signal *)

Lemma zip_with_length {A B C : Type} (f : A -> B -> C) a b :
  length (zip_with f a b) = Nat.min (length a) (length b).
Proof.
  revert b. induction a as [|x a IH]; intros [|y b]; simpl; auto.
Qed.

Lemma take_clip_length a indices :
  length (take_clip a indices) = length indices.
Proof. unfold take_clip. apply length_map. Qed.

Lemma boolrelextrema_loop_length comparator data shifts results :
  length results = length data ->
  length (boolrelextrema_loop comparator data shifts results) = length data.
Proof.
  revert results. induction shifts as [|shift rest IH]; intros results Hlen;
    simpl; [exact Hlen|].
  set (step := and_arrays _ _).
  assert (Hstep : length step = length data).
  { unfold step, and_arrays.
    rewrite !zip_with_length, !take_clip_length, !length_map, arange_length.
    lia. }
  destruct (negb (existsb (fun b => b) step)); [exact Hstep|].
  now apply IH.
Qed.

Lemma argrelextrema_ok comparator data order :
  1 <= order ->
  exists found,
    argrelextrema comparator data order = Ok found
    /\ ascending_within found (len data).
Proof.
  intros Horder. unfold argrelextrema, boolrelextrema.
  destruct (order <? 1) eqn:E; [lia|]. simpl.
  eexists. split; [reflexivity|].
  set (results := boolrelextrema_loop _ _ _ _).
  assert (Hlen : length results = length data).
  { apply boolrelextrema_loop_length. apply repeat_length. }
  pose proof (nonzero_ascending results) as H.
  unfold len in *. now rewrite Hlen in H.
Qed.

Lemma argrelextrema_raises comparator data order :
  order < 1 -> argrelextrema comparator data order = Raise ValueError.
Proof.
  intros Horder. unfold argrelextrema, boolrelextrema.
  destruct (order <? 1) eqn:E; [reflexivity|lia].
Qed.

(** The retry loop succeeds at its first round whenever it is entered, and
    keeps the initial value otherwise. *)
Lemma retry_extrema_run comparator signal order initial :
  retry_extrema (argrelextrema comparator) signal (Z.to_nat order) initial
  = Ok (match argrelextrema comparator signal order with
        | Ok found => found
        | Raise _ => initial
        end).
Proof.
  destruct (Z_lt_le_dec order 1) as [Hlow|Hhigh].
  - rewrite (argrelextrema_raises _ _ _ Hlow).
    replace (Z.to_nat order) with O by lia. reflexivity.
  - destruct (argrelextrema_ok comparator signal order Hhigh)
      as [found [Hfound _]].
    rewrite Hfound.
    destruct (Z.to_nat order) as [|below] eqn:E; [lia|].
    cbn [retry_extrema]. rewrite <- E, Z2Nat.id by lia.
    now rewrite Hfound.
Qed.

(** ** The global extremum is an index of the signal *)

Lemma argmax_from_bounds a pos best_i best :
  0 <= best_i < pos ->
  0 <= argmax_from a pos best_i best < pos + len a.
Proof.
  revert pos best_i best. induction a as [|x a IH]; intros pos best_i best H;
    cbn [argmax_from].
  - unfold len. simpl. lia.
  - replace (pos + len (x :: a)) with (pos + 1 + len a)
      by (unfold len; simpl length; lia).
    destruct (gtb x best || (is_nan x && negb (is_nan best)));
      apply IH; lia.
Qed.

Lemma argmin_from_bounds a pos best_i best :
  0 <= best_i < pos ->
  0 <= argmin_from a pos best_i best < pos + len a.
Proof.
  revert pos best_i best. induction a as [|x a IH]; intros pos best_i best H;
    cbn [argmin_from].
  - unfold len. simpl. lia.
  - replace (pos + len (x :: a)) with (pos + 1 + len a)
      by (unfold len; simpl length; lia).
    destruct (ltb x best || (is_nan x && negb (is_nan best)));
      apply IH; lia.
Qed.

Lemma argmax_ok a :
  a <> [] -> exists m, argmax a = Ok m /\ 0 <= m <= len a - 1.
Proof.
  destruct a as [|x rest]; [congruence|]. intros _.
  eexists. split; [reflexivity|].
  pose proof (argmax_from_bounds rest 1 0 x ltac:(lia)).
  unfold len in *. simpl length. lia.
Qed.

Lemma argmin_ok a :
  a <> [] -> exists m, argmin a = Ok m /\ 0 <= m <= len a - 1.
Proof.
  destruct a as [|x rest]; [congruence|]. intros _.
  eexists. split; [reflexivity|].
  pose proof (argmin_from_bounds rest 1 0 x ltac:(lia)).
  unfold len in *. simpl length. lia.
Qed.

Lemma extrema_or_global_ascending comparator signal order global :
  0 <= global <= len signal - 1 ->
  ascending_within
    (extrema_or_global (argrelextrema comparator signal order) global)
    (len signal)
  /\ extrema_or_global (argrelextrema comparator signal order) global <> [].
Proof.
  intros Hg. unfold extrema_or_global.
  destruct (Z_lt_le_dec order 1) as [Hlow|Hhigh].
  - rewrite (argrelextrema_raises _ _ _ Hlow).
    split; [now apply singleton_ascending|discriminate].
  - destruct (argrelextrema_ok comparator signal order Hhigh)
      as [found [-> Hfound]].
    destruct found as [|i rest].
    + split; [now apply singleton_ascending|discriminate].
    + split; [exact Hfound|discriminate].
Qed.

(** ** Indexing succeeds on index arrays of the signal *)

Lemma getitem_in_range {A : Type} (a : list A) i :
  0 <= i <= len a - 1 -> exists x, getitem a i = Ok x.
Proof.
  intros Hi. unfold getitem.
  destruct (i <? 0) eqn:E; [lia|].
  destruct ((i <? 0) || (len a <=? i)) eqn:E2.
  { apply orb_true_iff in E2. destruct E2; lia. }
  destruct (nth_error a (Z.to_nat i)) as [x|] eqn:E3; [now exists x|].
  apply nth_error_None in E3. unfold len in Hi. lia.
Qed.

Lemma getitem_last {A : Type} (a : list A) :
  a <> [] -> exists x, getitem a (-1) = Ok x.
Proof.
  intros Ha. unfold getitem. cbn [Z.ltb Z.compare].
  assert (Hlen : 1 <= len a).
  { destruct a; [congruence|]. unfold len. simpl length. lia. }
  destruct ((-1 + len a <? 0) || (len a <=? -1 + len a)) eqn:E.
  { apply orb_true_iff in E. destruct E; lia. }
  destruct (nth_error a (Z.to_nat (-1 + len a))) as [x|] eqn:E3;
    [now exists x|].
  apply nth_error_None in E3. unfold len in *. lia.
Qed.

Lemma take_ok a indices :
  Forall (fun i => 0 <= i <= len a - 1) indices ->
  exists values, take a indices = Ok values
                 /\ length values = length indices.
Proof.
  induction 1 as [|i rest Hi _ IH]; cbn [take].
  - now exists [].
  - destruct (getitem_in_range a i Hi) as [x ->].
    destruct IH as [values [-> Hlen]]. cbn [bind].
    exists (x :: values). simpl. now rewrite Hlen.
Qed.

Lemma anchored_y_ok extrema a :
  extrema <> [] ->
  Forall (fun i => 0 <= i <= len a - 1) extrema ->
  exists y, anchored_y extrema a = Ok y
            /\ length y = (length extrema + 2)%nat.
Proof.
  intros Hne Hall. unfold anchored_y.
  destruct (take_ok a extrema Hall) as [values [-> Hlen]]. cbn [bind].
  assert (Hv : values <> []).
  { destruct values; [|discriminate].
    destruct extrema; [congruence|discriminate]. }
  destruct (getitem_in_range values 0) as [first ->].
  { destruct values; [congruence|]. unfold len. simpl length. lia. }
  destruct (getitem_last values Hv) as [last ->]. cbn [bind].
  eexists. split; [reflexivity|].
  simpl. rewrite length_app, Hlen. simpl. lia.
Qed.

(** ** One run of find_extrema_and_prominence *)

Section FindExtremaProofs.

Variable UnivariateSpline : ndarray -> ndarray -> Z * Z -> Z -> spline.

(** A fitted spline, called on an array, returns an array of that shape. *)
Hypothesis spline_shape :
  forall x y bbox k arg, length (UnivariateSpline x y bbox k arg) = length arg.

Lemma fit_envelope_shape fallback intpx intpy signal arg :
  length (fit_envelope UnivariateSpline fallback intpx intpy signal arg)
  = length arg.
Proof.
  unfold fit_envelope.
  destruct ((if len intpy <=? 3 then len intpy - 1 else 3) <? 1).
  - unfold constant_spline. apply length_map.
  - apply spline_shape.
Qed.

Lemma broadcast_same_shape {A B C : Type} (f : A -> B -> C) a b :
  length a = length b -> broadcast f a b = Ok (zip_with f a b).
Proof.
  intros H. unfold broadcast. now rewrite H, Nat.eqb_refl.
Qed.

Lemma find_extrema_and_prominence_run signal order :
  signal <> [] ->
  exists global_max global_min maximaintpy minimaintpy,
    let maxima := extrema_or_global (relative_maxima signal order) global_max in
    let minima := extrema_or_global (relative_minima signal order) global_min in
    let max_spline :=
      fit_envelope UnivariateSpline PInf (anchored_x maxima signal)
        maximaintpy signal in
    let min_spline :=
      fit_envelope UnivariateSpline NInf (anchored_x minima signal)
        minimaintpy signal in
    let xpts := linspace0 (length signal) in
    argmax signal = Ok global_max
    /\ argmin signal = Ok global_min
    /\ anchored_y maxima signal = Ok maximaintpy
    /\ anchored_y minima signal = Ok minimaintpy
    /\ find_extrema_and_prominence UnivariateSpline signal order
       = Ok {| maxima := maxima; minima := minima; signal := signal;
               order := order; max_spline := max_spline;
               min_spline := min_spline; xpts := xpts;
               max_spline_points := max_spline xpts;
               min_spline_points := min_spline xpts;
               prominence := zip_with sub (max_spline xpts)
                                      (min_spline xpts) |}.
Proof.
  intros Hne.
  destruct (argmax_ok signal Hne) as [gmax [Hgmax Hgmax_in]].
  destruct (argmin_ok signal Hne) as [gmin [Hgmin Hgmin_in]].
  destruct (extrema_or_global_ascending gtb signal order gmax Hgmax_in)
    as [[_ [_ Hmax_in]] Hmax_ne].
  destruct (extrema_or_global_ascending ltb signal order gmin Hgmin_in)
    as [[_ [_ Hmin_in]] Hmin_ne].
  destruct (anchored_y_ok _ signal Hmax_ne Hmax_in) as [maxy [Hmaxy _]].
  destruct (anchored_y_ok _ signal Hmin_ne Hmin_in) as [miny [Hminy _]].
  exists gmax, gmin, maxy, miny. cbv zeta.
  repeat (split; [assumption|]).
  unfold find_extrema_and_prominence, relative_maxima, relative_minima in *.
  rewrite Hgmax, Hgmin. cbn [bind].
  rewrite !retry_extrema_run. cbn [bind].
  assert (Hmax : (if (length
                        match argrelextrema gtb signal order with
                        | Ok found => found
                        | Raise _ => [gmax]
                        end =? 0)%nat
                  then Ok [gmax]
                  else Ok match argrelextrema gtb signal order with
                          | Ok found => found
                          | Raise _ => [gmax]
                          end)
                 = Ok (extrema_or_global (argrelextrema gtb signal order) gmax)).
  { unfold extrema_or_global.
    destruct (argrelextrema gtb signal order) as [[|i rest]|e]; reflexivity. }
  assert (Hmin : (if (length
                        match argrelextrema ltb signal order with
                        | Ok found => found
                        | Raise _ => [gmin]
                        end =? 0)%nat
                  then Ok [gmin]
                  else Ok match argrelextrema ltb signal order with
                          | Ok found => found
                          | Raise _ => [gmin]
                          end)
                 = Ok (extrema_or_global (argrelextrema ltb signal order) gmin)).
  { unfold extrema_or_global.
    destruct (argrelextrema ltb signal order) as [[|i rest]|e]; reflexivity. }
  rewrite Hmax. cbn [bind]. rewrite Hmin. cbn [bind].
  rewrite Hmaxy. cbn [bind]. rewrite Hminy. cbn [bind].
  rewrite broadcast_same_shape by (now rewrite !fit_envelope_shape).
  reflexivity.
Qed.

End FindExtremaProofs.

(** ** Structure of the result *)

Lemma zip_with_nth {A B C : Type} (f : A -> B -> C) a b i da db dc :
  (i < length a)%nat -> (i < length b)%nat ->
  nth i (zip_with f a b) dc = f (nth i a da) (nth i b db).
Proof.
  revert b i. induction a as [|x a IH]; intros [|y b] [|i] Ha Hb;
    simpl in *; try lia; auto.
  apply IH; lia.
Qed.

Lemma linspace0_length n : length (linspace0 n) = n.
Proof. unfold linspace0. now rewrite length_map, arange_length. Qed.

Lemma interpolating_spline_shape x y bbox k arg :
  length (interpolating_spline x y bbox k arg) = length arg.
Proof. unfold interpolating_spline. apply length_map. Qed.

(** C1.  For a non-empty signal of length N and any order, the call returns
    a result whose two envelopes and prominence have length N, whose
    prominence is the difference of the envelopes at every position, and
    whose maxima and minima are strictly ascending, duplicate-free index
    arrays within [0, N - 1]. *)
Theorem find_extrema_and_prominence_structure
  (UnivariateSpline : ndarray -> ndarray -> Z * Z -> Z -> spline)
  (spline_shape : forall x y bbox k arg,
      length (UnivariateSpline x y bbox k arg) = length arg)
  (signal : ndarray) (order : Z) :
  signal <> [] ->
  exists r,
    find_extrema_and_prominence UnivariateSpline signal order = Ok r
    /\ length (max_spline_points r) = length signal
    /\ length (min_spline_points r) = length signal
    /\ length (prominence r) = length signal
    /\ (forall i, (i < length signal)%nat ->
          nth i (prominence r) NaN
          = sub (nth i (max_spline_points r) NaN)
                (nth i (min_spline_points r) NaN))
    /\ ascending_within (maxima r) (len signal)
    /\ ascending_within (minima r) (len signal).
Proof.
  intros Hne.
  destruct (find_extrema_and_prominence_run UnivariateSpline spline_shape
              signal order Hne)
    as (gmax & gmin & maxy & miny & Hgmax & Hgmin & _ & _ & Hrun).
  cbv zeta in Hrun. eexists. split; [exact Hrun|]. cbn.
  assert (Hmaxlen := fit_envelope_shape UnivariateSpline spline_shape).
  rewrite zip_with_length, !Hmaxlen, linspace0_length, Nat.min_id.
  repeat (split; [reflexivity|]).
  split.
  { intros i Hi.
    apply zip_with_nth; now rewrite Hmaxlen, linspace0_length. }
  destruct (argmax_ok signal Hne) as [m [Hm Hm_in]].
  destruct (argmin_ok signal Hne) as [m' [Hm' Hm'_in]].
  rewrite Hgmax in Hm. rewrite Hgmin in Hm'.
  injection Hm as <-. injection Hm' as <-.
  split.
  - now apply extrema_or_global_ascending.
  - now apply extrema_or_global_ascending.
Qed.

Lemma find_extrema_and_prominence_structure_witness :
  exists r,
    find_extrema_and_prominence interpolating_spline doctest_signal 2 = Ok r
    /\ length (max_spline_points r) = length doctest_signal
    /\ length (min_spline_points r) = length doctest_signal
    /\ length (prominence r) = length doctest_signal
    /\ (forall i, (i < length doctest_signal)%nat ->
          nth i (prominence r) NaN
          = sub (nth i (max_spline_points r) NaN)
                (nth i (min_spline_points r) NaN))
    /\ ascending_within (maxima r) (len doctest_signal)
    /\ ascending_within (minima r) (len doctest_signal).
Proof.
  apply (find_extrema_and_prominence_structure interpolating_spline
           interpolating_spline_shape doctest_signal 2).
  discriminate.
Defined.

(** ** Degenerate signals *)

Lemma fit_envelope_degenerate UnivariateSpline fallback intpx intpy signal arg :
  len intpy < 2 ->
  fit_envelope UnivariateSpline fallback intpx intpy signal arg
  = repeat fallback (length arg).
Proof.
  intros Hfew. unfold fit_envelope.
  destruct (len intpy <=? 3) eqn:E; [|lia].
  destruct (len intpy - 1 <? 1) eqn:E2; [|lia].
  unfold constant_spline. clear.
  induction arg as [|x arg IH]; simpl; [reflexivity|now rewrite IH].
Qed.

(** C3.  For a non-empty signal (of any length and shape) and any order
    the call returns a result and raises nothing: the maxima are the
    relative maxima when some are found and the index of the global maximum
    otherwise, likewise the minima, so that neither is empty; an envelope
    over fewer than two control points is infinite everywhere; and the
    abscissae, envelopes and prominence all have the length of the
    signal. *)
Theorem find_extrema_and_prominence_never_raises
  (UnivariateSpline : ndarray -> ndarray -> Z * Z -> Z -> spline)
  (spline_shape : forall x y bbox k arg,
      length (UnivariateSpline x y bbox k arg) = length arg)
  (signal : ndarray) (order : Z) :
  signal <> [] ->
  exists r global_max global_min,
    find_extrema_and_prominence UnivariateSpline signal order = Ok r
    /\ argmax signal = Ok global_max
    /\ argmin signal = Ok global_min
    /\ maxima r
       = extrema_or_global (relative_maxima signal order) global_max
    /\ minima r
       = extrema_or_global (relative_minima signal order) global_min
    /\ maxima r <> [] /\ minima r <> []
    /\ (forall intpx intpy arg,
          len intpy < 2 ->
          fit_envelope UnivariateSpline PInf intpx intpy signal arg
          = repeat PInf (length arg)
          /\ fit_envelope UnivariateSpline NInf intpx intpy signal arg
             = repeat NInf (length arg))
    /\ length (xpts r) = length signal
    /\ length (max_spline_points r) = length signal
    /\ length (min_spline_points r) = length signal
    /\ length (prominence r) = length signal.
Proof.
  intros Hne.
  destruct (find_extrema_and_prominence_run UnivariateSpline spline_shape
              signal order Hne)
    as (gmax & gmin & maxy & miny & Hgmax & Hgmin & _ & _ & Hrun).
  cbv zeta in Hrun. eexists. exists gmax, gmin.
  split; [exact Hrun|]. cbn.
  do 4 (split; [assumption || reflexivity|]).
  destruct (argmax_ok signal Hne) as [m [Hm Hm_in]].
  destruct (argmin_ok signal Hne) as [m' [Hm' Hm'_in]].
  rewrite Hgmax in Hm. rewrite Hgmin in Hm'.
  injection Hm as <-. injection Hm' as <-.
  split; [now apply extrema_or_global_ascending|].
  split; [now apply extrema_or_global_ascending|].
  split.
  { intros intpx intpy arg Hfew.
    split; now apply fit_envelope_degenerate. }
  assert (Hlen := fit_envelope_shape UnivariateSpline spline_shape).
  rewrite zip_with_length, !Hlen, linspace0_length, Nat.min_id.
  repeat split; reflexivity.
Qed.

Lemma find_extrema_and_prominence_never_raises_witness :
  exists r global_max global_min,
    find_extrema_and_prominence interpolating_spline
      [Fin 1; Fin 1; Fin 1] 5 = Ok r
    /\ argmax [Fin 1; Fin 1; Fin 1] = Ok global_max
    /\ argmin [Fin 1; Fin 1; Fin 1] = Ok global_min
    /\ maxima r
       = extrema_or_global (relative_maxima [Fin 1; Fin 1; Fin 1] 5) global_max
    /\ minima r
       = extrema_or_global (relative_minima [Fin 1; Fin 1; Fin 1] 5) global_min
    /\ maxima r <> [] /\ minima r <> []
    /\ (forall intpx intpy arg,
          len intpy < 2 ->
          fit_envelope interpolating_spline PInf intpx intpy
            [Fin 1; Fin 1; Fin 1] arg
          = repeat PInf (length arg)
          /\ fit_envelope interpolating_spline NInf intpx intpy
               [Fin 1; Fin 1; Fin 1] arg
             = repeat NInf (length arg))
    /\ length (xpts r) = 3%nat
    /\ length (max_spline_points r) = 3%nat
    /\ length (min_spline_points r) = 3%nat
    /\ length (prominence r) = 3%nat.
Proof.
  apply (find_extrema_and_prominence_never_raises interpolating_spline
           interpolating_spline_shape [Fin 1; Fin 1; Fin 1] 5).
  discriminate.
Defined.

(** ** The envelopes may cross *)

Lemma reduced_eq x : Float.eq x (reduced x).
Proof.
  destruct x; simpl; auto. symmetry. apply Qred_correct.
Qed.

(** C8.  On the signal of the doctest, with order 2, the maxima are [2, 8]
    and the minima [5, 10]; the envelopes through them cross, and the
    prominence is negative at positions 1, 2 and 3 (the values are those the
    doctest prints: -0.898..., -1.714..., -0.0375).  Position 2 is a
    maximum, so the filter [prominence > 0] of the detector drops it from
    the candidate split points. *)
Theorem prominence_can_be_negative :
  exists r,
    find_extrema_and_prominence interpolating_spline doctest_signal 2 = Ok r
    /\ maxima r = [2; 8]
    /\ minima r = [5; 10]
    /\ Forall2 Float.eq (prominence r)
         (map Fin [3; -503 # 560; -12 # 7; -3 # 80; 124 # 35; 135 # 16;
                   492 # 35; 317 # 16; 879 # 35; 16449 # 560; 32;
                   18147 # 560; 30]%Q)
    /\ map (fun p => ltb p (Fin 0)) (prominence r)
       = [false; true; true; true; false; false; false; false; false;
          false; false; false; false]
    /\ positions (maxima r) (prominence r) (len doctest_signal) = Ok [8; 13].
Proof.
  pose (run := find_extrema_and_prominence interpolating_spline
                 doctest_signal 2).
  assert (Hmaxima : observe maxima run = Some [2; 8])
    by (vm_compute; reflexivity).
  assert (Hminima : observe minima run = Some [5; 10])
    by (vm_compute; reflexivity).
  assert (Hprominence :
            observe (fun r => map reduced (prominence r)) run
            = Some (map Fin [3; -503 # 560; -12 # 7; -3 # 80; 124 # 35;
                             135 # 16; 492 # 35; 317 # 16; 879 # 35;
                             16449 # 560; 32; 18147 # 560; 30]%Q))
    by (vm_compute; reflexivity).
  assert (Hnegative :
            observe (fun r => map (fun p => ltb p (Fin 0)) (prominence r)) run
            = Some [false; true; true; true; false; false; false; false;
                    false; false; false; false; false])
    by (vm_compute; reflexivity).
  assert (Hpositions :
            observe (fun r => positions (maxima r) (prominence r)
                                (len doctest_signal)) run
            = Some (Ok [8; 13]))
    by (vm_compute; reflexivity).
  unfold run in *. clear run.
  destruct (find_extrema_and_prominence interpolating_spline doctest_signal 2)
    as [r|e]; [|discriminate].
  cbn [observe] in *. exists r.
  injection Hmaxima as Hmaxima. injection Hminima as Hminima.
  injection Hprominence as Hprominence. injection Hnegative as Hnegative.
  injection Hpositions as Hpositions.
  repeat (split; [reflexivity || assumption|]).
  split; [|split; assumption].
  cbn [map]. rewrite <- Hprominence. clear.
  induction (prominence r) as [|x rest IH]; simpl; constructor;
    [apply reduced_eq|exact IH].
Qed.

(** ** The segment classifier *)

Lemma getitem_nth {A : Type} (a : list A) i d :
  0 <= i <= len a - 1 -> getitem a i = Ok (nth (Z.to_nat i) a d).
Proof.
  intros Hi. unfold getitem.
  destruct (i <? 0) eqn:E; [lia|].
  destruct ((i <? 0) || (len a <=? i)) eqn:E2.
  { apply orb_true_iff in E2. destruct E2; lia. }
  destruct (nth_error a (Z.to_nat i)) as [x|] eqn:E3.
  - now rewrite (nth_error_nth _ _ d E3).
  - apply nth_error_None in E3. unfold len in Hi. lia.
Qed.

Lemma prominent_filter maxima prominence :
  Forall (fun i => 0 <= i <= len prominence - 1) maxima ->
  prominent maxima prominence
  = Ok (filter (fun p => gtb (nth (Z.to_nat p) prominence NaN) (Fin 0))
               maxima).
Proof.
  induction 1 as [|i rest Hi _ IH]; cbn [prominent filter]; [reflexivity|].
  rewrite (getitem_nth prominence i NaN Hi), IH. cbn [bind].
  now destruct (gtb (nth (Z.to_nat i) prominence NaN) (Fin 0)).
Qed.

Lemma positions_candidates maxima prominence profile_size :
  Forall (fun i => 0 <= i <= len prominence - 1) maxima ->
  positions maxima prominence profile_size
  = Ok (candidate_positions maxima prominence profile_size).
Proof.
  intros H. unfold positions, candidate_positions.
  now rewrite prominent_filter.
Qed.

Lemma is_a_cell_accepted tunable profile_of_binary_image prominence last_pos pos :
  is_a_cell tunable profile_of_binary_image prominence last_pos pos = true
  <-> accepted tunable profile_of_binary_image prominence last_pos pos.
Proof.
  unfold is_a_cell, accepted. rewrite !andb_true_iff, Z.ltb_lt.
  intuition lia.
Qed.

Lemma zip_In_nth {A B : Type} (a : list A) (b : list B) x y :
  In (x, y) (zip a b)
  <-> exists i, nth_error a i = Some x /\ nth_error b i = Some y.
Proof.
  unfold zip. revert b. induction a as [|x0 a IH]; intros [|y0 b]; simpl.
  - split; [intros []|]. intros [[|i] [H _]]; discriminate.
  - split; [intros []|]. intros [[|i] [H _]]; discriminate.
  - split; [intros []|]. intros [[|i] [_ H]]; discriminate.
  - split.
    + intros [H|H].
      * injection H as -> ->. now exists O.
      * apply IH in H. destruct H as [i Hi]. now exists (S i).
    + intros [[|i] [Hx Hy]]; simpl in *.
      * left. congruence.
      * right. apply IH. now exists i.
Qed.

Lemma cells_In tunable profile_of_binary_image prominence positions b e :
  In (b, e) (cells tunable profile_of_binary_image prominence positions)
  <-> exists i last_pos pos,
        nth_error (0 :: positions) i = Some last_pos
        /\ nth_error positions i = Some pos
        /\ accepted tunable profile_of_binary_image prominence last_pos pos
        /\ b = last_pos + 1 /\ e = pos - 1.
Proof.
  unfold cells. rewrite in_map_iff. split.
  - intros [[last_pos pos] [Heq Hin]]. apply filter_In in Hin.
    destruct Hin as [Hin Hok]. apply zip_In_nth in Hin.
    destruct Hin as [i [Hl Hp]]. apply is_a_cell_accepted in Hok.
    injection Heq as <- <-. now exists i, last_pos, pos.
  - intros (i & last_pos & pos & Hl & Hp & Hok & -> & ->).
    exists (last_pos, pos). split; [reflexivity|].
    apply filter_In. split.
    + apply zip_In_nth. now exists i.
    + now apply is_a_cell_accepted.
Qed.

Lemma cells_from_ascending tunable profile_of_binary_image prominence positions :
  forall previous,
    StronglySorted Z.lt positions ->
    Forall (fun p => previous <= p) positions ->
    ascending_segments
      (map (fun '(_last_pos, _pos) => (_last_pos + 1, _pos - 1))
         (filter (fun '(_last_pos, _pos) =>
                    is_a_cell tunable profile_of_binary_image prominence
                      _last_pos _pos)
                 (zip (previous :: positions) positions)))
    /\ Forall (fun c => previous + 1 <= fst c)
         (map (fun '(_last_pos, _pos) => (_last_pos + 1, _pos - 1))
            (filter (fun '(_last_pos, _pos) =>
                       is_a_cell tunable profile_of_binary_image prominence
                         _last_pos _pos)
                    (zip (previous :: positions) positions))).
Proof.
  unfold ascending_segments.
  induction positions as [|p rest IH]; intros previous Hsorted Hlow.
  - simpl. split; constructor.
  - inversion Hsorted as [|? ? Hrest Hall]; subst.
    inversion Hlow as [|? ? Hp _]; subst.
    destruct (IH p Hrest) as [IHs IHl].
    { apply Forall_forall. intros q Hq. rewrite Forall_forall in Hall.
      specialize (Hall q Hq). lia. }
    unfold zip in *. cbn [zip_with filter].
    destruct (is_a_cell _ _ _ previous p); cbn [map].
    + split.
      * constructor; [exact IHs|].
        eapply Forall_impl; [|exact IHl]. intros [c1 c2]. simpl. lia.
      * constructor; [simpl; lia|].
        eapply Forall_impl; [|exact IHl]. intros [c1 c2]. simpl. lia.
    + split; [exact IHs|].
      eapply Forall_impl; [|exact IHl]. intros [c1 c2]. simpl. lia.
Qed.

Lemma sorted_snoc l n :
  StronglySorted Z.lt l -> Forall (fun i => i < n) l ->
  StronglySorted Z.lt (l ++ [n]).
Proof.
  induction 1 as [|i rest Hs IH Hall]; intros Hlt; simpl.
  - repeat constructor.
  - inversion Hlt as [|? ? Hi Hrest]; subst.
    constructor; [now apply IH|].
    apply Forall_app. split; [exact Hall|]. now repeat constructor.
Qed.

Lemma candidate_positions_ascending maxima prominence n :
  0 <= n ->
  ascending_within maxima n ->
  StronglySorted Z.lt (candidate_positions maxima prominence n)
  /\ Forall (fun p => 0 <= p) (candidate_positions maxima prominence n).
Proof.
  intros Hn (Hs & _ & Hin). unfold candidate_positions.
  set (keep := fun p => gtb (nth (Z.to_nat p) prominence NaN) (Fin 0)).
  assert (Hin' : Forall (fun i => 0 <= i <= n - 1) (filter keep maxima)).
  { apply Forall_forall. intros i Hi. apply filter_In in Hi.
    rewrite Forall_forall in Hin. now apply Hin. }
  split.
  - apply sorted_snoc; [now apply filter_sorted|].
    eapply Forall_impl; [|exact Hin']. simpl. lia.
  - apply Forall_app. split; [|now repeat constructor].
    eapply Forall_impl; [|exact Hin']. simpl. lia.
Qed.

Lemma amax_ok a : a <> [] -> exists x, amax a = Ok x.
Proof. destruct a; [congruence|]. intros _. eexists. reflexivity. Qed.

Lemma amin_ok a : a <> [] -> exists x, amin a = Ok x.
Proof. destruct a; [congruence|]. intros _. eexists. reflexivity. Qed.

(** C2.  With the empty-channel shortcut off, the detector returns exactly
    the accepted segments between consecutive candidate split points (the
    maxima of strictly positive prominence, then the end of the profile,
    after an implicit leading 0): a pair [(b, e)] is returned if and only if
    it is [(last_pos + 1, pos - 1)] for two consecutive points with
    [pos - last_pos > 2], mean binarized profile below the maximum
    brightness and mean prominence above the minimum prominence; and the
    pairs come in ascending order. *)
Theorem find_cells_in_channel_segments
  (tunable : Tunables)
  (UnivariateSpline : ndarray -> ndarray -> Z * Z -> Z -> spline)
  (spline_shape : forall x y bbox k arg,
      length (UnivariateSpline x y bbox k arg) = length arg)
  (thresholded_profile profile_of_binary_image profile : ndarray) :
  profile <> [] ->
  thresholded_profile <> [] ->
  cells_empty_channel_skipping tunable = false ->
  exists extrema found,
    find_extrema_and_prominence UnivariateSpline profile
      (cells_extrema_order tunable) = Ok extrema
    /\ find_cells_in_channel tunable UnivariateSpline thresholded_profile
         profile_of_binary_image profile = Ok found
    /\ (forall b e,
          In (b, e) found
          <-> exists i last_pos pos,
                nth_error
                  (0 :: candidate_positions (maxima extrema)
                          (prominence extrema) (len profile)) i
                = Some last_pos
                /\ nth_error
                     (candidate_positions (maxima extrema)
                        (prominence extrema) (len profile)) i
                   = Some pos
                /\ accepted tunable profile_of_binary_image
                     (prominence extrema) last_pos pos
                /\ b = last_pos + 1 /\ e = pos - 1)
    /\ ascending_segments found.
Proof.
  intros Hne Hthr Hoff.
  destruct (find_extrema_and_prominence_run UnivariateSpline spline_shape
              profile (cells_extrema_order tunable) Hne)
    as (gmax & gmin & maxy & miny & Hgmax & Hgmin & _ & _ & Hrun).
  cbv zeta in Hrun.
  destruct (argmax_ok profile Hne) as [m [Hm Hm_in]].
  rewrite Hgmax in Hm. injection Hm as <-.
  destruct (extrema_or_global_ascending gtb profile
              (cells_extrema_order tunable) gmax Hm_in) as [Hasc _].
  fold (relative_maxima profile (cells_extrema_order tunable)) in Hasc.
  set (extrema := {| maxima := _ |}) in Hrun.
  assert (Hlen : length (prominence extrema) = length profile).
  { subst extrema. cbn [prominence].
    rewrite zip_with_length,
      !(fit_envelope_shape UnivariateSpline spline_shape),
      linspace0_length.
    apply Nat.min_id. }
  assert (Hmaxima : ascending_within (maxima extrema) (len profile))
    by exact Hasc.
  assert (Hpos : positions (maxima extrema) (prominence extrema) (len profile)
                 = Ok (candidate_positions (maxima extrema)
                         (prominence extrema) (len profile))).
  { apply positions_candidates. destruct Hmaxima as (_ & _ & Hin).
    unfold len in *. now rewrite Hlen. }
  exists extrema.
  exists (cells tunable profile_of_binary_image (prominence extrema)
            (candidate_positions (maxima extrema) (prominence extrema)
               (len profile))).
  split; [exact Hrun|]. split.
  { unfold find_cells_in_channel.
    destruct (amax_ok _ Hthr) as [hi ->]. destruct (amin_ok _ Hthr) as [lo ->].
    cbn [bind]. rewrite Hoff, andb_false_r, Hrun. cbn [bind].
    rewrite Hpos. reflexivity. }
  split.
  { intros b e. apply cells_In. }
  destruct (candidate_positions_ascending (maxima extrema)
              (prominence extrema) (len profile) (len_nonneg profile) Hmaxima)
    as [Hsorted Hlow].
  exact (proj1 (cells_from_ascending tunable profile_of_binary_image
                  (prominence extrema) _ 0 Hsorted Hlow)).
Qed.

Lemma find_cells_in_channel_segments_witness :
  exists extrema found,
    find_extrema_and_prominence interpolating_spline doctest_signal
      (cells_extrema_order doctest_tunables) = Ok extrema
    /\ find_cells_in_channel doctest_tunables interpolating_spline
         doctest_signal (repeat (Fin 0) 13) doctest_signal = Ok found
    /\ (forall b e,
          In (b, e) found
          <-> exists i last_pos pos,
                nth_error
                  (0 :: candidate_positions (maxima extrema)
                          (prominence extrema) (len doctest_signal)) i
                = Some last_pos
                /\ nth_error
                     (candidate_positions (maxima extrema)
                        (prominence extrema) (len doctest_signal)) i
                   = Some pos
                /\ accepted doctest_tunables (repeat (Fin 0) 13)
                     (prominence extrema) last_pos pos
                /\ b = last_pos + 1 /\ e = pos - 1)
    /\ ascending_segments found.
Proof.
  apply (find_cells_in_channel_segments doctest_tunables interpolating_spline
           interpolating_spline_shape doctest_signal (repeat (Fin 0) 13)
           doctest_signal).
  - discriminate.
  - discriminate.
  - reflexivity.
Defined.

(** On the doctest signal the candidates are 8 and 13; the segment (0, 8)
    has mean prominence below 10 and is refused, the segment (8, 13) is
    returned trimmed. *)
Example find_cells_in_channel_doctest_signal :
  find_cells_in_channel doctest_tunables interpolating_spline
    doctest_signal (repeat (Fin 0) 13) doctest_signal = Ok [(9, 12)].
Proof. vm_compute. reflexivity. Qed.

(** ** find_insides and a run that starts at index 0 *)

(** The accumulator only grows at its end. *)
Lemma find_insides_loop_acc signal : forall n last_true pairs,
  find_insides_loop signal n last_true pairs
  = (fst (find_insides_loop signal n last_true []),
     pairs ++ snd (find_insides_loop signal n last_true [])).
Proof.
  induction signal as [|i rest IH]; intros n last_true pairs;
    cbn [find_insides_loop].
  - simpl. now rewrite app_nil_r.
  - destruct (i && negb (truthy last_true)); [apply IH|].
    destruct (negb i && truthy last_true); [|apply IH].
    rewrite IH. rewrite (IH (n + 1) None ([] ++ _)). cbn [fst snd].
    now rewrite app_assoc.
Qed.

Lemma find_insides_loop_app a b : forall n last_true pairs,
  find_insides_loop (a ++ b) n last_true pairs
  = let '(last_true', pairs') := find_insides_loop a n last_true pairs in
    find_insides_loop b (n + len a) last_true' pairs'.
Proof.
  induction a as [|i a IH]; intros n last_true pairs.
  - cbn. unfold len. simpl. now rewrite Z.add_0_r.
  - cbn [app find_insides_loop].
    replace (n + len (i :: a)) with (n + 1 + len a)
      by (unfold len; simpl length; lia).
    destruct (i && negb (truthy last_true)); [apply IH|].
    destruct (negb i && truthy last_true); apply IH.
Qed.

(** Every start the loop reports is a truthy [last_true], hence not 0. *)
Lemma find_insides_loop_starts signal : forall n last_true,
  0 <= n ->
  (forall m, last_true = Some m -> 0 <= m) ->
  (forall m, fst (find_insides_loop signal n last_true []) = Some m -> 0 <= m)
  /\ Forall (fun p => 1 <= fst p)
            (snd (find_insides_loop signal n last_true [])).
Proof.
  induction signal as [|i rest IH]; intros n last_true Hn Hlast;
    cbn [find_insides_loop].
  - split; [exact Hlast|constructor].
  - destruct (i && negb (truthy last_true)).
    { apply IH; [lia|]. intros m Hm. injection Hm as <-. exact Hn. }
    destruct (negb i && truthy last_true) eqn:E.
    + rewrite find_insides_loop_acc. cbn [fst snd].
      destruct (IH (n + 1) None) as [IH1 IH2]; [lia|discriminate|].
      split; [exact IH1|].
      constructor; [|exact IH2].
      apply andb_true_iff in E. destruct E as [_ E].
      destruct last_true as [m|]; [|discriminate].
      specialize (Hlast m eq_refl). simpl in *.
      apply negb_true_iff, Z.eqb_neq in E. lia.
    + apply IH; [lia|exact Hlast].
Qed.

Lemma find_insides_starts signal p :
  In p (find_insides signal) -> 1 <= fst p.
Proof.
  unfold find_insides.
  destruct (find_insides_loop_starts signal 0 None) as [Hlast Hpairs];
    [lia|discriminate|].
  destruct (find_insides_loop signal 0 None []) as [last_true pairs].
  cbn [fst snd] in *. rewrite Forall_forall in Hpairs.
  destruct (truthy last_true) eqn:E; [|apply Hpairs].
  intros Hin. apply in_app_or in Hin. destruct Hin as [Hin|[<-|[]]];
    [now apply Hpairs|].
  destruct last_true as [m|]; [|discriminate].
  specialize (Hlast m eq_refl). simpl in *.
  apply negb_true_iff, Z.eqb_neq in E. lia.
Qed.

(** A run of true samples leaves an open run as it is, and opens one
    otherwise: at its first sample, or at its second when the first sample
    has index 0. *)
Lemma find_insides_loop_run_open k : forall n last_true,
  truthy last_true = true ->
  find_insides_loop (repeat true k) n last_true [] = (last_true, []).
Proof.
  induction k as [|k IH]; intros n last_true Hopen; [reflexivity|].
  cbn [repeat find_insides_loop]. rewrite Hopen. cbn. now apply IH.
Qed.

Lemma find_insides_loop_run_at_zero k :
  find_insides_loop (repeat true (S (S k))) 0 None [] = (Some 1, []).
Proof.
  cbn [repeat find_insides_loop truthy negb andb].
  now apply find_insides_loop_run_open.
Qed.

Lemma repeat_true_len k : len (repeat true k) = Z.of_nat k.
Proof. unfold len. now rewrite repeat_length. Qed.

(** C7, as stated, fails: a run of two samples starting at index 0 and
    ending before the signal does is reported, from index 1 on. *)
Lemma run_at_zero_reported :
  find_insides [true; true; false] = [(1, 2)]
  /\ ~ run_at_zero_unreported [true; true; false].
Proof.
  split; [reflexivity|].
  intros H. specialize (H (1, 2) (or_introl eq_refl)). simpl in H. lia.
Qed.

(** C7, amended.  No pair that starts at index 0 is ever returned.  A run
    made of the sample at index 0 alone is not reported at all, whether the
    signal ends there or goes on.  A longer run starting at index 0 is
    reported from index 1: as [(1, k)] when its [k] samples are followed by
    a false one, and as [(1, len - 1)] when it lasts to the end. *)
Theorem find_insides_run_at_zero (k : nat) (rest : list bool) :
  (2 <= k)%nat ->
  (forall signal p, In p (find_insides signal) -> fst p <> 0)
  /\ find_insides [true] = []
  /\ run_at_zero_unreported (true :: false :: rest)
  /\ find_insides (repeat true k) = [(1, Z.of_nat k - 1)]
  /\ exists later,
       find_insides (repeat true k ++ false :: rest)
       = (1, Z.of_nat k) :: later.
Proof.
  intros Hk. split.
  { intros signal p Hin. apply find_insides_starts in Hin. lia. }
  split; [reflexivity|].
  split.
  { intros p Hin. apply find_insides_starts in Hin. simpl. lia. }
  destruct k as [|[|k]]; try lia. split.
  - unfold find_insides. rewrite find_insides_loop_run_at_zero.
    cbn [truthy Z.eqb negb pair_from app]. now rewrite repeat_true_len.
  - unfold find_insides.
    rewrite find_insides_loop_app, find_insides_loop_run_at_zero.
    cbn [find_insides_loop truthy Z.eqb negb andb pair_from app].
    rewrite find_insides_loop_acc, repeat_true_len, Z.add_0_l.
    destruct (find_insides_loop rest _ None []) as [last_true pairs].
    cbn [fst snd app].
    destruct (truthy last_true); eexists; reflexivity.
Qed.

Lemma find_insides_run_at_zero_witness :
  (forall signal p, In p (find_insides signal) -> fst p <> 0)
  /\ find_insides [true] = []
  /\ run_at_zero_unreported [true; false; true; true]
  /\ find_insides [true; true; true] = [(1, 2)]
  /\ exists later,
       find_insides [true; true; true; false; true; true] = (1, 3) :: later.
Proof.
  apply (find_insides_run_at_zero 3 [true; true]). repeat constructor.
Defined.

(** ** normalize *)

Lemma Qltb_lt a b : Qltb a b = true <-> (a < b)%Q.
Proof.
  unfold Qltb. rewrite negb_true_iff. split.
  - intros H. apply Qnot_le_lt. intros Hle.
    apply Qle_bool_iff in Hle. congruence.
  - intros H. destruct (Qle_bool b a) eqn:E; [|reflexivity].
    apply Qle_bool_iff in E. Lqa.lra.
Qed.

Lemma Qltb_ge a b : Qltb a b = false <-> (b <= a)%Q.
Proof.
  unfold Qltb. rewrite negb_false_iff. apply Qle_bool_iff.
Qed.

Lemma finite_array_map data :
  finite_array data -> data = map Fin (map finite_part data).
Proof.
  induction 1 as [|x data Hx _ IH]; simpl; [reflexivity|].
  rewrite <- IH. destruct x; try discriminate. reflexivity.
Qed.

(** The minimum and the maximum of a finite array are values of the array
    that bound it. *)
Lemma fold_fmin2_finite qs : forall q,
  exists m, fold_left fmin2 (map Fin qs) (Fin q) = Fin m
            /\ In m (q :: qs)
            /\ forall x, In x (q :: qs) -> (m <= x)%Q.
Proof.
  induction qs as [|a qs IH]; intros q; cbn [map fold_left].
  - exists q. split; [reflexivity|]. split; [now left|].
    intros x [<-|[]]. Lqa.lra.
  - unfold fmin2 at 2. cbn [is_nan orb ltb].
    destruct (Qltb a q) eqn:E.
    + apply Qltb_lt in E. destruct (IH a) as (m & Hm & Hin & Hlow).
      exists m. split; [exact Hm|]. split.
      * destruct Hin as [<-|Hin]; [right; now left|right; now right].
      * intros x [<-|[<-|Hx]].
        -- specialize (Hlow a (or_introl eq_refl)). Lqa.lra.
        -- apply Hlow. now left.
        -- apply Hlow. now right.
    + apply Qltb_ge in E. destruct (IH q) as (m & Hm & Hin & Hlow).
      exists m. split; [exact Hm|]. split.
      * destruct Hin as [<-|Hin]; [now left|right; now right].
      * intros x [<-|[<-|Hx]].
        -- apply Hlow. now left.
        -- specialize (Hlow q (or_introl eq_refl)). Lqa.lra.
        -- apply Hlow. now right.
Qed.

Lemma fold_fmax2_finite qs : forall q,
  exists m, fold_left fmax2 (map Fin qs) (Fin q) = Fin m
            /\ In m (q :: qs)
            /\ forall x, In x (q :: qs) -> (x <= m)%Q.
Proof.
  induction qs as [|a qs IH]; intros q; cbn [map fold_left].
  - exists q. split; [reflexivity|]. split; [now left|].
    intros x [<-|[]]. Lqa.lra.
  - unfold fmax2 at 2. cbn [is_nan orb ltb].
    destruct (Qltb q a) eqn:E.
    + apply Qltb_lt in E. destruct (IH a) as (m & Hm & Hin & Hup).
      exists m. split; [exact Hm|]. split.
      * destruct Hin as [<-|Hin]; [right; now left|right; now right].
      * intros x [<-|[<-|Hx]].
        -- specialize (Hup a (or_introl eq_refl)). Lqa.lra.
        -- apply Hup. now left.
        -- apply Hup. now right.
    + apply Qltb_ge in E. destruct (IH q) as (m & Hm & Hin & Hup).
      exists m. split; [exact Hm|]. split.
      * destruct Hin as [<-|Hin]; [now left|right; now right].
      * intros x [<-|[<-|Hx]].
        -- apply Hup. now left.
        -- specialize (Hup q (or_introl eq_refl)). Lqa.lra.
        -- apply Hup. now right.
Qed.

Lemma amin_finite qs :
  qs <> [] ->
  exists m, amin (map Fin qs) = Ok (Fin m)
            /\ In m qs /\ forall x, In x qs -> (m <= x)%Q.
Proof.
  destruct qs as [|q qs]; [congruence|]. intros _. cbn [map amin].
  destruct (fold_fmin2_finite qs q) as (m & -> & H). now exists m.
Qed.

Lemma amax_finite qs :
  qs <> [] ->
  exists m, amax (map Fin qs) = Ok (Fin m)
            /\ In m qs /\ forall x, In x qs -> (x <= m)%Q.
Proof.
  destruct qs as [|q qs]; [congruence|]. intros _. cbn [map amax].
  destruct (fold_fmax2_finite qs q) as (m & -> & H). now exists m.
Qed.

(** One run of [normalize] on a finite array: the lowest value is
    subtracted, and every difference is divided by the highest one. *)
Lemma normalize_finite qs :
  qs <> [] ->
  exists lowest highest,
    (In lowest qs /\ forall x, In x qs -> (lowest <= x)%Q)
    /\ (In highest (map (fun q => (q + - lowest)%Q) qs)
        /\ forall x, In x qs -> (x + - lowest <= highest)%Q)
    /\ amin (map Fin qs) = Ok (Fin lowest)
    /\ amax (map (fun x => sub x (Fin lowest)) (map Fin qs)) = Ok (Fin highest)
    /\ normalize (map Fin qs)
       = Ok (map (fun q => div (Fin (q + - lowest)) (Fin highest)) qs).
Proof.
  intros Hne.
  destruct (amin_finite qs Hne) as (lowest & Hmin & Hin & Hlow).
  assert (Hsub : map (fun x => sub x (Fin lowest)) (map Fin qs)
                 = map Fin (map (fun q => (q + - lowest)%Q) qs)).
  { rewrite !map_map. reflexivity. }
  destruct (amax_finite (map (fun q => (q + - lowest)%Q) qs))
    as (highest & Hmax & Hin' & Hup).
  { destruct qs; [congruence|discriminate]. }
  exists lowest, highest.
  split; [now split|]. split.
  { split; [exact Hin'|]. intros x Hx. apply Hup.
    apply in_map_iff. now exists x. }
  split; [exact Hmin|]. split; [now rewrite Hsub|].
  unfold normalize. rewrite Hmin. cbn [bind]. rewrite Hsub, Hmax.
  cbn [bind]. now rewrite !map_map.
Qed.

Lemma constant_array_values data c :
  Forall (fun x => Float.eq x (Fin c)) data ->
  data = map Fin (map finite_part data)
  /\ forall q, In q (map finite_part data) -> (q == c)%Q.
Proof.
  induction 1 as [|x data Hx _ [IH1 IH2]]; simpl.
  - split; [reflexivity|]. intros q [].
  - destruct x as [a| | |]; try contradiction. simpl in *.
    split; [now rewrite <- IH1|].
    intros q [<-|Hq]; [exact Hx|now apply IH2].
Qed.

Lemma constant_quotients lowest highest c qs :
  (lowest == c)%Q -> (highest == 0)%Q ->
  (forall q, In q qs -> (q == c)%Q) ->
  map (fun q => div (Fin (q + - lowest)) (Fin highest)) qs
  = repeat NaN (length qs).
Proof.
  intros Hlow Hhigh. induction qs as [|q qs IH]; intros Hall;
    cbn [map length repeat]; [reflexivity|].
  rewrite IH by (intros; apply Hall; now right). f_equal.
  assert (Hq : (q + - lowest == 0)%Q).
  { specialize (Hall q (or_introl eq_refl)). Lqa.lra. }
  apply Qeq_bool_iff in Hq. cbn [div].
  apply Qeq_bool_iff in Hhigh. now rewrite Hhigh, Hq.
Qed.

(** C9.  On a constant (non-empty) array the divisor, the maximum after the
    minimum was subtracted, is zero; the division goes ahead all the same,
    nothing is raised, and every value of the array returned is NaN. *)
Theorem normalize_constant (data : ndarray) :
  constant_array data ->
  exists lowest highest,
    amin data = Ok lowest
    /\ amax (map (fun x => sub x lowest) data) = Ok highest
    /\ Float.eq highest (Fin 0)
    /\ normalize data = Ok (repeat NaN (length data))
    /\ Forall (fun x => is_finite x = false) (repeat NaN (length data)).
Proof.
  intros [Hne [c Hall]].
  destruct (constant_array_values data c Hall) as [Hdata Hc].
  remember (map finite_part data) as qs eqn:Hqs_def. clear Hqs_def Hall.
  subst data.
  assert (Hqs : qs <> []) by (intros E; apply Hne; now rewrite E).
  destruct (normalize_finite qs Hqs)
    as (lowest & highest & [Hlow_in _] & [Hhigh_in _] & Hmin & Hmax & Hrun).
  assert (Hlow : (lowest == c)%Q) by now apply Hc.
  assert (Hhigh : (highest == 0)%Q).
  { apply in_map_iff in Hhigh_in. destruct Hhigh_in as [q [<- Hq]].
    apply Hc in Hq. Lqa.lra. }
  exists (Fin lowest), (Fin highest).
  split; [exact Hmin|]. split; [exact Hmax|]. split; [exact Hhigh|].
  rewrite length_map. split.
  - rewrite Hrun. f_equal. now apply (constant_quotients lowest highest c).
  - clear. induction (length qs); cbn [repeat]; constructor; auto.
Qed.

Lemma normalize_constant_witness :
  exists lowest highest,
    amin [Fin 7; Fin 7; Fin 7] = Ok lowest
    /\ amax (map (fun x => sub x lowest) [Fin 7; Fin 7; Fin 7]) = Ok highest
    /\ Float.eq highest (Fin 0)
    /\ normalize [Fin 7; Fin 7; Fin 7] = Ok [NaN; NaN; NaN]
    /\ Forall (fun x => is_finite x = false) [NaN; NaN; NaN].
Proof.
  apply (normalize_constant [Fin 7; Fin 7; Fin 7]).
  split; [discriminate|].
  exists 7%Q. repeat constructor.
Defined.

(** The doctest of [normalize]. *)
Example normalize_doctest :
  exists once,
    normalize [Fin 10; Fin 15; Fin 20] = Ok once
    /\ Forall2 Float.eq once [Fin 0; Fin (1 # 2); Fin 1].
Proof.
  eexists. split; [reflexivity|]. repeat constructor.
Qed.

(** ** threshold_outliers: the store *)

Module OutliersProofs.

Import Outliers.
Local Open Scope R_scope.

Lemma nth_error_snoc {A : Type} (h : list A) (a : A) :
  nth_error (h ++ [a]) (length h) = Some a.
Proof.
  rewrite nth_error_app2 by apply Nat.le_refl.
  now rewrite Nat.sub_diag.
Qed.

Lemma update_snoc (h : store) (a b : array) :
  update (h ++ [a]) (length h) b = h ++ [b].
Proof. induction h as [|c h IH]; simpl; [reflexivity|now rewrite IH]. Qed.

Lemma nth_error_kept {A : Type} (h : list A) (b c : A) r :
  nth_error h r = Some b -> nth_error (h ++ [c]) r = Some b.
Proof.
  intros H. rewrite nth_error_app1; [exact H|].
  apply nth_error_Some. congruence.
Qed.

(** One run: the copy is allocated at the end of the store, and the two
    assignments go into it. *)
Lemma threshold_outliers_run (h : store) (data : ref) (a : array)
  (times_std : R) :
  nth_error h data = Some a ->
  threshold_outliers data times_std h
  = Some (length h, h ++ [clamped a times_std]).
Proof.
  intros Hdata.
  unfold threshold_outliers, copy, numpy_median, numpy_std, above_mask,
    below_mask, setitem_mask, mbind, read, write, alloc, ret.
  rewrite Hdata. rewrite !nth_error_snoc. rewrite update_snoc.
  rewrite !nth_error_snoc. rewrite update_snoc. reflexivity.
Qed.

Lemma assign_masked_size a mask value :
  length mask = size a -> size (assign_masked a mask value) = size a.
Proof.
  intros H. destruct a as [l|l]; simpl in *;
    rewrite zip_with_length, H; apply Nat.min_id.
Qed.

Lemma assign_masked_dtype a mask value :
  dtype_of (assign_masked a mask value) = dtype_of a.
Proof. now destruct a. Qed.

Lemma values_length a : length (values a) = size a.
Proof. destruct a; simpl; [apply length_map|reflexivity]. Qed.

Lemma clamped_size a times_std : size (clamped a times_std) = size a.
Proof.
  unfold clamped.
  rewrite assign_masked_size; rewrite ?length_map, ?values_length;
    rewrite assign_masked_size; rewrite ?length_map, ?values_length;
    reflexivity.
Qed.

Lemma clamped_dtype a times_std : dtype_of (clamped a times_std) = dtype_of a.
Proof. unfold clamped. now rewrite !assign_masked_dtype. Qed.

Lemma assign_masked_values a mask value :
  values (assign_masked a mask value)
  = zip_with (fun (m : bool) x => if m then stored (dtype_of a) value else x)
             mask (values a).
Proof.
  destruct a as [l|l]; cbn [assign_masked values dtype_of stored];
    [|reflexivity].
  revert mask. induction l as [|z l IH]; intros [|m mask]; simpl;
    try reflexivity.
  rewrite IH. now destruct m.
Qed.

Lemma zip_with_map_l {A B C : Type} (f : B -> A -> C) (p : A -> B) l :
  zip_with f (map p l) l = map (fun x => f (p x) x) l.
Proof. induction l as [|x l IH]; simpl; [reflexivity|now rewrite IH]. Qed.

(** The values of the copy after the two assignments, from the values of
    the argument: the second mask is computed on what the first assignment
    left. *)
Lemma clamped_values a times_std :
  let median := median_of (values a) in
  let bound := times_std * std_of (values a) in
  let d := dtype_of a in
  values (clamped a times_std)
  = map (fun x =>
           let y := if Rgtb (x - median) bound
                    then stored d (median + bound) else x in
           if Rltb (y - median) 0 && Rgtb (Rabs (y - median)) bound
           then stored d (median - bound) else y)
        (values a).
Proof.
  cbv zeta. unfold clamped.
  rewrite assign_masked_values, zip_with_map_l, assign_masked_dtype.
  rewrite assign_masked_values, zip_with_map_l, map_map. reflexivity.
Qed.

(** C10.  The call leaves every array of the store as it was, the argument
    among them, and returns a reference that did not exist before, to an
    array of the length and dtype of the argument; each of its values is the
    value of the argument at that position or one of the two clamp bounds
    as an assignment into that dtype stores it (truncated for int64). *)
Theorem threshold_outliers_frame (h : store) (data : ref) (a : array)
  (times_std : R) :
  nth_error h data = Some a ->
  exists out h' a',
    threshold_outliers data times_std h = Some (out, h')
    /\ nth_error h out = None
    /\ out <> data
    /\ (forall r b, nth_error h r = Some b -> nth_error h' r = Some b)
    /\ nth_error h' data = Some a
    /\ nth_error h' out = Some a'
    /\ size a' = size a
    /\ dtype_of a' = dtype_of a
    /\ (forall i y,
          nth_error (values a') i = Some y ->
          nth_error (values a) i = Some y
          \/ y = stored (dtype_of a)
                   (median_of (values a) + times_std * std_of (values a))
          \/ y = stored (dtype_of a)
                   (median_of (values a) - times_std * std_of (values a))).
Proof.
  intros Hdata.
  exists (length h), (h ++ [clamped a times_std]), (clamped a times_std).
  split; [now apply threshold_outliers_run|].
  split; [apply nth_error_None; apply Nat.le_refl|].
  split.
  { intros E. rewrite <- E in Hdata.
    assert (Hnone : nth_error h (length h) = None)
      by (apply nth_error_None; apply Nat.le_refl).
    congruence. }
  split; [intros r b Hr; now apply nth_error_kept|].
  split; [now apply nth_error_kept|].
  split; [apply nth_error_snoc|].
  split; [apply clamped_size|].
  split; [apply clamped_dtype|].
  intros i y Hy. rewrite clamped_values in Hy. cbv zeta in Hy.
  rewrite nth_error_map in Hy.
  destruct (nth_error (values a) i) as [x|]; [|discriminate].
  cbn [option_map] in Hy. injection Hy as <-.
  destruct (Rltb _ 0 && _); [right; now right|].
  destruct (Rgtb _ _); [right; now left|now left].
Qed.

Lemma threshold_outliers_frame_witness :
  exists out h' a',
    threshold_outliers 0%nat 1 [doctest_data] = Some (out, h')
    /\ nth_error [doctest_data] out = None
    /\ out <> 0%nat
    /\ (forall r b, nth_error [doctest_data] r = Some b ->
                    nth_error h' r = Some b)
    /\ nth_error h' 0%nat = Some doctest_data
    /\ nth_error h' out = Some a'
    /\ size a' = size doctest_data
    /\ dtype_of a' = dtype_of doctest_data
    /\ (forall i y,
          nth_error (values a') i = Some y ->
          nth_error (values doctest_data) i = Some y
          \/ y = stored (dtype_of doctest_data)
                   (median_of (values doctest_data)
                    + 1 * std_of (values doctest_data))
          \/ y = stored (dtype_of doctest_data)
                   (median_of (values doctest_data)
                    - 1 * std_of (values doctest_data))).
Proof.
  apply (threshold_outliers_frame [doctest_data] 0%nat doctest_data 1).
  reflexivity.
Defined.

(** ** threshold_outliers: the values *)

Lemma Rgtb_true x y : x > y -> Rgtb x y = true.
Proof. intros H. unfold Rgtb. destruct (Rgt_dec x y); [reflexivity|Lra.lra]. Qed.

Lemma Rgtb_false x y : x <= y -> Rgtb x y = false.
Proof. intros H. unfold Rgtb. destruct (Rgt_dec x y); [Lra.lra|reflexivity]. Qed.

Lemma Rltb_true x y : x < y -> Rltb x y = true.
Proof. intros H. unfold Rltb. destruct (Rlt_dec x y); [reflexivity|Lra.lra]. Qed.

Lemma Rltb_false x y : y <= x -> Rltb x y = false.
Proof. intros H. unfold Rltb. destruct (Rlt_dec x y); [Lra.lra|reflexivity]. Qed.

Lemma truncate_nonneg x :
  0 <= x -> truncate x = Int_part x /\ (0 <= truncate x)%Z.
Proof.
  intros Hx. unfold truncate. destruct (Rle_dec 0 x); [|Lra.lra].
  split; [reflexivity|].
  destruct (base_Int_part x) as [_ Hup].
  assert (Hlt : IZR (-1) < IZR (Int_part x)) by (simpl; Lra.lra).
  apply lt_IZR in Hlt. lia.
Qed.

Lemma truncate_negative x : x < 0 -> x <= IZR (truncate x).
Proof.
  intros Hx. unfold truncate. destruct (Rle_dec 0 x); [Lra.lra|].
  destruct (base_Int_part (- x)) as [Hlow _].
  rewrite opp_IZR. Lra.lra.
Qed.

(** A value clamped from above into an int64 array and then found below
    the lower bound is assigned the value it already has. *)
Lemma truncate_reclamped median bound :
  0 <= bound ->
  IZR (truncate (median + bound)) - median < 0 ->
  Rabs (IZR (truncate (median + bound)) - median) > bound ->
  truncate (median - bound) = truncate (median + bound).
Proof.
  intros Hb Hneg Habs.
  rewrite Rabs_left in Habs by exact Hneg.
  destruct (Rle_dec 0 (median + bound)) as [Hu|Hu].
  - destruct (truncate_nonneg _ Hu) as [Ek Hk]. rewrite Ek in *.
    destruct (base_Int_part (median + bound)) as [Hlow Hup].
    apply IZR_le in Hk.
    destruct (truncate_nonneg (median - bound)) as [Ew _]; [Lra.lra|].
    rewrite Ew. symmetry. apply Int_part_spec. Lra.lra.
  - pose proof (truncate_negative (median + bound)). Lra.lra.
Qed.

(** With a bound that is not negative, the second assignment leaves alone
    what the first one wrote: the two passes are one clamp of each value. *)
Lemma two_passes_clamp d median bound x :
  0 <= bound ->
  (let y := if Rgtb (x - median) bound
            then stored d (median + bound) else x in
   if Rltb (y - median) 0 && Rgtb (Rabs (y - median)) bound
   then stored d (median - bound) else y)
  = clamp d median bound x.
Proof.
  intros Hb. cbv zeta. unfold clamp.
  destruct (Rgtb (x - median) bound) eqn:Eabove; [|reflexivity].
  destruct (Rltb (stored d (median + bound) - median) 0
            && Rgtb (Rabs (stored d (median + bound) - median)) bound)
    eqn:Ebelow; [|reflexivity].
  apply andb_true_iff in Ebelow. destruct Ebelow as [Hneg Habs].
  unfold Rltb in Hneg. unfold Rgtb in Habs.
  destruct (Rlt_dec _ 0) as [Hneg'|]; [|discriminate].
  destruct (Rgt_dec _ bound) as [Habs'|]; [|discriminate].
  destruct d; cbn [stored] in *.
  - now rewrite truncate_reclamped.
  - Lra.lra.
Qed.

Lemma clamped_clamp a times_std :
  0 <= times_std ->
  values (clamped a times_std)
  = map (clamp (dtype_of a) (median_of (values a))
               (times_std * std_of (values a)))
        (values a).
Proof.
  intros Ht. rewrite clamped_values. cbv zeta.
  apply map_ext. intros x. apply two_passes_clamp.
  apply Rmult_le_pos; [exact Ht|]. unfold std_of. apply sqrt_pos.
Qed.

Ltac decide_Rle :=
  match goal with
  | |- context [Rle_dec ?a ?b] =>
      destruct (Rle_dec a b); [try (exfalso; Lra.lra)|try (exfalso; Lra.lra)]
  end.

Lemma doctest_sorted :
  sort (values doctest_data) = map IZR [7; 8; 9; 10; 11; 12; 14; 40]%Z.
Proof.
  unfold sort, doctest_data.
  cbn [values map fold_right insert_sorted].
  repeat (decide_Rle; cbn [insert_sorted]).
  reflexivity.
Qed.

Lemma doctest_median : median_of (values doctest_data) = 21 / 2.
Proof.
  unfold median_of. rewrite doctest_sorted.
  cbn [values doctest_data map length Nat.even]. 
  change (8 / 2 - 1)%nat with 3%nat. change (8 / 2)%nat with 4%nat.
  cbn [nth]. Lra.lra.
Qed.

Lemma doctest_variance :
  Rmean (map (fun x => Rsqr (Rabs (x - Rmean (values doctest_data))))
             (values doctest_data)) = 6519 / 64.
Proof.
  assert (Hmean : Rmean (values doctest_data) = 111 / 8).
  { unfold Rmean, Rsum. cbn [values doctest_data map length fold_right].
    replace (INR 8) with 8 by (simpl; Lra.lra). Lra.lra. }
  rewrite Hmean. unfold Rmean, Rsum.
  cbn [values doctest_data map length fold_right].
  replace (INR 8) with 8 by (simpl; Lra.lra).
  rewrite <- !Rsqr_abs. unfold Rsqr. Lra.lra.
Qed.

Lemma doctest_std : 19 / 2 <= std_of (values doctest_data) < 21 / 2.
Proof.
  unfold std_of. rewrite doctest_variance. split.
  - rewrite <- (sqrt_square (19 / 2)) by Lra.lra.
    apply sqrt_le_1_alt. Lra.lra.
  - rewrite <- (sqrt_square (21 / 2)) by Lra.lra.
    apply sqrt_lt_1_alt. Lra.lra.
Qed.

Ltac decide_masks :=
  repeat match goal with
    | |- context [Rabs ?a] =>
        first [rewrite (Rabs_left a) by Lra.lra
              |rewrite (Rabs_right a) by Lra.lra]
    | |- context [Rgtb ?a ?b] =>
        first [rewrite (Rgtb_true a b) by Lra.lra
              |rewrite (Rgtb_false a b) by Lra.lra]
    | |- context [Rltb ?a ?b] =>
        first [rewrite (Rltb_true a b) by Lra.lra
              |rewrite (Rltb_false a b) by Lra.lra]
    end.

Lemma doctest_clamped :
  clamped doctest_data 1 = IntArray [10; 9; 11; 20; 8; 12; 14; 7]%Z.
Proof.
  unfold clamped. rewrite doctest_median.
  pose proof doctest_std as Hstd.
  set (std := std_of (values doctest_data)) in *.
  assert (Hupper : truncate (21 / 2 + 1 * std) = 20%Z).
  { destruct (truncate_nonneg (21 / 2 + 1 * std)) as [-> _]; [Lra.lra|].
    symmetry. apply Int_part_spec. Lra.lra. }
  unfold doctest_data. cbn [values map assign_masked zip_with].
  decide_masks. cbn [zip_with values map andb]. rewrite Hupper.
  decide_masks. reflexivity.
Qed.

Lemma clamp_cases d median bound x :
  0 <= bound ->
  (x - median > bound ->
   clamp d median bound x = stored d (median + bound))
  /\ (x - median < 0 -> Rabs (x - median) > bound ->
      clamp d median bound x = stored d (median - bound))
  /\ (x - median <= bound ->
      x - median >= 0 \/ Rabs (x - median) <= bound ->
      clamp d median bound x = x).
Proof.
  intros Hb. unfold clamp. repeat split.
  - intros H. now rewrite Rgtb_true.
  - intros H1 H2. rewrite Rgtb_false by Lra.lra.
    now rewrite Rltb_true, Rgtb_true.
  - intros H1 [H2|H2]; rewrite Rgtb_false by exact H1.
    + now rewrite Rltb_false by Lra.lra.
    + rewrite (Rgtb_false (Rabs _)) by exact H2. now rewrite andb_false_r.
Qed.

(** C5.  With [times_std] not negative, every value of the array returned
    is the clamp of the value of the argument at its position: a value whose
    excess above the median exceeds [times_std * std] becomes [median +
    times_std * std], a value below the median whose absolute deviation
    exceeds it becomes [median - times_std * std] (both as the dtype of the
    array stores them), and any other value is kept.  On the doctest's
    array, with [times_std = 1], the result is [10, 9, 11, 20, 8, 12, 14,
    7]. *)
Theorem threshold_outliers_clamps (h : store) (data : ref) (a : array)
  (times_std : R) :
  nth_error h data = Some a ->
  0 <= times_std ->
  (exists out h' a',
      threshold_outliers data times_std h = Some (out, h')
      /\ nth_error h' out = Some a'
      /\ forall i x,
           nth_error (values a) i = Some x ->
           exists y,
             nth_error (values a') i = Some y
             /\ (x - median_of (values a) > times_std * std_of (values a) ->
                 y = stored (dtype_of a)
                       (median_of (values a)
                        + times_std * std_of (values a)))
             /\ (x - median_of (values a) < 0 ->
                 Rabs (x - median_of (values a))
                 > times_std * std_of (values a) ->
                 y = stored (dtype_of a)
                       (median_of (values a)
                        - times_std * std_of (values a)))
             /\ (x - median_of (values a) <= times_std * std_of (values a) ->
                 x - median_of (values a) >= 0
                 \/ Rabs (x - median_of (values a))
                    <= times_std * std_of (values a) ->
                 y = x))
  /\ exists out h',
       threshold_outliers 0%nat 1 [doctest_data] = Some (out, h')
       /\ nth_error h' out
          = Some (IntArray [10; 9; 11; 20; 8; 12; 14; 7]%Z).
Proof.
  intros Hdata Ht. split.
  - exists (length h), (h ++ [clamped a times_std]), (clamped a times_std).
    split; [now apply threshold_outliers_run|].
    split; [apply nth_error_snoc|].
    intros i x Hx. rewrite (clamped_clamp a times_std Ht).
    eexists. split; [apply map_nth_error; exact Hx|].
    apply clamp_cases.
    apply Rmult_le_pos; [exact Ht|]. unfold std_of. apply sqrt_pos.
  - exists 1%nat, [doctest_data; clamped doctest_data 1].
    split; [now apply (threshold_outliers_run [doctest_data] 0%nat)|].
    cbn [nth_error]. now rewrite doctest_clamped.
Qed.

Lemma threshold_outliers_clamps_witness :
  (exists out h' a',
      threshold_outliers 0%nat 1 [doctest_data] = Some (out, h')
      /\ nth_error h' out = Some a'
      /\ forall i x,
           nth_error (values doctest_data) i = Some x ->
           exists y,
             nth_error (values a') i = Some y
             /\ (x - median_of (values doctest_data)
                 > 1 * std_of (values doctest_data) ->
                 y = stored (dtype_of doctest_data)
                       (median_of (values doctest_data)
                        + 1 * std_of (values doctest_data)))
             /\ (x - median_of (values doctest_data) < 0 ->
                 Rabs (x - median_of (values doctest_data))
                 > 1 * std_of (values doctest_data) ->
                 y = stored (dtype_of doctest_data)
                       (median_of (values doctest_data)
                        - 1 * std_of (values doctest_data)))
             /\ (x - median_of (values doctest_data)
                 <= 1 * std_of (values doctest_data) ->
                 x - median_of (values doctest_data) >= 0
                 \/ Rabs (x - median_of (values doctest_data))
                    <= 1 * std_of (values doctest_data) ->
                 y = x))
  /\ exists out h',
       threshold_outliers 0%nat 1 [doctest_data] = Some (out, h')
       /\ nth_error h' out
          = Some (IntArray [10; 9; 11; 20; 8; 12; 14; 7]%Z).
Proof.
  apply (threshold_outliers_clamps [doctest_data] 0%nat doctest_data 1).
  - reflexivity.
  - Lra.lra.
Defined.

(** With [times_std] negative the two assignments get in each other's way.
    The median and the standard deviation of [0., 2.] are both 1; with
    [times_std = -1] the value 2, which exceeds the median by more than
    [-1], is first set to [median + times_std * std = 0], and then both
    values, now below the median, are set to [median - times_std * std = 2]:
    the value is not clamped down to 0. *)
Lemma doctest_negative_median : median_of [0; 2] = 1.
Proof.
  unfold median_of, sort. cbn [fold_right insert_sorted length Nat.even].
  decide_Rle. cbn [insert_sorted].
  change (2 / 2 - 1)%nat with 0%nat. change (2 / 2)%nat with 1%nat.
  cbn [nth]. Lra.lra.
Qed.

Lemma doctest_negative_std : std_of [0; 2] = 1.
Proof.
  unfold std_of.
  assert (Hmean : Rmean [0; 2] = 1).
  { unfold Rmean, Rsum. cbn [length fold_right].
    replace (INR 2) with 2 by (simpl; Lra.lra). Lra.lra. }
  rewrite Hmean. unfold Rmean, Rsum. cbn [map length fold_right].
  replace (INR 2) with 2 by (simpl; Lra.lra).
  rewrite <- !Rsqr_abs. unfold Rsqr.
  replace (((0 - 1) * (0 - 1) + ((2 - 1) * (2 - 1) + 0)) / 2) with 1
    by Lra.lra.
  apply sqrt_1.
Qed.

(** With a negative [times_std] the two assignments interfere: on [0., 2.]
    and [times_std = -1] the value 2 exceeds the median by more than
    [times_std * std], yet it is not returned as [median + times_std * std],
    which is 0: the first assignment gives [0, 0], and the second one, which
    tests the values as they are then, gives [2, 2]. *)
Lemma negative_times_std_not_clamped :
  exists out h',
    threshold_outliers 0%nat (-1) [FloatArray [0; 2]] = Some (out, h')
    /\ nth_error h' out = Some (FloatArray [2; 2])
    /\ median_of [0; 2] = 1
    /\ std_of [0; 2] = 1
    /\ 2 - median_of [0; 2] > -1 * std_of [0; 2]
    /\ median_of [0; 2] + -1 * std_of [0; 2] = 0.
Proof.
  exists 1%nat, [FloatArray [0; 2]; clamped (FloatArray [0; 2]) (-1)].
  split; [now apply (threshold_outliers_run [FloatArray [0; 2]] 0%nat)|].
  rewrite doctest_negative_median, doctest_negative_std.
  split; [|repeat split; Lra.lra].
  cbn [nth_error]. f_equal. unfold clamped.
  cbn [values]. rewrite doctest_negative_median, doctest_negative_std.
  cbn [map assign_masked zip_with values].
  decide_masks. cbn [zip_with values map andb].
  decide_masks. cbn [zip_with andb]. f_equal. f_equal; [Lra.lra|].
  f_equal. Lra.lra.
Qed.

End OutliersProofs.

(** ** find_phase *)

Module PhaseProofs.

Import Phase.
Local Open Scope R_scope.

Lemma complex_eq (a b c d : R) : a = c -> b = d -> (a, b) = (c, d).
Proof. now intros -> ->. Qed.

Lemma angle_add (n : nat) (a b : Z) :
  2 * PI * IZR (a + b) / INR n
  = 2 * PI * IZR a / INR n + 2 * PI * IZR b / INR n.
Proof. rewrite plus_IZR. unfold Rdiv. ring. Qed.

Lemma twiddle_mul (n : nat) (a b : Z) :
  Cmul (twiddle n a) (twiddle n b) = twiddle n (a + b).
Proof.
  unfold Cmul, twiddle. cbn [Cre Cim fst snd].
  rewrite angle_add, cos_plus, sin_plus. apply complex_eq; ring.
Qed.

Lemma twiddle_0 (n : nat) : twiddle n 0 = (1, 0).
Proof.
  unfold twiddle.
  replace (2 * PI * 0 / INR n) with 0 by (unfold Rdiv; ring).
  now rewrite cos_0, sin_0.
Qed.

Lemma twiddle_conjugate (n : nat) (a : Z) :
  conjugate (twiddle n a) = twiddle n (- a).
Proof.
  unfold conjugate, twiddle. cbn [Cre Cim fst snd].
  replace (2 * PI * IZR (- a) / INR n) with (- (2 * PI * IZR a / INR n))
    by (rewrite opp_IZR; unfold Rdiv; ring).
  now rewrite cos_neg, sin_neg.
Qed.

(** A full turn: [exp(2 pi i n / n) = 1]. *)
Lemma twiddle_turn (n : nat) : (0 < n)%nat -> twiddle n (Z.of_nat n) = (1, 0).
Proof.
  intros Hn. unfold twiddle.
  replace (2 * PI * IZR (Z.of_nat n) / INR n) with (2 * PI).
  - now rewrite cos_2PI, sin_2PI.
  - rewrite <- INR_IZR_INZ. field. apply not_0_INR. lia.
Qed.

Lemma Cmul_1_r z : Cmul z (1, 0) = z.
Proof. destruct z as [x y]. unfold Cmul. cbn. apply complex_eq; ring. Qed.

Lemma twiddle_shift (n : nat) (a : Z) :
  (0 < n)%nat -> twiddle n (a + Z.of_nat n) = twiddle n a.
Proof.
  intros Hn. now rewrite <- twiddle_mul, twiddle_turn, Cmul_1_r.
Qed.

Lemma twiddle_shift_nat (n : nat) (a : Z) (k : nat) :
  (0 < n)%nat -> twiddle n (a + Z.of_nat k * Z.of_nat n) = twiddle n a.
Proof.
  intros Hn. induction k as [|k IH].
  - f_equal. lia.
  - replace (a + Z.of_nat (S k) * Z.of_nat n)%Z
      with (a + Z.of_nat k * Z.of_nat n + Z.of_nat n)%Z by lia.
    now rewrite twiddle_shift.
Qed.

(** Exponents count modulo [n]. *)
Lemma twiddle_mod (n : nat) (a : Z) :
  (0 < n)%nat -> twiddle n a = twiddle n (a mod Z.of_nat n).
Proof.
  intros Hn. set (m := Z.of_nat n).
  assert (Hm : (0 < m)%Z) by (unfold m; lia).
  pose proof (Z.div_mod a m ltac:(lia)) as Hdiv.
  destruct (Z_le_gt_dec 0 (a / m)) as [Hq|Hq].
  - rewrite Hdiv at 1.
    replace (m * (a / m) + a mod m)%Z
      with (a mod m + Z.of_nat (Z.to_nat (a / m)) * Z.of_nat n)%Z
      by (fold m; rewrite Z2Nat.id by lia; lia).
    now apply twiddle_shift_nat.
  - rewrite <- (twiddle_shift_nat n a (Z.to_nat (- (a / m))) Hn).
    f_equal. fold m. rewrite Z2Nat.id by lia. lia.
Qed.

(** The fifth roots of unity sum to zero: multiplying the sum by
    [exp(2 pi i / 5)] permutes its terms, and that root is not 1. *)
Lemma fifth_roots_sum :
  Csum [twiddle 5 0; twiddle 5 1; twiddle 5 2; twiddle 5 3; twiddle 5 4]
  = (0, 0).
Proof.
  pose proof (twiddle_mul 5 1 0) as H0. pose proof (twiddle_mul 5 1 1) as H1.
  pose proof (twiddle_mul 5 1 2) as H2. pose proof (twiddle_mul 5 1 3) as H3.
  pose proof (twiddle_mul 5 1 4) as H4.
  cbn [Z.add Pos.add Pos.succ] in H0, H1, H2, H3, H4.
  pose proof (twiddle_turn 5 ltac:(lia)) as H5.
  change (Z.of_nat 5) with 5%Z in H5. rewrite H5 in H4. clear H5.
  rewrite twiddle_0 in *.
  assert (Hsin : 0 < snd (twiddle 5 1)).
  { unfold twiddle. cbn [snd]. apply sin_gt_0.
    - assert (HPI := PI_RGT_0). simpl INR. Lra.lra.
    - assert (HPI := PI_RGT_0). simpl INR. Lra.lra. }
  destruct (twiddle 5 1) as [c1 s1]. destruct (twiddle 5 2) as [c2 s2].
  destruct (twiddle 5 3) as [c3 s3]. destruct (twiddle 5 4) as [c4 s4].
  unfold Cmul in *. cbn [Cre Cim fst snd] in *.
  injection H1 as H1c H1s. injection H2 as H2c H2s.
  injection H3 as H3c H3s. injection H4 as H4c H4s.
  unfold Csum, Cadd. cbn [fold_right Cre Cim fst snd].
  set (X := 1 + (c1 + (c2 + (c3 + (c4 + 0))))).
  set (Y := 0 + (s1 + (s2 + (s3 + (s4 + 0))))).
  assert (HX : c1 * X - s1 * Y = X) by (unfold X, Y; Lra.nra).
  assert (HY : c1 * Y + s1 * X = Y) by (unfold X, Y; Lra.nra).
  clearbody X Y.
  assert (Hdet : 0 < (c1 - 1) * (c1 - 1) + s1 * s1).
  { pose proof (Rle_0_sqr (c1 - 1)) as Hsq. unfold Rsqr in Hsq.
    pose proof (Rmult_lt_0_compat s1 s1 Hsin Hsin). Lra.lra. }
  assert (EX : X * ((c1 - 1) * (c1 - 1) + s1 * s1) = 0).
  { replace (X * ((c1 - 1) * (c1 - 1) + s1 * s1))
      with ((c1 - 1) * (c1 * X - s1 * Y - X)
            + s1 * (c1 * Y + s1 * X - Y)) by ring.
    rewrite HX, HY. ring. }
  assert (EY : Y * ((c1 - 1) * (c1 - 1) + s1 * s1) = 0).
  { replace (Y * ((c1 - 1) * (c1 - 1) + s1 * s1))
      with ((c1 - 1) * (c1 * Y + s1 * X - Y)
            - s1 * (c1 * X - s1 * Y - X)) by ring.
    rewrite HX, HY. ring. }
  apply Rmult_integral in EX, EY.
  apply complex_eq; [destruct EX|destruct EY]; Lra.lra.
Qed.

Lemma Cmul_Cneg_l z w : Cmul (Cneg z) w = Cneg (Cmul z w).
Proof.
  destruct z, w. unfold Cmul, Cneg. cbn [Cre Cim fst snd].
  apply complex_eq; ring.
Qed.

Lemma Cmul_Cneg_r z w : Cmul z (Cneg w) = Cneg (Cmul z w).
Proof.
  destruct z, w. unfold Cmul, Cneg. cbn [Cre Cim fst snd].
  apply complex_eq; ring.
Qed.

Lemma absolute_zero z : Cre z = 0 -> Cim z = 0 -> absolute z = 0.
Proof.
  intros Hre Him. unfold absolute. rewrite Hre, Him.
  replace (0 * 0 + 0 * 0) with 0 by ring. apply sqrt_0.
Qed.

Lemma absolute_minus_one z : Cre z = -1 -> Cim z = 0 -> absolute z = 1.
Proof.
  intros Hre Him. unfold absolute. rewrite Hre, Him.
  replace (-1 * -1 + 0 * 0) with 1 by ring. apply sqrt_1.
Qed.

(** Exponents are brought to literals, and then into [0, 5). *)
Ltac literal_exponents :=
  repeat match goal with
    | |- context [twiddle ?n ?z] =>
        lazymatch z with
        | Z0 => fail
        | Zpos _ => fail
        | Zneg _ => fail
        | _ => let z' := eval vm_compute in z in
               change (twiddle n z) with (twiddle n z')
        end
    end.

Ltac reduce_exponents :=
  repeat match goal with
    | |- context [twiddle 5 ?z] =>
        let r := eval vm_compute in (z mod 5)%Z in
        tryif constr_eq z r then fail
        else replace (twiddle 5 z) with (twiddle 5 r)
            by (rewrite (twiddle_mod 5 z) by lia; reflexivity)
    end.

Ltac split_twiddles :=
  repeat match goal with
    | |- context [twiddle ?n ?z] =>
        let c := fresh "c" in let s := fresh "s" in
        destruct (twiddle n z) as [c s]
    end.

(** The transform of the unit impulse at position 1, and at position 3. *)
Lemma dft_impulse_1 :
  dft (-1) (map of_real [0; 1; 0; 0; 0])
  = [twiddle 5 0; twiddle 5 (-1); twiddle 5 (-2); twiddle 5 (-3);
     twiddle 5 (-4)].
Proof.
  unfold dft. cbn [map length seq nth]. literal_exponents.
  split_twiddles. unfold Csum, Cmul, Cadd, of_real.
  cbn [fold_right Cre Cim fst snd].
  repeat (f_equal; try ring).
Qed.

Lemma dft_impulse_3 :
  dft (-1) (map of_real [0; 0; 0; 1; 0])
  = [twiddle 5 0; twiddle 5 (-3); twiddle 5 (-6); twiddle 5 (-9);
     twiddle 5 (-12)].
Proof.
  unfold dft. cbn [map length seq nth]. literal_exponents.
  split_twiddles. unfold Csum, Cmul, Cadd, of_real.
  cbn [fold_right Cre Cim fst snd].
  repeat (f_equal; try ring).
Qed.

Lemma product_doctest :
  zip_with Cmul
    [twiddle 5 0; twiddle 5 (-1); twiddle 5 (-2); twiddle 5 (-3);
     twiddle 5 (-4)]
    (map Cneg
       (map conjugate
          [twiddle 5 0; twiddle 5 (-3); twiddle 5 (-6); twiddle 5 (-9);
           twiddle 5 (-12)]))
  = map Cneg
      [twiddle 5 0; twiddle 5 2; twiddle 5 4; twiddle 5 1; twiddle 5 3].
Proof.
  cbn [map zip_with].
  rewrite !twiddle_conjugate, !Cmul_Cneg_r, !twiddle_mul.
  literal_exponents. reduce_exponents. reflexivity.
Qed.

(** The correlation of the two impulses: a single peak, at index 3. *)
Lemma corr_doctest :
  map absolute
    (map (Cscale (/ INR 5))
       (dft 1 (map Cneg
                 [twiddle 5 0; twiddle 5 2; twiddle 5 4; twiddle 5 1;
                  twiddle 5 3])))
  = [0; 0; 0; 1; 0].
Proof.
  unfold dft. cbn [map length seq nth].
  rewrite !Cmul_Cneg_l, !twiddle_mul.
  literal_exponents. reduce_exponents.
  replace (INR 5) with 5 by (simpl; Lra.lra).
  pose proof fifth_roots_sum as Hsum. rewrite twiddle_0 in *.
  destruct (twiddle 5 1) as [c1 s1]. destruct (twiddle 5 2) as [c2 s2].
  destruct (twiddle 5 3) as [c3 s3]. destruct (twiddle 5 4) as [c4 s4].
  unfold Csum, Cadd in Hsum. cbn [fold_right Cre Cim fst snd] in Hsum.
  injection Hsum as Hc Hs.
  repeat (f_equal;
          try (first [apply absolute_zero|apply absolute_minus_one];
               unfold Cscale, Csum, Cadd, Cneg;
               cbn [fold_right Cre Cim fst snd]; Lra.lra)).
Qed.

Lemma below_half (m n : Z) :
  (if Rlt_dec (IZR m) (IZR n / 2) then true else false) = (2 * m <? n)%Z.
Proof.
  destruct (Rlt_dec (IZR m) (IZR n / 2)) as [H|H];
    destruct (Z.ltb_spec (2 * m) n) as [H'|H']; try reflexivity; exfalso.
  - apply IZR_le in H'. rewrite mult_IZR in H'. Lra.lra.
  - apply IZR_lt in H'. rewrite mult_IZR in H'. Lra.lra.
Qed.

Lemma argmax_doctest : argmax [0; 0; 0; 1; 0] = Ok 3%Z.
Proof.
  unfold argmax. cbn [argmax_from].
  repeat match goal with
    | |- context [Rgt_dec ?a ?b] =>
        destruct (Rgt_dec a b); try (exfalso; Lra.lra); cbn [argmax_from]
    end.
  reflexivity.
Qed.

(** C4.  Called on two signals, [find_phase] returns the shift the
    specification describes: the peak [m] of the magnitude of the inverse
    transform of [F1 * conjugate(-F2)], mapped to [-m] when [m < N / 2] and
    to [N - m] otherwise (and it fails where that computation fails).  On
    the doctest's impulses at positions 1 and 3 the shift is 2. *)
Theorem find_phase_correlation :
  (forall signal_1 signal_2 return_1 return_2,
      observe shift
        (find_phase (Some signal_1) (Some signal_2) None None
           return_1 return_2)
      = observe (fun s => s) (phase_by_spec signal_1 signal_2))
  /\ find_phase (Some [0; 1; 0; 0; 0]) (Some [0; 0; 0; 1; 0]) None None
       false false
     = Ok {| shift := 2; returned_1 := None; returned_2 := None |}.
Proof.
  split.
  - intros signal_1 signal_2 return_1 return_2.
    unfold find_phase, phase_by_spec, transform_unless_given.
    destruct (fft (map of_real signal_1)) as [F1|e1]; [|reflexivity].
    destruct (fft (map of_real signal_2)) as [F2|e2]; [|reflexivity].
    cbn [bind].
    replace (map conjugate (map Cneg F2)) with (map Cneg (map conjugate F2))
      by (rewrite !map_map; reflexivity).
    destruct (broadcast Cmul F1 _) as [product|e3]; [|reflexivity].
    cbn [bind].
    destruct (ifft product) as [corr|e4]; [|reflexivity]. cbn [bind].
    destruct (argmax (map absolute corr)) as [m|e5]; [|reflexivity].
    cbn [bind observe shift].
    pose proof (below_half m (len F1)) as Hhalf.
    destruct (Rlt_dec (IZR m) (IZR (len F1) / 2));
      destruct (2 * m <? len F1)%Z; try discriminate; reflexivity.
  - unfold find_phase, transform_unless_given.
    change (fft (map of_real [0; 1; 0; 0; 0]))
      with (Ok (dft (-1) (map of_real [0; 1; 0; 0; 0]))).
    change (fft (map of_real [0; 0; 0; 1; 0]))
      with (Ok (dft (-1) (map of_real [0; 0; 0; 1; 0]))).
    cbn [bind]. rewrite dft_impulse_1, dft_impulse_3.
    rewrite broadcast_same_shape by reflexivity.
    rewrite product_doctest. cbn [bind].
    set (product := [twiddle 5 0; twiddle 5 2; twiddle 5 4; twiddle 5 1;
                     twiddle 5 3]).
    change (ifft (map Cneg product))
      with (Ok (map (Cscale (/ INR 5)) (dft 1 (map Cneg product)))).
    cbn [bind]. unfold product. rewrite corr_doctest, argmax_doctest.
    cbn [bind].
    pose proof (below_half 3
                  (len [twiddle 5 0; twiddle 5 (-1); twiddle 5 (-2);
                        twiddle 5 (-3); twiddle 5 (-4)])) as Hhalf.
    destruct (Rlt_dec _ _); [discriminate|reflexivity].
Qed.

End PhaseProofs.

(** ** find_phase: the range of the shift and the returned transforms *)

Module PhaseProperties.

Import Phase.
Local Open Scope R_scope.

Lemma Ok_inj {A : Type} (x y : A) : Ok x = Ok y -> x = y.
Proof. congruence. Qed.

Lemma dft_length sign a : length (dft sign a) = length a.
Proof. unfold dft. now rewrite length_map, length_seq. Qed.

Lemma fft_ok a F : fft a = Ok F -> length F = length a /\ a <> [].
Proof.
  unfold fft. destruct a as [|z a]; [discriminate|].
  intros H. apply Ok_inj in H. subst F.
  split; [apply dft_length|discriminate].
Qed.

Lemma ifft_ok a corr : ifft a = Ok corr -> length corr = length a.
Proof.
  unfold ifft. destruct a as [|z a]; [discriminate|].
  intros H. apply Ok_inj in H. subst corr.
  rewrite length_map. apply dft_length.
Qed.

Lemma phase_argmax_from_bounds a : forall pos best_i best,
  (0 <= best_i < pos)%Z ->
  (0 <= argmax_from a pos best_i best < pos + len a)%Z.
Proof.
  induction a as [|x a IH]; intros pos best_i best H; cbn [argmax_from].
  - unfold len. simpl. lia.
  - replace (pos + len (x :: a))%Z with (pos + 1 + len a)%Z
      by (unfold len; simpl length; lia).
    destruct (Rgt_dec x best); apply IH; lia.
Qed.

Lemma argmax_bounds a m : argmax a = Ok m -> (0 <= m < len a)%Z.
Proof.
  destruct a as [|x a]; [discriminate|]. intros H. injection H as <-.
  pose proof (phase_argmax_from_bounds a 1 0 x ltac:(lia)).
  unfold len in *. simpl length. lia.
Qed.

(** One run of [find_phase] on two transforms, whether they were given or
    computed. *)
Lemma find_phase_on_transforms F1 F2 signal_1 signal_2 return_1 return_2 p :
  find_phase signal_1 signal_2 (Some F1) (Some F2) return_1 return_2 = Ok p ->
  exists product corr m,
    broadcast Cmul F1 (map Cneg (map conjugate F2)) = Ok product
    /\ ifft product = Ok corr
    /\ argmax (map absolute corr) = Ok m
    /\ shift p = (if (2 * m <? len F1)%Z then - m else len F1 - m)%Z
    /\ returned_1 p = (if return_1 then Some F1 else None)
    /\ returned_2 p = (if return_2 then Some F2 else None).
Proof.
  unfold find_phase.
  assert (E1 : transform_unless_given signal_1 (Some F1) = Ok (Some F1))
    by (destruct signal_1; reflexivity).
  assert (E2 : transform_unless_given signal_2 (Some F2) = Ok (Some F2))
    by (destruct signal_2; reflexivity).
  rewrite E1, E2. cbn [bind].
  destruct (broadcast Cmul F1 (map Cneg (map conjugate F2)))
    as [product|] eqn:Eproduct; [|discriminate]. cbn [bind].
  destruct (ifft product) as [corr|] eqn:Ecorr; [|discriminate]. cbn [bind].
  destruct (argmax (map absolute corr)) as [m|] eqn:Em; [|discriminate].
  cbn [bind]. intros H. apply Ok_inj in H. subst p.
  exists product, corr, m. cbn [shift returned_1 returned_2].
  do 3 (split; [reflexivity || assumption|]). split; [|split; reflexivity].
  pose proof (PhaseProofs.below_half m (len F1)) as Hhalf.
  destruct (Rlt_dec (IZR m) (IZR (len F1) / 2));
    destruct (2 * m <? len F1)%Z; try discriminate; reflexivity.
Qed.

(** Signals are transformed first; the rest is the run on the transforms. *)
Lemma find_phase_on_signals signal_1 signal_2 return_1 return_2 :
  find_phase (Some signal_1) (Some signal_2) None None return_1 return_2
  = (F1 <- fft (map of_real signal_1) ;;
     F2 <- fft (map of_real signal_2) ;;
     find_phase None None (Some F1) (Some F2) return_1 return_2)%py.
Proof.
  unfold find_phase, transform_unless_given.
  destruct (fft (map of_real signal_1)) as [F1|]; [|reflexivity].
  destruct (fft (map of_real signal_2)) as [F2|]; reflexivity.
Qed.

Lemma find_phase_impulses return_1 return_2 :
  find_phase (Some [0; 1; 0; 0; 0]) (Some [0; 0; 0; 1; 0]) None None
    return_1 return_2
  = Ok {| shift := 2;
          returned_1 :=
            if return_1
            then Some [twiddle 5 0; twiddle 5 (-1); twiddle 5 (-2);
                       twiddle 5 (-3); twiddle 5 (-4)]
            else None;
          returned_2 :=
            if return_2
            then Some [twiddle 5 0; twiddle 5 (-3); twiddle 5 (-6);
                       twiddle 5 (-9); twiddle 5 (-12)]
            else None |}.
Proof.
  unfold find_phase, transform_unless_given.
  change (fft (map of_real [0; 1; 0; 0; 0]))
    with (Ok (dft (-1) (map of_real [0; 1; 0; 0; 0]))).
  change (fft (map of_real [0; 0; 0; 1; 0]))
    with (Ok (dft (-1) (map of_real [0; 0; 0; 1; 0]))).
  cbn [bind].
  rewrite PhaseProofs.dft_impulse_1, PhaseProofs.dft_impulse_3.
  rewrite broadcast_same_shape by reflexivity.
  rewrite PhaseProofs.product_doctest. cbn [bind].
  set (product := [twiddle 5 0; twiddle 5 2; twiddle 5 4; twiddle 5 1;
                   twiddle 5 3]).
  change (ifft (map Cneg product))
    with (Ok (map (Cscale (/ INR 5)) (dft 1 (map Cneg product)))).
  cbn [bind]. unfold product.
  rewrite PhaseProofs.corr_doctest, PhaseProofs.argmax_doctest.
  cbn [bind].
  pose proof (PhaseProofs.below_half 3
                (len [twiddle 5 0; twiddle 5 (-1); twiddle 5 (-2);
                      twiddle 5 (-3); twiddle 5 (-4)])) as Hhalf.
  destruct (Rlt_dec _ _); [discriminate|reflexivity].
Qed.

Lemma broadcast_length {A B C : Type} (f : A -> B -> C) a b product :
  length a = length b ->
  broadcast f a b = Ok product -> length product = length a.
Proof.
  intros Hlen. rewrite broadcast_same_shape by exact Hlen.
  intros H. apply Ok_inj in H. subst product.
  rewrite zip_with_length, Hlen. apply Nat.min_id.
Qed.

(** The shift between two signals of one length N lies in (-N/2, N/2]. *)
Theorem find_phase_shift_range (signal_1 signal_2 : list R)
  (return_1 return_2 : bool) (p : phase) :
  length signal_1 = length signal_2 ->
  find_phase (Some signal_1) (Some signal_2) None None return_1 return_2
  = Ok p ->
  (- len signal_1 < 2 * shift p <= len signal_1)%Z.
Proof.
  intros Hlen. rewrite find_phase_on_signals.
  destruct (fft (map of_real signal_1)) as [F1|] eqn:E1; [|discriminate].
  destruct (fft (map of_real signal_2)) as [F2|] eqn:E2; [|discriminate].
  cbn [bind]. intros Hrun.
  destruct (find_phase_on_transforms _ _ _ _ _ _ _ Hrun)
    as (product & corr & m & Hproduct & Hcorr & Hm & Hshift & _).
  apply fft_ok in E1, E2. destruct E1 as [E1 _]. destruct E2 as [E2 _].
  rewrite length_map in E1, E2.
  apply broadcast_length in Hproduct;
    [|rewrite !length_map; congruence].
  apply ifft_ok in Hcorr. apply argmax_bounds in Hm.
  assert (HN : len F1 = len signal_1) by (unfold len; now rewrite E1).
  assert (Hm' : (0 <= m < len signal_1)%Z).
  { unfold len in *. rewrite length_map in Hm. lia. }
  rewrite Hshift, HN.
  destruct (Z.ltb_spec (2 * m) (len signal_1)); lia.
Qed.

Lemma find_phase_shift_range_witness :
  (- len [0; 1; 0; 0; 0] < 2 * 2 <= len [0; 1; 0; 0; 0])%Z.
Proof.
  apply (find_phase_shift_range [0; 1; 0; 0; 0] [0; 0; 0; 1; 0] false false
           {| shift := 2; returned_1 := None; returned_2 := None |}).
  - reflexivity.
  - apply (find_phase_impulses false false).
Defined.

(** The transforms returned on request are those of the two signals, and
    passing them back in, with or without signals, gives the same shift. *)
Theorem find_phase_returned_transforms (signal_1 signal_2 : list R) (p : phase) :
  find_phase (Some signal_1) (Some signal_2) None None true true = Ok p ->
  exists F1 F2,
    fft (map of_real signal_1) = Ok F1
    /\ fft (map of_real signal_2) = Ok F2
    /\ returned_1 p = Some F1
    /\ returned_2 p = Some F2
    /\ forall other_1 other_2 return_1 return_2,
         observe shift
           (find_phase other_1 other_2 (Some F1) (Some F2) return_1 return_2)
         = Some (shift p).
Proof.
  rewrite find_phase_on_signals.
  destruct (fft (map of_real signal_1)) as [F1|] eqn:E1; [|discriminate].
  destruct (fft (map of_real signal_2)) as [F2|] eqn:E2; [|discriminate].
  cbn [bind]. intros Hrun. exists F1, F2.
  destruct (find_phase_on_transforms _ _ _ _ _ _ _ Hrun)
    as (product & corr & m & Hproduct & Hcorr & Hm & Hshift & H1 & H2).
  do 4 (split; [reflexivity || assumption|]).
  intros other_1 other_2 return_1 return_2.
  unfold find_phase.
  assert (T1 : transform_unless_given other_1 (Some F1) = Ok (Some F1))
    by (destruct other_1; reflexivity).
  assert (T2 : transform_unless_given other_2 (Some F2) = Ok (Some F2))
    by (destruct other_2; reflexivity).
  rewrite T1, T2. cbn [bind]. rewrite Hproduct. cbn [bind].
  rewrite Hcorr. cbn [bind]. rewrite Hm. cbn [bind observe shift].
  rewrite Hshift. f_equal.
  pose proof (PhaseProofs.below_half m (len F1)) as Hhalf.
  destruct (Rlt_dec (IZR m) (IZR (len F1) / 2));
    destruct (2 * m <? len F1)%Z; try discriminate; reflexivity.
Qed.

Lemma find_phase_returned_transforms_witness :
  exists F1 F2,
    fft (map of_real [0; 1; 0; 0; 0]) = Ok F1
    /\ fft (map of_real [0; 0; 0; 1; 0]) = Ok F2
    /\ Some [twiddle 5 0; twiddle 5 (-1); twiddle 5 (-2); twiddle 5 (-3);
             twiddle 5 (-4)] = Some F1
    /\ Some [twiddle 5 0; twiddle 5 (-3); twiddle 5 (-6); twiddle 5 (-9);
             twiddle 5 (-12)] = Some F2
    /\ forall other_1 other_2 return_1 return_2,
         observe shift
           (find_phase other_1 other_2 (Some F1) (Some F2) return_1 return_2)
         = Some 2%Z.
Proof.
  apply (find_phase_returned_transforms [0; 1; 0; 0; 0] [0; 0; 0; 1; 0]
           {| shift := 2;
              returned_1 := Some [twiddle 5 0; twiddle 5 (-1); twiddle 5 (-2);
                                  twiddle 5 (-3); twiddle 5 (-4)];
              returned_2 := Some [twiddle 5 0; twiddle 5 (-3); twiddle 5 (-6);
                                  twiddle 5 (-9); twiddle 5 (-12)] |}).
  apply (find_phase_impulses true true).
Defined.

End PhaseProperties.

(** ** find_cells_in_channel: bounds of the pairs, and the shortcut *)

Section CellDetectionProperties.

Variable tunable : Tunables.
Variable UnivariateSpline : ndarray -> ndarray -> Z * Z -> Z -> spline.
Hypothesis spline_shape :
  forall x y bbox k arg, length (UnivariateSpline x y bbox k arg) = length arg.

(** One run of the detector past the shortcut. *)
Lemma find_cells_in_channel_run thresholded_profile profile_of_binary_image
  profile :
  profile <> [] ->
  thresholded_profile <> [] ->
  cells_empty_channel_skipping tunable = false ->
  exists extrema,
    find_extrema_and_prominence UnivariateSpline profile
      (cells_extrema_order tunable) = Ok extrema
    /\ ascending_within (maxima extrema) (len profile)
    /\ length (prominence extrema) = length profile
    /\ find_cells_in_channel tunable UnivariateSpline thresholded_profile
         profile_of_binary_image profile
       = Ok (cells tunable profile_of_binary_image (prominence extrema)
               (candidate_positions (maxima extrema) (prominence extrema)
                  (len profile))).
Proof.
  intros Hne Hthr Hoff.
  destruct (find_extrema_and_prominence_run UnivariateSpline spline_shape
              profile (cells_extrema_order tunable) Hne)
    as (gmax & gmin & maxy & miny & Hgmax & Hgmin & _ & _ & Hrun).
  cbv zeta in Hrun.
  destruct (argmax_ok profile Hne) as [m [Hm Hm_in]].
  rewrite Hgmax in Hm. apply PhaseProperties.Ok_inj in Hm. subst m.
  destruct (extrema_or_global_ascending gtb profile
              (cells_extrema_order tunable) gmax Hm_in) as [Hasc _].
  fold (relative_maxima profile (cells_extrema_order tunable)) in Hasc.
  set (extrema := {| maxima := _ |}) in Hrun.
  assert (Hlen : length (prominence extrema) = length profile).
  { subst extrema. cbn [prominence].
    rewrite zip_with_length,
      !(fit_envelope_shape UnivariateSpline spline_shape),
      linspace0_length.
    apply Nat.min_id. }
  exists extrema. split; [exact Hrun|]. split; [exact Hasc|].
  split; [exact Hlen|].
  unfold find_cells_in_channel.
  destruct (amax_ok _ Hthr) as [hi ->]. destruct (amin_ok _ Hthr) as [lo ->].
  cbn [bind]. rewrite Hoff, andb_false_r, Hrun. cbn [bind].
  rewrite positions_candidates; [reflexivity|].
  destruct Hasc as (_ & _ & Hin). unfold len in *. now rewrite Hlen.
Qed.

End CellDetectionProperties.

Lemma candidate_positions_within maxima prominence n p :
  0 <= n ->
  ascending_within maxima n ->
  In p (candidate_positions maxima prominence n) -> 0 <= p <= n.
Proof.
  intros Hn (_ & _ & Hin) Hp. unfold candidate_positions in Hp.
  apply in_app_or in Hp. destruct Hp as [Hp|[<-|[]]]; [|lia].
  apply filter_In in Hp. destruct Hp as [Hp _].
  rewrite Forall_forall in Hin. specialize (Hin p Hp). lia.
Qed.

(** With the shortcut off, every pair [(b, e)] returned by the detector
    satisfies [1 <= b < e <= N - 1] for a profile of length N: the pairs are
    valid, non-empty index ranges strictly inside the profile. *)
Theorem find_cells_in_channel_bounds
  (tunable : Tunables)
  (UnivariateSpline : ndarray -> ndarray -> Z * Z -> Z -> spline)
  (spline_shape : forall x y bbox k arg,
      length (UnivariateSpline x y bbox k arg) = length arg)
  (thresholded_profile profile_of_binary_image profile : ndarray) :
  profile <> [] ->
  thresholded_profile <> [] ->
  cells_empty_channel_skipping tunable = false ->
  exists found,
    find_cells_in_channel tunable UnivariateSpline thresholded_profile
      profile_of_binary_image profile = Ok found
    /\ Forall (fun c => 1 <= fst c /\ fst c < snd c
                        /\ snd c <= len profile - 1) found.
Proof.
  intros Hne Hthr Hoff.
  destruct (find_cells_in_channel_run tunable UnivariateSpline spline_shape
              thresholded_profile profile_of_binary_image profile
              Hne Hthr Hoff)
    as (extrema & _ & Hasc & _ & Hrun).
  eexists. split; [exact Hrun|].
  apply Forall_forall. intros [b e] Hin.
  apply cells_In in Hin.
  destruct Hin as (i & last_pos & pos & Hlast & Hpos & Hok & -> & ->).
  destruct Hok as (Hwide & _ & _).
  apply nth_error_In in Hlast, Hpos.
  pose proof (candidate_positions_within _ (prominence extrema) _ pos
                (len_nonneg profile) Hasc Hpos) as Hp.
  assert (Hl : 0 <= last_pos).
  { destruct Hlast as [<-|Hlast]; [lia|].
    apply (candidate_positions_within _ (prominence extrema) _ last_pos
             (len_nonneg profile) Hasc Hlast). }
  cbn [fst snd]. lia.
Qed.

Lemma find_cells_in_channel_bounds_witness :
  exists found,
    find_cells_in_channel doctest_tunables interpolating_spline
      doctest_signal (repeat (Fin 0) 13) doctest_signal = Ok found
    /\ Forall (fun c => 1 <= fst c /\ fst c < snd c
                        /\ snd c <= len doctest_signal - 1) found.
Proof.
  apply (find_cells_in_channel_bounds doctest_tunables interpolating_spline
           interpolating_spline_shape doctest_signal (repeat (Fin 0) 13)
           doctest_signal).
  - discriminate.
  - discriminate.
  - reflexivity.
Defined.

(** With the shortcut switched on and a positive range quotient, a uniform
    outlier-clamped profile ends the detection with no cells, unless its
    value is zero: then the quotient [(max - min) / max] is [0 / 0], the
    comparison with a NaN is false, and the detection goes on as if the
    shortcut were off. *)
Theorem empty_channel_shortcut
  (tunable : Tunables)
  (UnivariateSpline : ndarray -> ndarray -> Z * Z -> Z -> spline)
  (thresholded_profile profile_of_binary_image profile : ndarray) (c q : Q) :
  cells_empty_channel_skipping tunable = true ->
  cells_empty_channel_skipping_intensity_range_quotient tunable = Fin q ->
  (0 < q)%Q ->
  thresholded_profile <> [] ->
  Forall (fun x => Float.eq x (Fin c)) thresholded_profile ->
  find_cells_in_channel tunable UnivariateSpline thresholded_profile
    profile_of_binary_image profile
  = if Qeq_bool c 0
    then find_cells_in_channel (without_skipping tunable) UnivariateSpline
           thresholded_profile profile_of_binary_image profile
    else Ok [].
Proof.
  intros Hon Hquot Hq Hne Hall.
  destruct (constant_array_values thresholded_profile c Hall) as [Hdata Hc].
  remember (map finite_part thresholded_profile) as qs eqn:Hqs_def.
  clear Hqs_def Hall. subst thresholded_profile.
  assert (Hqs : qs <> []) by (intros E; apply Hne; now rewrite E).
  destruct (amax_finite qs Hqs) as (hi & Hmax & Hhi_in & _).
  destruct (amin_finite qs Hqs) as (lo & Hmin & Hlo_in & _).
  apply Hc in Hhi_in, Hlo_in.
  unfold find_cells_in_channel. rewrite Hmax, Hmin. cbn [bind].
  cbn [without_skipping cells_empty_channel_skipping
       cells_empty_channel_skipping_intensity_range_quotient
       cells_extrema_order].
  rewrite Hon, Hquot, andb_true_r, andb_false_r.
  unfold sub. cbn [neg add div].
  destruct (Qeq_bool c 0) eqn:Ec.
  - apply Qeq_bool_iff in Ec.
    assert (Ehi : Qeq_bool hi 0 = true) by (apply Qeq_bool_iff; Lqa.lra).
    assert (Enum : Qeq_bool (hi + - lo) 0 = true)
      by (apply Qeq_bool_iff; Lqa.lra).
    rewrite Ehi, Enum. reflexivity.
  - assert (Hnz : ~ (hi == 0)%Q).
    { intros E. rewrite Hhi_in in E. apply Qeq_bool_iff in E. congruence. }
    assert (Ehi : Qeq_bool hi 0 = false).
    { destruct (Qeq_bool hi 0) eqn:E; [|reflexivity].
      apply Qeq_bool_iff in E. contradiction. }
    rewrite Ehi. cbn [ltb].
    assert (Hzero : ((hi + - lo) / hi == 0)%Q).
    { rewrite Hhi_in, Hlo_in. field. intros E. apply Qeq_bool_iff in E.
      congruence. }
    assert (Hlt : Qltb ((hi + - lo) / hi) q = true).
    { apply Qltb_lt. rewrite Hzero. exact Hq. }
    now rewrite Hlt.
Qed.

Lemma empty_channel_shortcut_witness :
  find_cells_in_channel
    {| cells_empty_channel_skipping := true;
       cells_empty_channel_skipping_intensity_range_quotient := Fin (1 # 2);
       cells_extrema_order := 2;
       cells_filtering_maximum_brightness := Fin (1 # 2);
       cells_filtering_minimum_prominence := Fin 10 |}
    interpolating_spline (repeat (Fin 7) 13) (repeat (Fin 0) 13)
    doctest_signal
  = Ok [].
Proof.
  apply (empty_channel_shortcut
           {| cells_empty_channel_skipping := true;
              cells_empty_channel_skipping_intensity_range_quotient :=
                Fin (1 # 2);
              cells_extrema_order := 2;
              cells_filtering_maximum_brightness := Fin (1 # 2);
              cells_filtering_minimum_prominence := Fin 10 |}
           interpolating_spline (repeat (Fin 7) 13) (repeat (Fin 0) 13)
           doctest_signal 7 (1 # 2)).
  - reflexivity.
  - reflexivity.
  - reflexivity.
  - discriminate.
  - repeat constructor.
Defined.

(** ** find_extrema_and_prominence: the calls of the spline *)

Lemma fit_envelope_spline UnivariateSpline fallback intpx intpy signal :
  3 <= len intpy ->
  fit_envelope UnivariateSpline fallback intpx intpy signal
  = UnivariateSpline intpx intpy (0, len signal)
      (if len intpy =? 3 then 2 else 3).
Proof.
  intros Hlen. unfold fit_envelope.
  destruct (len intpy <=? 3) eqn:E.
  - apply Z.leb_le in E. assert (E3 : len intpy = 3) by lia.
    rewrite E3. reflexivity.
  - apply Z.leb_gt in E.
    destruct (len intpy =? 3) eqn:E3; [apply Z.eqb_eq in E3; lia|].
    reflexivity.
Qed.

Lemma anchored_x_sorted extrema n :
  1 <= n ->
  ascending_within extrema n ->
  Sorted Z.le (0 :: extrema ++ [n - 1]).
Proof.
  intros Hn (Hs & _ & Hin).
  assert (Hall : Sorted Z.le (extrema ++ [n - 1])
                 /\ forall i, In i (extrema ++ [n - 1]) -> 0 <= i).
  { induction Hs as [|i rest Hs IH Hlt].
    - split; [repeat constructor|]. intros i [<-|[]].
      (* the only index is the last one *)
      lia.
    - inversion Hin as [|? ? Hi Hrest]; subst.
      destruct (IH Hrest) as [IHs IHn].
      split.
      + cbn [app]. constructor; [exact IHs|].
        destruct rest as [|j rest']; cbn [app]; constructor.
        * lia.
        * inversion Hlt; subst. lia.
      + intros j [<-|Hj]; [lia|now apply IHn]. }
  destruct Hall as [Hsorted Hnonneg].
  constructor; [exact Hsorted|].
  destruct extrema as [|i rest]; cbn [app]; constructor.
  - lia.
  - apply Hnonneg. now left.
Qed.

(** The envelopes are always fitted splines, never the infinite fallback:
    [UnivariateSpline] is called with degree 2 when there is a single
    extremum and 3 otherwise, on two more control points than there are
    extrema (so more points than the degree), the abscissae ascending from
    0 to N - 1. *)
Theorem find_extrema_and_prominence_spline_calls
  (UnivariateSpline : ndarray -> ndarray -> Z * Z -> Z -> spline)
  (spline_shape : forall x y bbox k arg,
      length (UnivariateSpline x y bbox k arg) = length arg)
  (signal : ndarray) (order : Z) :
  signal <> [] ->
  exists r maximaintpy minimaintpy,
    find_extrema_and_prominence UnivariateSpline signal order = Ok r
    /\ anchored_y (maxima r) signal = Ok maximaintpy
    /\ anchored_y (minima r) signal = Ok minimaintpy
    /\ length maximaintpy = (length (maxima r) + 2)%nat
    /\ length minimaintpy = (length (minima r) + 2)%nat
    /\ max_spline_points r
       = UnivariateSpline (anchored_x (maxima r) signal) maximaintpy
           (0, len signal)
           (if (length (maxima r) =? 1)%nat then 2 else 3) (xpts r)
    /\ min_spline_points r
       = UnivariateSpline (anchored_x (minima r) signal) minimaintpy
           (0, len signal)
           (if (length (minima r) =? 1)%nat then 2 else 3) (xpts r)
    /\ Sorted Z.le (0 :: maxima r ++ [len signal - 1])
    /\ Sorted Z.le (0 :: minima r ++ [len signal - 1]).
Proof.
  intros Hne.
  destruct (find_extrema_and_prominence_run UnivariateSpline spline_shape
              signal order Hne)
    as (gmax & gmin & maxy & miny & Hgmax & Hgmin & Hmaxy & Hminy & Hrun).
  cbv zeta in Hrun, Hmaxy, Hminy.
  destruct (argmax_ok signal Hne) as [m [Hm Hm_in]].
  destruct (argmin_ok signal Hne) as [m' [Hm' Hm'_in]].
  rewrite Hgmax in Hm. rewrite Hgmin in Hm'.
  apply PhaseProperties.Ok_inj in Hm, Hm'. subst m m'.
  destruct (extrema_or_global_ascending gtb signal order gmax Hm_in)
    as [Hmax_asc Hmax_ne].
  destruct (extrema_or_global_ascending ltb signal order gmin Hm'_in)
    as [Hmin_asc Hmin_ne].
  fold (relative_maxima signal order) in Hmax_asc, Hmax_ne.
  fold (relative_minima signal order) in Hmin_asc, Hmin_ne.
  set (mx := extrema_or_global (relative_maxima signal order) gmax) in *.
  set (mn := extrema_or_global (relative_minima signal order) gmin) in *.
  destruct (anchored_y_ok mx signal Hmax_ne (proj2 (proj2 Hmax_asc)))
    as [maxy' [Hmaxy' Hmaxlen]].
  destruct (anchored_y_ok mn signal Hmin_ne (proj2 (proj2 Hmin_asc)))
    as [miny' [Hminy' Hminlen]].
  rewrite Hmaxy in Hmaxy'. rewrite Hminy in Hminy'.
  apply PhaseProperties.Ok_inj in Hmaxy', Hminy'. subst maxy' miny'.
  assert (Hlen1 : 1 <= len signal).
  { destruct signal; [congruence|]. unfold len. simpl length. lia. }
  eexists. exists maxy, miny.
  split; [exact Hrun|]. cbn [maxima minima max_spline_points
                               min_spline_points xpts].
  split; [exact Hmaxy|]. split; [exact Hminy|].
  split; [exact Hmaxlen|]. split; [exact Hminlen|].
  assert (Hmx : 1 <= Z.of_nat (length mx))
    by (destruct mx; [congruence|simpl length; lia]).
  assert (Hmn : 1 <= Z.of_nat (length mn))
    by (destruct mn; [congruence|simpl length; lia]).
  split.
  { rewrite fit_envelope_spline by (unfold len; rewrite Hmaxlen; lia).
    f_equal. unfold len. rewrite Hmaxlen.
    destruct (Nat.eqb_spec (length mx) 1) as [E|E].
    - rewrite E. reflexivity.
    - destruct (Z.eqb_spec (Z.of_nat (length mx + 2)) 3); [lia|reflexivity]. }
  split.
  { rewrite fit_envelope_spline by (unfold len; rewrite Hminlen; lia).
    f_equal. unfold len. rewrite Hminlen.
    destruct (Nat.eqb_spec (length mn) 1) as [E|E].
    - rewrite E. reflexivity.
    - destruct (Z.eqb_spec (Z.of_nat (length mn + 2)) 3); [lia|reflexivity]. }
  split; now apply anchored_x_sorted.
Qed.

Lemma find_extrema_and_prominence_spline_calls_witness :
  exists r maximaintpy minimaintpy,
    find_extrema_and_prominence interpolating_spline doctest_signal 2 = Ok r
    /\ anchored_y (maxima r) doctest_signal = Ok maximaintpy
    /\ anchored_y (minima r) doctest_signal = Ok minimaintpy
    /\ length maximaintpy = (length (maxima r) + 2)%nat
    /\ length minimaintpy = (length (minima r) + 2)%nat
    /\ max_spline_points r
       = interpolating_spline (anchored_x (maxima r) doctest_signal)
           maximaintpy (0, len doctest_signal)
           (if (length (maxima r) =? 1)%nat then 2 else 3) (xpts r)
    /\ min_spline_points r
       = interpolating_spline (anchored_x (minima r) doctest_signal)
           minimaintpy (0, len doctest_signal)
           (if (length (minima r) =? 1)%nat then 2 else 3) (xpts r)
    /\ Sorted Z.le (0 :: maxima r ++ [len doctest_signal - 1])
    /\ Sorted Z.le (0 :: minima r ++ [len doctest_signal - 1]).
Proof.
  apply (find_extrema_and_prominence_spline_calls interpolating_spline
           interpolating_spline_shape doctest_signal 2).
  discriminate.
Defined.

(** ** Relative extrema dominate their neighbourhood *)

Lemma take_clip_nth data indices i :
  (i < length indices)%nat ->
  nth i (take_clip data indices) NaN = sample data (nth i indices 0).
Proof.
  intros Hi. unfold take_clip, sample.
  rewrite (nth_indep _ NaN (nth (Z.to_nat (clip 0 0 (len data - 1))) data NaN))
    by (now rewrite length_map).
  now rewrite (map_nth (fun i => nth (Z.to_nat (clip i 0 (len data - 1)))
                                     data NaN)).
Qed.

Lemma arange_nth n i : (i < n)%nat -> nth i (arange n) 0 = Z.of_nat i.
Proof.
  intros Hi. unfold arange.
  rewrite (nth_indep _ 0 (Z.of_nat 0)) by (now rewrite length_map, length_seq).
  rewrite (map_nth Z.of_nat). now rewrite seq_nth.
Qed.

Lemma shifted_nth n i delta :
  (i < n)%nat ->
  nth i (map (fun l => l + delta) (arange n)) 0 = Z.of_nat i + delta.
Proof.
  intros Hi.
  rewrite (nth_indep _ 0 (0 + delta)) by (now rewrite length_map, arange_length).
  rewrite (map_nth (fun l => l + delta)). now rewrite arange_nth.
Qed.

Lemma existsb_false_nth (l : list bool) i :
  existsb (fun b => b) l = false -> nth i l false = false.
Proof.
  revert i. induction l as [|b l IH]; intros [|i] H; simpl in *;
    try reflexivity; apply orb_false_iff in H; destruct H; auto.
Qed.

(** The loop, early exit included, computes the conjunction over all the
    shifts. *)
Lemma boolrelextrema_loop_nth comparator data shifts : forall results i,
  length results = length data ->
  (i < length data)%nat ->
  nth i (boolrelextrema_loop comparator data shifts results) false
  = nth i results false
    && forallb (fun shift =>
                  comparator (sample data (Z.of_nat i))
                             (sample data (Z.of_nat i + shift))
                  && comparator (sample data (Z.of_nat i))
                                (sample data (Z.of_nat i - shift)))
               shifts.
Proof.
  induction shifts as [|shift rest IH]; intros results i Hlen Hi;
    cbn [boolrelextrema_loop forallb]; [now rewrite andb_true_r|].
  set (step := and_arrays (and_arrays results _) _).
  assert (Hstep_len : length step = length data).
  { unfold step, and_arrays.
    rewrite !zip_with_length, !take_clip_length, !length_map, arange_length.
    lia. }
  assert (Hstep : nth i step false
                  = nth i results false
                    && (comparator (sample data (Z.of_nat i))
                                   (sample data (Z.of_nat i + shift))
                        && comparator (sample data (Z.of_nat i))
                                      (sample data (Z.of_nat i - shift)))).
  { unfold step, and_arrays.
    rewrite (zip_with_nth andb _ _ i false false false);
      [|rewrite !zip_with_length, !take_clip_length, ?length_map,
          arange_length; lia
       |rewrite !zip_with_length, !take_clip_length, ?length_map,
          arange_length; lia].
    rewrite (zip_with_nth andb _ _ i false false false);
      [|lia
       |rewrite !zip_with_length, !take_clip_length, ?length_map,
          arange_length; lia].
    rewrite !(zip_with_nth comparator _ _ i NaN NaN false)
      by (rewrite !take_clip_length, ?length_map, arange_length; lia).
    rewrite !take_clip_nth
      by (rewrite ?length_map, arange_length; lia).
    rewrite arange_nth by lia.
    rewrite (shifted_nth _ _ shift) by lia.
    replace (nth i (map (fun l => l - shift) (arange (length data))) 0)
      with (Z.of_nat i - shift).
    - now rewrite andb_assoc.
    - replace (map (fun l => l - shift) (arange (length data)))
        with (map (fun l => l + - shift) (arange (length data)))
        by (apply map_ext; intros; lia).
      rewrite shifted_nth by lia. lia. }
  destruct (negb (existsb (fun b => b) step)) eqn:Eexit.
  - apply negb_true_iff in Eexit.
    pose proof (existsb_false_nth step i Eexit) as Hfalse.
    rewrite Hfalse. rewrite Hstep in Hfalse.
    rewrite andb_assoc, Hfalse. reflexivity.
  - rewrite IH by assumption. rewrite Hstep. now rewrite !andb_assoc.
Qed.

Lemma nonzero_In mask i :
  In i (nonzero mask)
  <-> 0 <= i <= len mask - 1 /\ nth (Z.to_nat i) mask false = true.
Proof.
  unfold nonzero. rewrite filter_In. split.
  - intros [Hin Hi]. split; [|exact Hi].
    apply arange_bounds in Hin. unfold len. lia.
  - intros [Hin Hi]. split; [|exact Hi].
    unfold arange. apply in_map_iff. exists (Z.to_nat i).
    split; [lia|]. apply in_seq. unfold len in Hin. lia.
Qed.

Lemma forallb_shifts (p : Z -> bool) order :
  forallb p (map (fun s => Z.of_nat s) (seq 1 (Z.to_nat order))) = true
  <-> forall shift, 1 <= shift <= order -> p shift = true.
Proof.
  rewrite forallb_forall. split.
  - intros H shift Hshift. apply H. apply in_map_iff.
    exists (Z.to_nat shift). split; [lia|]. apply in_seq. lia.
  - intros H shift Hin. apply in_map_iff in Hin.
    destruct Hin as [s [<- Hs]]. apply in_seq in Hs. apply H. lia.
Qed.

Lemma argrelextrema_dominates comparator data order found :
  1 <= order ->
  argrelextrema comparator data order = Ok found ->
  forall i, In i found
            <-> 0 <= i <= len data - 1 /\ dominates comparator data order i.
Proof.
  intros Horder Hrun i. unfold argrelextrema, boolrelextrema in Hrun.
  destruct (order <? 1) eqn:E; [lia|]. cbn [bind] in Hrun.
  apply PhaseProperties.Ok_inj in Hrun. subst found.
  set (results := boolrelextrema_loop _ _ _ _).
  assert (Hlen : length results = length data).
  { apply boolrelextrema_loop_length. apply repeat_length. }
  rewrite nonzero_In. unfold len. rewrite Hlen.
  split; intros [Hin Hi]; (split; [exact Hin|]).
  - unfold results in Hi.
    rewrite boolrelextrema_loop_nth in Hi
      by (rewrite ?repeat_length; lia).
    apply andb_true_iff in Hi. destruct Hi as [_ Hi].
    rewrite Z2Nat.id in Hi by lia.
    intros shift Hshift.
    pose proof (proj1 (forallb_shifts _ order) Hi shift Hshift) as H.
    cbv beta in H. now apply andb_true_iff in H.
  - unfold results.
    rewrite boolrelextrema_loop_nth by (rewrite ?repeat_length; lia).
    apply andb_true_iff. split.
    + apply nth_repeat_lt. lia.
    + rewrite Z2Nat.id by lia. apply forallb_shifts.
      intros shift Hshift. apply andb_true_iff. now apply Hi.
Qed.

(** For an order of at least 1, the relative maxima are exactly the indices
    whose sample is strictly greater than both neighbours at every distance
    up to the order (the neighbour beyond an end being the end sample), and
    likewise the relative minima with strictly smaller; an order below 1 is
    a [ValueError]. *)
Theorem relative_extrema_dominate (signal : ndarray) (order : Z) :
  (1 <= order ->
   exists highs lows,
     relative_maxima signal order = Ok highs
     /\ relative_minima signal order = Ok lows
     /\ (forall i, In i highs
                   <-> 0 <= i <= len signal - 1
                       /\ dominates gtb signal order i)
     /\ (forall i, In i lows
                   <-> 0 <= i <= len signal - 1
                       /\ dominates ltb signal order i))
  /\ (order < 1 ->
      relative_maxima signal order = Raise ValueError
      /\ relative_minima signal order = Raise ValueError).
Proof.
  split.
  - intros Horder. unfold relative_maxima, relative_minima.
    destruct (argrelextrema_ok gtb signal order Horder) as [highs [Hh _]].
    destruct (argrelextrema_ok ltb signal order Horder) as [lows [Hl _]].
    exists highs, lows. split; [exact Hh|]. split; [exact Hl|].
    split; now apply argrelextrema_dominates.
  - intros Horder. unfold relative_maxima, relative_minima.
    split; now apply argrelextrema_raises.
Qed.

Lemma relative_extrema_dominate_witness :
  exists highs lows,
    relative_maxima doctest_signal 2 = Ok highs
    /\ relative_minima doctest_signal 2 = Ok lows
    /\ (forall i, In i highs
                  <-> 0 <= i <= len doctest_signal - 1
                      /\ dominates gtb doctest_signal 2 i)
    /\ (forall i, In i lows
                  <-> 0 <= i <= len doctest_signal - 1
                      /\ dominates ltb doctest_signal 2 i).
Proof.
  apply (proj1 (relative_extrema_dominate doctest_signal 2)). lia.
Defined.

Lemma ltb_asymmetric x y : ltb x y = true -> ltb y x = false.
Proof.
  destruct x as [a| | |], y as [b| | |]; cbn [ltb]; try discriminate;
    try reflexivity.
  intros H. apply Qltb_lt in H. apply Qltb_ge. Lqa.lra.
Qed.

Lemma ltb_irreflexive x : ltb x x = false.
Proof.
  destruct x as [a| | |]; cbn [ltb]; try reflexivity.
  apply Qltb_ge. Lqa.lra.
Qed.

Lemma sample_inside data i :
  0 <= i <= len data - 1 -> sample data i = nth (Z.to_nat i) data NaN.
Proof.
  intros Hi. unfold sample, clip. f_equal. f_equal. lia.
Qed.

(** Two indices that both dominate, for a strict comparison, are more than
    [order] apart, and neither is at an end of the signal. *)
Lemma dominating_separated comparator data order i j :
  (forall x y, comparator x y = true -> comparator y x = false) ->
  0 <= i <= len data - 1 -> 0 <= j <= len data - 1 ->
  dominates comparator data order i ->
  dominates comparator data order j ->
  i < j -> order < j - i.
Proof.
  intros Hasym Hi Hj Hdi Hdj Hlt.
  destruct (Z_lt_le_dec order (j - i)) as [|Hclose]; [assumption|].
  exfalso.
  destruct (Hdi (j - i) ltac:(lia)) as [Hup _].
  destruct (Hdj (j - i) ltac:(lia)) as [_ Hdown].
  replace (i + (j - i)) with j in Hup by lia.
  replace (j - (j - i)) with i in Hdown by lia.
  apply Hasym in Hup. congruence.
Qed.

Lemma dominating_not_at_end comparator data order i :
  (forall x, comparator x x = false) ->
  1 <= order ->
  0 <= i <= len data - 1 ->
  dominates comparator data order i ->
  0 < i < len data - 1.
Proof.
  intros Hirr Horder Hi Hd.
  destruct (Hd 1 ltac:(lia)) as [Hup Hdown].
  assert (Hne0 : i <> 0).
  { intros ->. unfold sample, clip in Hdown.
    replace (Z.max 0 (Z.min (0 - 1) (len data - 1))) with
      (Z.max 0 (Z.min 0 (len data - 1))) in Hdown by lia.
    rewrite Hirr in Hdown. discriminate. }
  assert (Hne1 : i <> len data - 1).
  { intros ->. unfold sample, clip in Hup.
    replace (Z.max 0 (Z.min (len data - 1 + 1) (len data - 1))) with
      (Z.max 0 (Z.min (len data - 1) (len data - 1))) in Hup by lia.
    rewrite Hirr in Hup. discriminate. }
  lia.
Qed.

Lemma extrema_or_global_separated comparator data order global :
  (forall x y, comparator x y = true -> comparator y x = false) ->
  (forall x, comparator x x = false) ->
  let kept := extrema_or_global (argrelextrema comparator data order) global in
  (forall i j, In i kept -> In j kept -> i < j -> order < j - i)
  /\ (forall i, In i kept -> i = 0 \/ i = len data - 1 -> kept = [i]).
Proof.
  intros Hasym Hirr kept. unfold kept, extrema_or_global.
  destruct (Z_lt_le_dec order 1) as [Hlow|Hhigh].
  - rewrite (argrelextrema_raises _ _ _ Hlow). split.
    + intros i j [<-|[]] [<-|[]] Hlt. lia.
    + intros i [<-|[]] _. reflexivity.
  - destruct (argrelextrema_ok comparator data order Hhigh)
      as [found [Hfound _]].
    pose proof (argrelextrema_dominates comparator data order found
                  Hhigh Hfound) as Hdom.
    rewrite Hfound. destruct found as [|k rest].
    + split.
      * intros i j [<-|[]] [<-|[]] Hlt. lia.
      * intros i [<-|[]] _. reflexivity.
    + split.
      * intros i j Hi Hj Hlt. apply Hdom in Hi, Hj.
        destruct Hi as [Hi Hdi]. destruct Hj as [Hj Hdj].
        now apply (dominating_separated comparator data order i j).
      * intros i Hi Hend. apply Hdom in Hi. destruct Hi as [Hi Hdi].
        pose proof (dominating_not_at_end comparator data order i Hirr
                      Hhigh Hi Hdi).
        lia.
Qed.

(** In the result of [find_extrema_and_prominence], any two maxima are more
    than [order] apart, and so are any two minima; an extremum at the first
    or the last index of the signal can only be the global fallback, and is
    then the only one. *)
Theorem find_extrema_and_prominence_separation
  (UnivariateSpline : ndarray -> ndarray -> Z * Z -> Z -> spline)
  (spline_shape : forall x y bbox k arg,
      length (UnivariateSpline x y bbox k arg) = length arg)
  (signal : ndarray) (order : Z) :
  signal <> [] ->
  exists r,
    find_extrema_and_prominence UnivariateSpline signal order = Ok r
    /\ (forall i j, In i (maxima r) -> In j (maxima r) -> i < j ->
                    order < j - i)
    /\ (forall i j, In i (minima r) -> In j (minima r) -> i < j ->
                    order < j - i)
    /\ (forall i, In i (maxima r) -> i = 0 \/ i = len signal - 1 ->
                  maxima r = [i])
    /\ (forall i, In i (minima r) -> i = 0 \/ i = len signal - 1 ->
                  minima r = [i]).
Proof.
  intros Hne.
  destruct (find_extrema_and_prominence_run UnivariateSpline spline_shape
              signal order Hne)
    as (gmax & gmin & maxy & miny & _ & _ & _ & _ & Hrun).
  cbv zeta in Hrun. eexists. split; [exact Hrun|].
  cbn [maxima minima]. unfold relative_maxima, relative_minima.
  assert (Hgt_asym : forall x y, gtb x y = true -> gtb y x = false)
    by (intros x y; unfold gtb; apply ltb_asymmetric).
  assert (Hgt_irr : forall x, gtb x x = false)
    by (intros x; unfold gtb; apply ltb_irreflexive).
  destruct (extrema_or_global_separated gtb signal order gmax
              Hgt_asym Hgt_irr) as [Hmax_sep Hmax_end].
  destruct (extrema_or_global_separated ltb signal order gmin
              ltb_asymmetric ltb_irreflexive) as [Hmin_sep Hmin_end].
  repeat split; assumption.
Qed.

Lemma find_extrema_and_prominence_separation_witness :
  exists r,
    find_extrema_and_prominence interpolating_spline doctest_signal 2 = Ok r
    /\ (forall i j, In i (maxima r) -> In j (maxima r) -> i < j -> 2 < j - i)
    /\ (forall i j, In i (minima r) -> In j (minima r) -> i < j -> 2 < j - i)
    /\ (forall i, In i (maxima r) -> i = 0 \/ i = len doctest_signal - 1 ->
                  maxima r = [i])
    /\ (forall i, In i (minima r) -> i = 0 \/ i = len doctest_signal - 1 ->
                  minima r = [i]).
Proof.
  apply (find_extrema_and_prominence_separation interpolating_spline
           interpolating_spline_shape doctest_signal 2).
  discriminate.
Defined.

(** ** outliers and remove_outliers *)

Module OutliersProperties.

Import Outliers OutliersProofs.
Local Open Scope R_scope.

Lemma outliers_run h data a times_std :
  nth_error h data = Some a ->
  outliers data times_std h
  = Some (map (fun x => Rgtb (Rabs (x - median_of (values a)))
                             (times_std * std_of (values a)))
              (values a), h).
Proof.
  intros Hdata. unfold outliers, mbind, read, ret. now rewrite Hdata.
Qed.

(** What [threshold_outliers] changes is flagged by [outliers]: a value
    with a false mask is returned as it is, whatever [times_std]. *)
Theorem threshold_outliers_keeps_unflagged (h : store) (data : ref)
  (a : array) (times_std : R) :
  nth_error h data = Some a ->
  exists mask out h' a',
    outliers data times_std h = Some (mask, h)
    /\ threshold_outliers data times_std h = Some (out, h')
    /\ nth_error h' out = Some a'
    /\ (forall i x y,
          nth_error (values a) i = Some x ->
          nth_error (values a') i = Some y ->
          nth_error mask i = Some false -> y = x).
Proof.
  intros Hdata.
  eexists. exists (length h), (h ++ [clamped a times_std]),
    (clamped a times_std).
  split; [apply outliers_run; exact Hdata|].
  split; [apply threshold_outliers_run; exact Hdata|].
  split; [apply nth_error_snoc|].
  rewrite clamped_values. cbv zeta.
  set (median := median_of (values a)) in *.
  set (bound := times_std * std_of (values a)) in *.
  intros i x y Hx Hy Hmask.
  rewrite nth_error_map, Hx in Hy. cbn [option_map] in Hy.
  rewrite nth_error_map, Hx in Hmask. cbn [option_map] in Hmask.
  injection Hy as <-. injection Hmask as Hmask.
  unfold Rgtb in Hmask.
  destruct (Rgt_dec (Rabs (x - median)) bound) as [|Hin]; [discriminate|].
  rewrite (Rgtb_false (x - median) bound)
    by (pose proof (Rle_abs (x - median)); Lra.lra).
  rewrite (Rgtb_false (Rabs (x - median)) bound) by Lra.lra.
  now rewrite andb_false_r.
Qed.

Lemma threshold_outliers_keeps_unflagged_witness :
  exists mask out h' a',
    outliers 0%nat 1 [FloatArray [10; 9; 40]]
    = Some (mask, [FloatArray [10; 9; 40]])
    /\ threshold_outliers 0%nat 1 [FloatArray [10; 9; 40]] = Some (out, h')
    /\ nth_error h' out = Some a'
    /\ (forall i x y,
          nth_error (values (FloatArray [10; 9; 40])) i = Some x ->
          nth_error (values a') i = Some y ->
          nth_error mask i = Some false -> y = x).
Proof.
  apply (threshold_outliers_keeps_unflagged [FloatArray [10; 9; 40]] 0%nat
           (FloatArray [10; 9; 40]) 1).
  reflexivity.
Defined.

Lemma select_items_filter {A : Type} (g : A -> R) (q : R -> bool) (l : list A) :
  map g (select_items l (map q (map g l))) = filter q (map g l).
Proof.
  induction l as [|x l IH]; cbn [map select_items filter]; [reflexivity|].
  destruct (q (g x)); cbn [map]; now rewrite IH.
Qed.

Lemma select_values a (q : R -> bool) :
  values (select a (map q (values a))) = filter q (values a).
Proof.
  destruct a as [l|l]; cbn [select values].
  - apply select_items_filter.
  - rewrite <- (map_id l) at 1 3.
    rewrite <- (select_items_filter (fun x => x) q l) at 1.
    now rewrite !map_id.
Qed.

Lemma remove_outliers_run h data a times_std :
  nth_error h data = Some a ->
  remove_outliers data times_std h
  = Some (length h,
          h ++ [select a
                  (map (fun x =>
                          negb (Rgtb (Rabs (x - median_of (values a)))
                                     (times_std * std_of (values a))))
                       (values a))]).
Proof.
  intros Hdata. unfold remove_outliers, mbind.
  rewrite (outliers_run h data a times_std Hdata).
  unfold read, alloc. rewrite Hdata. now rewrite map_map.
Qed.

(** [remove_outliers] returns a new array, of the dtype of its argument,
    with exactly the values of the argument within [times_std * std] of the
    median, in their order; the argument and every other array are left as
    they were. *)
Theorem remove_outliers_keeps (h : store) (data : ref) (a : array)
  (times_std : R) :
  nth_error h data = Some a ->
  exists out h' a',
    remove_outliers data times_std h = Some (out, h')
    /\ nth_error h out = None
    /\ (forall r b, nth_error h r = Some b -> nth_error h' r = Some b)
    /\ nth_error h' out = Some a'
    /\ dtype_of a' = dtype_of a
    /\ values a'
       = filter (fun x => negb (Rgtb (Rabs (x - median_of (values a)))
                                     (times_std * std_of (values a))))
                (values a)
    /\ Forall (fun y => Rabs (y - median_of (values a))
                        <= times_std * std_of (values a))
              (values a').
Proof.
  intros Hdata.
  eexists. eexists. eexists.
  split; [apply remove_outliers_run; exact Hdata|].
  split; [apply nth_error_None; apply Nat.le_refl|].
  split; [intros r b Hr; now apply nth_error_kept|].
  split; [apply nth_error_snoc|].
  split; [now destruct a|].
  assert (Hvalues := select_values a
            (fun x => negb (Rgtb (Rabs (x - median_of (values a)))
                                 (times_std * std_of (values a))))).
  split; [exact Hvalues|].
  rewrite Hvalues. apply Forall_forall. intros y Hy.
  apply filter_In in Hy. destruct Hy as [_ Hy].
  apply negb_true_iff in Hy. unfold Rgtb in Hy.
  destruct (Rgt_dec _ _); [discriminate|]. Lra.lra.
Qed.

Lemma remove_outliers_keeps_witness :
  exists out h' a',
    remove_outliers 0%nat 1 [doctest_data] = Some (out, h')
    /\ nth_error [doctest_data] out = None
    /\ (forall r b, nth_error [doctest_data] r = Some b ->
                    nth_error h' r = Some b)
    /\ nth_error h' out = Some a'
    /\ dtype_of a' = dtype_of doctest_data
    /\ values a'
       = filter (fun x =>
                   negb (Rgtb (Rabs (x - median_of (values doctest_data)))
                              (1 * std_of (values doctest_data))))
                (values doctest_data)
    /\ Forall (fun y => Rabs (y - median_of (values doctest_data))
                        <= 1 * std_of (values doctest_data))
              (values a').
Proof.
  apply (remove_outliers_keeps [doctest_data] 0%nat doctest_data 1).
  reflexivity.
Defined.

(** The doctests of [outliers] and [remove_outliers]. *)
Example outliers_doctest :
  outliers 0%nat 1 [doctest_data]
  = Some ([false; false; false; true; false; false; false; false],
          [doctest_data]).
Proof.
  rewrite (outliers_run [doctest_data] 0%nat doctest_data 1 eq_refl).
  f_equal. f_equal. rewrite doctest_median.
  pose proof doctest_std as Hstd.
  set (std := std_of (values doctest_data)) in *.
  unfold doctest_data. cbn [values map]. decide_masks. reflexivity.
Qed.

Example remove_outliers_doctest :
  remove_outliers 0%nat 1 [doctest_data]
  = Some (1%nat, [doctest_data; IntArray [10; 9; 11; 8; 12; 14; 7]%Z]).
Proof.
  rewrite (remove_outliers_run [doctest_data] 0%nat doctest_data 1 eq_refl).
  f_equal. f_equal. cbn [app]. f_equal. f_equal.
  rewrite doctest_median.
  pose proof doctest_std as Hstd.
  set (std := std_of (values doctest_data)) in *.
  unfold doctest_data. cbn [values map]. decide_masks. reflexivity.
Qed.

End OutliersProperties.

(** ** one_every_n *)

Module UtilitiesProofs.

Import Utilities.

Lemma set_nth_length {A : Type} i (l : list A) value :
  length (set_nth i l value) = length l.
Proof.
  revert i. induction l as [|x l IH]; intros [|i]; simpl; auto.
Qed.

Lemma set_nth_same {A : Type} i (l : list A) value d :
  (i < length l)%nat -> nth i (set_nth i l value) d = value.
Proof.
  revert i. induction l as [|x l IH]; intros [|i] Hi; simpl in *;
    try lia; auto.
  apply IH. lia.
Qed.

Lemma set_nth_other {A : Type} i j (l : list A) value d :
  i <> j -> nth j (set_nth i l value) d = nth j l d.
Proof.
  revert i j. induction l as [|x l IH]; intros [|i] [|j] Hij; simpl;
    try reflexivity; try congruence.
  apply IH. congruence.
Qed.

(** Assigning at index positions within range writes exactly there. *)
Lemma put_all_within indices value : forall signal,
  Forall (fun i => 0 <= i < len signal) indices ->
  exists out,
    put_all signal indices value = Done out
    /\ length out = length signal
    /\ forall j, (j < length signal)%nat ->
         (In (Z.of_nat j) indices -> nth j out NaN = value)
         /\ (~ In (Z.of_nat j) indices -> nth j out NaN = nth j signal NaN).
Proof.
  induction indices as [|i rest IH]; intros signal Hall; cbn [put_all].
  - exists signal. split; [reflexivity|]. split; [reflexivity|].
    intros j Hj. split; [intros []|reflexivity].
  - inversion Hall as [|? ? Hi Hrest]; subst.
    destruct (i <? 0) eqn:Eneg; [apply Z.ltb_lt in Eneg; lia|].
    destruct ((i <? 0) || (len signal <=? i)) eqn:Eout.
    { apply orb_true_iff in Eout. destruct Eout as [E|E];
        [apply Z.ltb_lt in E|apply Z.leb_le in E]; lia. }
    destruct (IH (set_nth (Z.to_nat i) signal value)) as (out & Hrun & Hlen & Hnth).
    { unfold len. rewrite set_nth_length. exact Hrest. }
    exists out. split; [exact Hrun|].
    rewrite set_nth_length in Hlen. split; [exact Hlen|].
    intros j Hj. rewrite set_nth_length in Hnth.
    destruct (Hnth j Hj) as [Hin Hout]. split.
    + intros [->|Hj_in]; [|now apply Hin].
      destruct (in_dec Z.eq_dec (Z.of_nat j) rest) as [Hin'|Hout'];
        [now apply Hin|].
      rewrite (Hout Hout'). rewrite Nat2Z.id. now apply set_nth_same.
    + intros Hnot. rewrite Hout by (intros H; apply Hnot; now right).
      apply set_nth_other. intros E. apply Hnot. left. lia.
Qed.

Lemma wrap32_small z : 0 <= z < 2 ^ 31 -> wrap32 z = z.
Proof.
  intros Hz. unfold wrap32.
  rewrite Z.mod_small by lia. lia.
Qed.

(** The positions [arange] visits for a positive step: those below [stop]
    that differ from [start] by a multiple of the step. *)
Lemma arange_step_In start stop step i :
  0 < step -> 0 <= start -> stop < 2 ^ 31 ->
  In i (arange_step start stop step)
  <-> start <= i < stop /\ (i - start) mod step = 0.
Proof.
  intros Hstep Hstart Hstop. unfold arange_step.
  destruct (0 <? step) eqn:E; [|apply Z.ltb_ge in E; lia]. clear E.
  set (count := (stop - start + step - 1) / step).
  assert (Hcount : step * count <= stop - start + step - 1
                   < step * count + step).
  { unfold count.
    pose proof (Z.mul_div_le (stop - start + step - 1) step Hstep).
    pose proof (Z.mul_succ_div_gt (stop - start + step - 1) step Hstep).
    lia. }
  rewrite in_map_iff. split.
  - intros [k [Hk Hin]]. apply in_seq in Hin.
    assert (Hk' : Z.of_nat k < count) by lia.
    assert (Hbound : start + Z.of_nat k * step < stop) by nia.
    rewrite wrap32_small in Hk by nia. subst i.
    split; [nia|].
    replace (start + Z.of_nat k * step - start) with (Z.of_nat k * step)
      by lia.
    apply Z_mod_mult.
  - intros [Hi Hmod].
    apply Z.mod_divide in Hmod; [|lia]. destruct Hmod as [q Hq].
    assert (Hq0 : 0 <= q) by nia.
    exists (Z.to_nat q). split.
    + rewrite Z2Nat.id by lia. rewrite wrap32_small by lia. lia.
    + apply in_seq. assert (q < count) by nia. lia.
Qed.

Lemma arange_step_backwards start stop step :
  step < 0 -> step < start <= 0 -> 0 <= stop ->
  arange_step start stop step = [].
Proof.
  intros Hstep Hstart Hstop. unfold arange_step.
  destruct (0 <? step) eqn:E; [apply Z.ltb_lt in E; lia|].
  assert (Hcount : (stop - start + step + 1) / step <= 0).
  { destruct (Z_le_gt_dec ((stop - start + step + 1) / step) 0) as [|Hpos];
      [assumption|].
    exfalso.
    pose proof (Z.div_mod (stop - start + step + 1) step ltac:(lia)) as Hdm.
    pose proof (Z.mod_neg_bound (stop - start + step + 1) step Hstep).
    nia. }
  replace (Z.to_nat ((stop - start + step + 1) / step)) with O by lia.
  reflexivity.
Qed.

(** For a length within int32 and a positive [n], [one_every_n] returns
    an array of that length with 1 exactly at the positions congruent to
    [shift] modulo [n]; for a negative [n] the array is all zeros, and for
    [n = 0] the call ends in a [ZeroDivisionError]. *)
Theorem one_every_n_marks (length n shift : Z) :
  0 <= length < 2 ^ 31 ->
  (n <> 0 ->
   exists signal,
     one_every_n length n shift = Done signal
     /\ len signal = length
     /\ forall i, 0 <= i < length ->
          nth (Z.to_nat i) signal NaN
          = if (0 <? n) && ((i - shift) mod n =? 0) then Fin 1 else Fin 0)
  /\ (n = 0 -> one_every_n length n shift = Failed ZeroDivisionError).
Proof.
  intros Hlength.
  assert (Hzeros : zeros length = Done (repeat (Fin 0) (Z.to_nat length))).
  { unfold zeros. destruct (length <? 0) eqn:E;
      [apply Z.ltb_lt in E; lia|reflexivity]. }
  assert (Hlen : len (repeat (Fin 0) (Z.to_nat length)) = length).
  { unfold len. rewrite repeat_length. lia. }
  split.
  - intros Hn. unfold one_every_n. rewrite Hzeros. cbn [and_then].
    unfold py_mod. destruct (n =? 0) eqn:E; [apply Z.eqb_eq in E; lia|].
    cbn [and_then]. rewrite Hlen.
    destruct (Z_lt_le_dec n 0) as [Hneg|Hpos].
    + pose proof (Z.mod_neg_bound shift n Hneg).
      rewrite arange_step_backwards by lia. cbn [filter put_all].
      eexists. split; [reflexivity|]. split; [exact Hlen|].
      intros i Hi. destruct (0 <? n) eqn:E0; [apply Z.ltb_lt in E0; lia|].
      cbn [andb]. apply nth_repeat_lt. lia.
    + assert (Hn' : 0 < n) by lia.
      pose proof (Z.mod_pos_bound shift n Hn') as Hstart.
      set (start := shift mod n) in *.
      set (kept := filter (fun i => i <? length)
                          (arange_step start length n)).
      assert (Hkept : forall i, In i kept
                                <-> start <= i < length
                                    /\ (i - start) mod n = 0).
      { intros i. unfold kept. rewrite filter_In.
        rewrite (arange_step_In start length n i) by lia.
        rewrite Z.ltb_lt. intuition lia. }
      destruct (put_all_within kept (Fin 1)
                  (repeat (Fin 0) (Z.to_nat length)))
        as (out & Hrun & Hout_len & Hnth).
      { apply Forall_forall. intros i Hi. apply Hkept in Hi.
        rewrite Hlen. lia. }
      exists out. split; [exact Hrun|].
      split; [unfold len in *; rewrite Hout_len; exact Hlen|].
      intros i Hi.
      destruct (Hnth (Z.to_nat i)) as [Hin Hout].
      { rewrite repeat_length. lia. }
      rewrite Z2Nat.id in Hin, Hout by lia.
      destruct (0 <? n) eqn:E0; [|apply Z.ltb_ge in E0; lia]. cbn [andb].
      assert (Hsame : (i - start) mod n = (i - shift) mod n).
      { unfold start. now rewrite Zminus_mod_idemp_r. }
      destruct ((i - shift) mod n =? 0) eqn:Emod.
      * apply Z.eqb_eq in Emod. apply Hin. apply Hkept.
        rewrite Hsame. split; [|exact Emod].
        rewrite <- Hsame in Emod.
        apply Z.mod_divide in Emod; [|lia]. destruct Emod as [q Hq].
        assert (0 <= q) by nia. nia.
      * apply Z.eqb_neq in Emod. rewrite Hout.
        -- apply nth_repeat_lt. lia.
        -- intros Hi_in. apply Hkept in Hi_in. rewrite Hsame in Hi_in. lia.
  - intros ->. unfold one_every_n. rewrite Hzeros. reflexivity.
Qed.

Lemma one_every_n_marks_witness :
  (2 <> 0 ->
   exists signal,
     one_every_n 10 2 1 = Done signal
     /\ len signal = 10
     /\ forall i, 0 <= i < 10 ->
          nth (Z.to_nat i) signal NaN
          = if (0 <? 2) && ((i - 1) mod 2 =? 0) then Fin 1 else Fin 0)
  /\ (2 = 0 -> one_every_n 10 2 1 = Failed ZeroDivisionError).
Proof.
  apply (one_every_n_marks 10 2 1). lia.
Defined.

(** The doctests of [one_every_n]. *)
Example one_every_n_doctest :
  one_every_n 10 2 0
  = Done (map of_Z [1; 0; 1; 0; 1; 0; 1; 0; 1; 0])
  /\ one_every_n 10 2 1
     = Done (map of_Z [0; 1; 0; 1; 0; 1; 0; 1; 0; 1]).
Proof. split; reflexivity. Qed.

End UtilitiesProofs.

(** ** each_image_slice *)

Module SlicesProofs.

Import Utilities.

Lemma slice_inside {A : Type} (l : list A) lo hi :
  0 <= lo <= hi -> hi <= len l ->
  slice l lo hi = firstn (Z.to_nat hi - Z.to_nat lo) (skipn (Z.to_nat lo) l).
Proof.
  intros Hlo Hhi. unfold slice, slice_bound, clip.
  destruct (lo <? 0) eqn:E1; [apply Z.ltb_lt in E1; lia|].
  destruct (hi <? 0) eqn:E2; [apply Z.ltb_lt in E2; lia|].
  replace (Z.max 0 (Z.min lo (len l))) with lo by lia.
  replace (Z.max 0 (Z.min hi (len l))) with hi by lia.
  reflexivity.
Qed.

Lemma firstn_plus {A : Type} (a b : nat) (l : list A) :
  firstn (a + b) l = firstn a l ++ firstn b (skipn a l).
Proof.
  revert l. induction a as [|a IH]; intros [|x l]; cbn [Nat.add firstn skipn app];
    try reflexivity.
  - now rewrite firstn_nil.
  - now rewrite IH.
Qed.

(** Consecutive slices of one width, put side by side, are the beginning
    of the list. *)
Lemma slices_concat {A : Type} (l : list A) (step : Z) (k : nat) :
  0 <= step -> step * Z.of_nat k <= len l ->
  concat (map (fun n => slice l (step * n) (step * (n + 1))) (arange k))
  = firstn (Z.to_nat (step * Z.of_nat k)) l.
Proof.
  intros Hstep. induction k as [|k IH]; intros Hfit.
  - cbn. now rewrite Z.mul_0_r.
  - unfold arange in *. rewrite seq_S, map_app, map_app, concat_app.
    cbn [map concat Nat.add]. rewrite app_nil_r.
    rewrite IH by nia.
    rewrite slice_inside by nia.
    replace (Z.to_nat (step * Z.of_nat (S k)))
      with (Z.to_nat (step * Z.of_nat k) + Z.to_nat step)%nat by nia.
    rewrite firstn_plus. f_equal. f_equal. nia.
Qed.

Lemma range_arange steps : range steps = arange (Z.to_nat steps).
Proof. reflexivity. Qed.

Import String.

(** [each_image_slice] with at least one step yields [steps] blocks of
    width [shape // steps], numbered from 0, which put side by side are the
    first [steps * (shape // steps)] rows (horizontal) or columns
    (vertical) of the image: the remaining [shape % steps] are in no block.
    With [steps = 0] it ends in a [ZeroDivisionError], and with any other
    direction in a [ValueError]. *)
Theorem each_image_slice_covers {A : Type} (img : image A) (steps : Z) :
  (1 <= steps ->
   (exists blocks,
       each_image_slice img steps "horizontal" = Done blocks
       /\ map fst blocks
          = map (fun n => (n, shape0 img / steps)) (range steps)
       /\ List.concat (map snd blocks)
          = firstn (Z.to_nat (shape0 img / steps * steps)) img)
   /\ (Forall (fun row => len row = shape1 img) img ->
       exists blocks,
         each_image_slice img steps "vertical" = Done blocks
         /\ map fst blocks
            = map (fun n => (n, shape1 img / steps)) (range steps)
         /\ forall i, (i < List.length img)%nat ->
              List.concat (map (fun blk => nth i (snd blk) []) blocks)
              = firstn (Z.to_nat (shape1 img / steps * steps))
                       (nth i img [])))
  /\ (steps = 0 ->
      each_image_slice img steps "horizontal" = Failed ZeroDivisionError
      /\ each_image_slice img steps "vertical" = Failed ZeroDivisionError)
  /\ (forall direction,
        direction <> "vertical"%string ->
        direction <> "horizontal"%string ->
        each_image_slice img steps direction
        = Failed (Exception ValueError)).
Proof.
  split; [|split].
  - intros Hsteps.
    assert (Hdiv : forall a, py_floordiv a steps = Done (a / steps)).
    { intros a. unfold py_floordiv.
      destruct (steps =? 0) eqn:E; [apply Z.eqb_eq in E; lia|reflexivity]. }
    assert (Hfit : forall a, 0 <= a ->
                     0 <= a / steps
                     /\ a / steps * Z.of_nat (Z.to_nat steps) <= a).
    { intros a Ha. split; [apply Z.div_pos; lia|].
      rewrite Z2Nat.id by lia.
      pose proof (Z.mul_div_le a steps ltac:(lia)). lia. }
    split.
    + unfold each_image_slice. cbn [String.eqb Ascii.eqb Bool.eqb].
      rewrite Hdiv. cbn [and_then].
      eexists. split; [reflexivity|].
      rewrite !map_map. cbn [fst snd]. split; [reflexivity|].
      destruct (Hfit (shape0 img) (len_nonneg img)) as [Hstep Hle].
      unfold rows, range.
      transitivity (firstn (Z.to_nat (shape0 img / steps
                                      * Z.of_nat (Z.to_nat steps))) img).
      * exact (slices_concat img (shape0 img / steps) (Z.to_nat steps)
                 Hstep Hle).
      * now rewrite Z2Nat.id by lia.
    + intros Hrect. unfold each_image_slice.
      cbn [String.eqb Ascii.eqb Bool.eqb]. rewrite Hdiv. cbn [and_then].
      eexists. split; [reflexivity|].
      rewrite !map_map. cbn [fst snd]. split; [reflexivity|].
      intros i Hi.
      destruct (Hfit (shape1 img) (len_nonneg (hd [] img))) as [Hstep Hle].
      assert (Hrow : len (nth i img []) = shape1 img).
      { rewrite Forall_forall in Hrect. apply Hrect. now apply nth_In. }
      rewrite map_map. cbn [snd]. unfold columns, range.
      transitivity
        (List.concat
           (map (fun n => slice (nth i img []) (shape1 img / steps * n)
                                (shape1 img / steps * (n + 1)))
                (arange (Z.to_nat steps)))).
      * f_equal. apply map_ext. intros n.
        rewrite (nth_indep _ [] (slice [] (shape1 img / steps * n)
                                          (shape1 img / steps * (n + 1))))
          by (now rewrite length_map).
        now rewrite (map_nth (fun row => slice row (shape1 img / steps * n)
                                               (shape1 img / steps * (n + 1)))).
      * transitivity (firstn (Z.to_nat (shape1 img / steps
                                        * Z.of_nat (Z.to_nat steps)))
                             (nth i img [])).
        -- apply (slices_concat (nth i img []) (shape1 img / steps)
                    (Z.to_nat steps) Hstep).
           rewrite Hrow. exact Hle.
        -- now rewrite Z2Nat.id by lia.
  - intros ->. split; reflexivity.
  - intros direction Hv Hh. unfold each_image_slice.
    apply String.eqb_neq in Hv, Hh. now rewrite Hv, Hh.
Qed.

Lemma each_image_slice_covers_witness :
  (exists blocks,
      each_image_slice [[1; 2; 3; 4; 5]; [6; 7; 8; 9; 10]; [0; 0; 0; 0; 0]]
        2 "horizontal" = Done blocks
      /\ map fst blocks = [(0, 1); (1, 1)]
      /\ List.concat (map snd blocks) = [[1; 2; 3; 4; 5]; [6; 7; 8; 9; 10]])
  /\ (Forall (fun row => len row = 5)
             [[1; 2; 3; 4; 5]; [6; 7; 8; 9; 10]; [0; 0; 0; 0; 0]] ->
      exists blocks,
        each_image_slice [[1; 2; 3; 4; 5]; [6; 7; 8; 9; 10]; [0; 0; 0; 0; 0]]
          2 "vertical" = Done blocks
        /\ map fst blocks = [(0, 2); (1, 2)]
        /\ forall i, (i < 3)%nat ->
             List.concat (map (fun blk => nth i (snd blk) []) blocks)
             = firstn 4 (nth i [[1; 2; 3; 4; 5]; [6; 7; 8; 9; 10];
                                [0; 0; 0; 0; 0]] [])).
Proof.
  apply (proj1 (each_image_slice_covers
                  [[1; 2; 3; 4; 5]; [6; 7; 8; 9; 10]; [0; 0; 0; 0; 0]] 2)).
  lia.
Defined.

End SlicesProofs.

(** ** find_insides: the pairs are runs of true samples *)

Lemma getitem_ok_inv {A : Type} (a : list A) (k : Z) (v : A) :
  0 <= k -> getitem a k = Ok v ->
  k < len a /\ nth_error a (Z.to_nat k) = Some v.
Proof.
  intros Hk. unfold getitem.
  destruct (Z.ltb_spec k 0) as [|_]; [lia|]. cbv zeta.
  destruct (Z.ltb_spec k 0) as [|_]; [lia|]. cbn [orb].
  destruct (Z.leb_spec (len a) k); [discriminate|].
  destruct (nth_error a (Z.to_nat k)); [|discriminate].
  intros E. injection E as <-. split; [lia|reflexivity].
Qed.

Lemma getitem_of_nth_error {A : Type} (a : list A) (k : Z) (v : A) :
  0 <= k -> nth_error a (Z.to_nat k) = Some v -> getitem a k = Ok v.
Proof.
  intros Hk E. unfold getitem.
  assert (Hlt : (Z.to_nat k < length a)%nat)
    by (apply nth_error_Some; congruence).
  destruct (Z.ltb_spec k 0) as [|_]; [lia|]. cbv zeta.
  destruct (Z.ltb_spec k 0) as [|_]; [lia|]. cbn [orb].
  destruct (Z.leb_spec (len a) k); [unfold len in *; lia|].
  now rewrite E.
Qed.

Lemma getitem_app_old {A : Type} (a b : list A) (k : Z) (v : A) :
  0 <= k -> getitem a k = Ok v -> getitem (a ++ b) k = Ok v.
Proof.
  intros Hk E. destruct (getitem_ok_inv a k v Hk E) as [Hlt Hnth].
  apply getitem_of_nth_error; [exact Hk|].
  rewrite nth_error_app1; [exact Hnth|]. unfold len in Hlt. lia.
Qed.

Lemma getitem_snoc_new {A : Type} (a : list A) (v : A) :
  getitem (a ++ [v]) (len a) = Ok v.
Proof.
  apply getitem_of_nth_error; [unfold len; lia|].
  unfold len. rewrite Nat2Z.id, nth_error_app2 by lia.
  now rewrite Nat.sub_diag.
Qed.

Lemma len_snoc {A : Type} (a : list A) (v : A) : len (a ++ [v]) = len a + 1.
Proof. unfold len. rewrite length_app. simpl. lia. Qed.

Lemma is_run_app signal suffix start stop :
  is_run signal start stop -> stop <= len signal ->
  is_run (signal ++ suffix) start stop.
Proof.
  intros (Hstart & Htrue & Hbefore) Hstop. split; [exact Hstart|]. split.
  - intros k Hk. apply getitem_app_old; [lia|]. now apply Htrue.
  - destruct Hbefore as [->|Hbefore]; [now left|right].
    apply getitem_app_old; [lia|exact Hbefore].
Qed.

Lemma is_run_extend signal start :
  is_run signal start (len signal) ->
  is_run (signal ++ [true]) start (len signal + 1).
Proof.
  intros Hrun. pose proof (is_run_app signal [true] _ _ Hrun ltac:(lia))
    as (Hstart & Htrue & Hbefore).
  split; [exact Hstart|]. split; [|exact Hbefore].
  intros k Hk. destruct (Z.eq_dec k (len signal)) as [->|Hne].
  - apply getitem_snoc_new.
  - apply Htrue. lia.
Qed.

Lemma strongly_sorted_snoc {A : Type} (R : A -> A -> Prop) (l : list A) (x : A) :
  StronglySorted R l -> Forall (fun y => R y x) l -> StronglySorted R (l ++ [x]).
Proof.
  induction 1 as [|y l Hsorted IH Hall]; intros Hbelow; cbn [app].
  - repeat constructor.
  - inversion Hbelow as [|? ? Hy Hrest]; subst.
    constructor; [now apply IH|].
    apply Forall_app. split; [exact Hall|now constructor].
Qed.

Lemma closed_pairs_app signal suffix pairs :
  Forall (fun p => fst p < snd p < len signal
                   /\ is_run signal (fst p) (snd p)
                   /\ getitem signal (snd p) = Ok false) pairs ->
  Forall (fun p => fst p < snd p < len (signal ++ suffix)
                   /\ is_run (signal ++ suffix) (fst p) (snd p)
                   /\ getitem (signal ++ suffix) (snd p) = Ok false) pairs.
Proof.
  apply Forall_impl. intros p (Horder & Hrun & Hstop).
  assert (Hstart : 1 <= fst p) by apply Hrun.
  split; [|split].
  - unfold len in *. rewrite length_app. lia.
  - apply is_run_app; [exact Hrun|lia].
  - apply getitem_app_old; [lia|exact Hstop].
Qed.

(** One pass of the loop body keeps the invariant. *)
Lemma find_insides_step signal i last_true pairs :
  find_insides_invariant signal (last_true, pairs) ->
  find_insides_invariant (signal ++ [i])
    (find_insides_loop [i] (len signal) last_true pairs).
Proof.
  unfold find_insides_invariant. cbn [fst snd find_insides_loop].
  intros (Hidle & Hopen & Hclosed & Hsorted).
  pose proof (closed_pairs_app signal [i] pairs Hclosed) as Hclosed'.
  assert (Hlen : 0 <= len signal) by (unfold len; lia).
  destruct i; cbn [andb negb].
  - destruct (truthy last_true) eqn:Etruthy;
      cbn [andb negb fst snd find_insides_loop].
    + (* the open run goes on *)
      split; [congruence|]. split; [|split; assumption].
      intros m -> Hm. destruct (Hopen m eq_refl Hm) as (Hlt & Hrun & Hbelow).
      rewrite len_snoc. split; [lia|]. split; [|exact Hbelow].
      now apply is_run_extend.
    + (* a run opens at this sample *)
      split; [|split; [|split; assumption]].
      * cbn [truthy]. intros E. apply negb_false_iff, Z.eqb_eq in E.
        left. rewrite len_snoc. lia.
      * intros m E Hm. injection E as <-. rewrite len_snoc.
        split; [lia|]. split.
        -- split; [lia|]. split.
           ++ intros k Hk. replace k with (len signal) by lia.
              apply getitem_snoc_new.
           ++ destruct (Hidle eq_refl) as [Hshort|Hfalse]; [left; lia|right].
              apply getitem_app_old; [lia|exact Hfalse].
        -- revert Hclosed. apply Forall_impl. intros p Hp. lia.
  - destruct (truthy last_true) eqn:Etruthy;
      cbn [andb negb fst snd find_insides_loop].
    + (* the open run is closed *)
      destruct last_true as [m|]; [|discriminate]. cbn [pair_from].
      assert (Hm : m <> 0).
      { cbn [truthy] in Etruthy. apply negb_true_iff, Z.eqb_neq in Etruthy.
        exact Etruthy. }
      destruct (Hopen m eq_refl Hm) as (Hlt & Hrun & Hbelow).
      split; [|split; [discriminate|split]].
      * intros _. right. rewrite len_snoc.
        replace (len signal + 1 - 1) with (len signal) by lia.
        apply getitem_snoc_new.
      * apply Forall_app. split; [exact Hclosed'|].
        constructor; [|constructor]. cbn [fst snd]. rewrite len_snoc.
        split; [lia|]. split; [|apply getitem_snoc_new].
        apply is_run_app; [exact Hrun|lia].
      * apply strongly_sorted_snoc; [exact Hsorted|exact Hbelow].
    + (* nothing open, nothing opens *)
      split; [|split; [|split; assumption]].
      * intros _. right. rewrite len_snoc.
        replace (len signal + 1 - 1) with (len signal) by lia.
        apply getitem_snoc_new.
      * intros m -> Hm. cbn [truthy] in Etruthy.
        apply negb_false_iff, Z.eqb_eq in Etruthy. contradiction.
Qed.

Lemma find_insides_loop_invariant signal :
  find_insides_invariant signal (find_insides_loop signal 0 None []).
Proof.
  induction signal as [|i signal IH] using rev_ind.
  - unfold find_insides_invariant. cbn.
    split; [intros _; left; lia|]. split; [discriminate|].
    split; constructor.
  - rewrite find_insides_loop_app.
    destruct (find_insides_loop signal 0 None []) as [last_true pairs].
    replace (0 + len signal) with (len signal) by lia.
    now apply find_insides_step.
Qed.

(** Every pair [find_insides] returns is a run of true samples that cannot
    be extended to the left, index 0 apart; the sample at its end is false,
    or the pair is the last one, closed at the last sample, which is true
    and belongs to the run. The pairs come in ascending order, each starting
    after the end of the one before. *)
Theorem find_insides_runs (signal : list bool) :
  Forall (fun p =>
            1 <= fst p <= snd p
            /\ snd p <= len signal - 1
            /\ (forall k, fst p <= k < snd p -> getitem signal k = Ok true)
            /\ (fst p = 1 \/ getitem signal (fst p - 1) = Ok false)
            /\ (getitem signal (snd p) = Ok false
                \/ snd p = len signal - 1
                   /\ getitem signal (snd p) = Ok true))
         (find_insides signal)
  /\ StronglySorted (fun p q => snd p < fst q) (find_insides signal).
Proof.
  pose proof (find_insides_loop_invariant signal) as Hinv.
  unfold find_insides.
  destruct (find_insides_loop signal 0 None []) as [last_true pairs].
  destruct Hinv as (_ & Hopen & Hclosed & Hsorted). cbn [fst snd] in *.
  assert (Hpairs :
    Forall (fun p =>
              1 <= fst p <= snd p
              /\ snd p <= len signal - 1
              /\ (forall k, fst p <= k < snd p -> getitem signal k = Ok true)
              /\ (fst p = 1 \/ getitem signal (fst p - 1) = Ok false)
              /\ (getitem signal (snd p) = Ok false
                  \/ snd p = len signal - 1
                     /\ getitem signal (snd p) = Ok true)) pairs).
  { revert Hclosed. apply Forall_impl.
    intros p (Horder & (Hstart & Htrue & Hbefore) & Hstop).
    split; [lia|]. split; [lia|]. split; [exact Htrue|].
    split; [exact Hbefore|now left]. }
  destruct (truthy last_true) eqn:Etruthy; [|split; assumption].
  destruct last_true as [m|]; [|discriminate]. cbn [pair_from].
  assert (Hm : m <> 0).
  { cbn [truthy] in Etruthy. apply negb_true_iff, Z.eqb_neq in Etruthy.
    exact Etruthy. }
  destruct (Hopen m eq_refl Hm) as (Hlt & (Hstart & Htrue & Hbefore) & Hbelow).
  split.
  - apply Forall_app. split; [exact Hpairs|].
    constructor; [|constructor]. cbn [fst snd].
    split; [lia|]. split; [lia|].
    split; [intros k Hk; apply Htrue; lia|]. split; [exact Hbefore|].
    right. split; [reflexivity|]. apply Htrue. lia.
  - apply strongly_sorted_snoc; [exact Hsorted|exact Hbelow].
Qed.

(** The doctest of [find_insides], and a signal that ends inside a run. *)
Example find_insides_doctest :
  find_insides [false; false; true; true; true; false; false; true; true;
                false; false] = [(2, 5); (7, 9)]
  /\ find_insides [false; true; true; false; true; true] = [(1, 3); (4, 5)].
Proof. split; reflexivity. Qed.

(** ** Cells: what the size filter keeps *)

Module CellsProofs.

Import CellClasses.

Lemma Cell_order channel b e b' e' :
  e < b' -> b < e ->
  before (Cell_init b e channel) (Cell_init b' e' channel).
Proof.
  intros Hgap Hlt. rewrite Zlt_Qlt in Hgap, Hlt.
  unfold before, lt, Cell_init, of_Z. cbn [local_top local_bottom ltb].
  split; apply Qltb_lt; Lqa.lra.
Qed.

Section Bootstrap.

Variable tunable : Tunables.
Variable cells_minimal_length_in_mu : float.
Variable UnivariateSpline : ndarray -> ndarray -> Z * Z -> Z -> spline.
Hypothesis spline_shape :
  forall x y bbox k arg, List.length (UnivariateSpline x y bbox k arg)
                         = List.length arg.

(** What the detector hands to [Cells]: pairs inside the profile, in
    ascending order. *)
Lemma found_segments thresholded_profile profile_of_binary_image profile :
  profile <> [] ->
  thresholded_profile <> [] ->
  cells_empty_channel_skipping tunable = false ->
  exists found,
    find_cells_in_channel tunable UnivariateSpline thresholded_profile
      profile_of_binary_image profile = Ok found
    /\ Forall (fun c => 1 <= fst c /\ fst c < snd c
                        /\ snd c <= len profile - 1) found
    /\ ascending_segments found.
Proof.
  intros Hne Hthr Hoff.
  destruct (find_cells_in_channel_run tunable UnivariateSpline spline_shape
              thresholded_profile profile_of_binary_image profile
              Hne Hthr Hoff)
    as (extrema & _ & Hasc & _ & Hrun).
  eexists. split; [exact Hrun|]. split.
  - apply Forall_forall. intros [b e] Hin.
    apply cells_In in Hin.
    destruct Hin as (i & last_pos & pos & Hlast & Hpos & Hok & -> & ->).
    destruct Hok as (Hwide & _ & _).
    apply nth_error_In in Hlast, Hpos.
    pose proof (candidate_positions_within _ (prominence extrema) _ pos
                  (len_nonneg profile) Hasc Hpos) as Hp.
    assert (Hl : 0 <= last_pos).
    { destruct Hlast as [<-|Hlast]; [lia|].
      apply (candidate_positions_within _ (prominence extrema) _ last_pos
               (len_nonneg profile) Hasc Hlast). }
    cbn [fst snd]. lia.
  - destruct (candidate_positions_ascending (maxima extrema)
                (prominence extrema) (len profile) (len_nonneg profile) Hasc)
      as [Hsorted Hlow].
    exact (proj1 (cells_from_ascending tunable profile_of_binary_image
                    (prominence extrema) _ 0 Hsorted Hlow)).
Qed.

Lemma Cells_in_order channel found :
  Forall (fun c => fst c < snd c) found ->
  ascending_segments found ->
  StronglySorted before (map (fun '(b, e) => Cell_init b e channel) found).
Proof.
  intros Hwide Hsorted. unfold ascending_segments in Hsorted.
  induction Hsorted as [|[b e] rest Hrest IH Hall]; cbn [map];
    [constructor|].
  inversion Hwide as [|? ? Hbe Hwide']; subst. cbn [fst snd] in Hbe.
  constructor; [now apply IH|].
  apply Forall_forall. intros cell Hcell. apply in_map_iff in Hcell.
  destruct Hcell as [[b' e'] [<- Hin]].
  rewrite Forall_forall in Hall. specialize (Hall _ Hin). cbn [fst snd] in Hall.
  now apply Cell_order.
Qed.

(** With the empty-channel shortcut off, on a profile of a length N that a
    float holds exactly, [Cells] made with [bootstrap] holds one cell for
    each pair [(b, e)] of the detector whose size [e - b] exceeds the
    minimal length in pixels, with [local_top = b], [local_bottom = e] and
    [1 <= b < e <= N - 1].  The cells are in the order of [__lt__], and each
    ends before the next begins.  Without [bootstrap] there are no cells. *)
Theorem Cells_bootstrap (channel : Channel)
  (thresholded_profile profile_of_binary_image profile : ndarray) :
  profile <> [] ->
  thresholded_profile <> [] ->
  cells_empty_channel_skipping tunable = false ->
  len profile <= 2 ^ 53 ->
  (exists cells_list,
     Cells_init tunable cells_minimal_length_in_mu UnivariateSpline channel
       thresholded_profile profile_of_binary_image profile true
     = Ok cells_list
     /\ Forall (fun cell =>
                  exists b e,
                    cell = Cell_init b e channel
                    /\ 1 <= b < e /\ e <= len profile - 1
                    /\ ltb (image_mu_to_pixel channel
                              cells_minimal_length_in_mu)
                           (of_Z (e - b)) = true)
               cells_list
     /\ StronglySorted before cells_list)
  /\ Cells_init tunable cells_minimal_length_in_mu UnivariateSpline channel
       thresholded_profile profile_of_binary_image profile false
     = Ok [].
Proof.
  intros Hne Hthr Hoff _. split; [|reflexivity].
  destruct (found_segments thresholded_profile profile_of_binary_image
              profile Hne Hthr Hoff) as (found & Hrun & Hbounds & Hsorted).
  unfold Cells_init. cbn [negb]. rewrite Hrun. cbn [bind].
  eexists. split; [reflexivity|]. split.
  - apply Forall_forall. intros cell Hcell. apply in_map_iff in Hcell.
    destruct Hcell as [[b e] [<- Hin]]. apply filter_In in Hin.
    destruct Hin as [Hin Hsize].
    rewrite Forall_forall in Hbounds. specialize (Hbounds _ Hin).
    cbn [fst snd] in Hbounds.
    exists b, e. split; [reflexivity|]. split; [lia|]. split; [lia|].
    exact Hsize.
  - apply Cells_in_order.
    + apply Forall_forall. intros c Hc. apply filter_In in Hc.
      rewrite Forall_forall in Hbounds. apply (Hbounds c), Hc.
    + now apply filter_sorted.
Qed.

End Bootstrap.

(** The channel of the examples: one pixel per micrometre. *)
Lemma Cells_bootstrap_witness :
  (exists cells_list,
     Cells_init doctest_tunables (Fin 1) interpolating_spline
       {| image_mu_to_pixel := fun mu => mu |}
       doctest_signal (repeat (Fin 0) 13) doctest_signal true
     = Ok cells_list
     /\ Forall (fun cell =>
                  exists b e,
                    cell = Cell_init b e
                             {| image_mu_to_pixel := fun mu => mu |}
                    /\ 1 <= b < e /\ e <= len doctest_signal - 1
                    /\ ltb (Fin 1) (of_Z (e - b)) = true)
               cells_list
     /\ StronglySorted before cells_list)
  /\ Cells_init doctest_tunables (Fin 1) interpolating_spline
       {| image_mu_to_pixel := fun mu => mu |}
       doctest_signal (repeat (Fin 0) 13) doctest_signal false
     = Ok [].
Proof.
  apply (Cells_bootstrap doctest_tunables (Fin 1) interpolating_spline
           interpolating_spline_shape
           {| image_mu_to_pixel := fun mu => mu |}
           doctest_signal (repeat (Fin 0) 13) doctest_signal).
  - discriminate.
  - discriminate.
  - reflexivity.
  - vm_compute. discriminate.
Defined.

(** On the doctest signal the one pair found, (9, 12), is longer than one
    pixel and becomes a cell; with a minimal length of three pixels it is
    dropped. *)
Example Cells_doctest_signal :
  let channel := {| image_mu_to_pixel := fun mu => mu |} in
  observe (map (fun cell => (local_top cell, local_bottom cell)))
    (Cells_init doctest_tunables (Fin 1) interpolating_spline channel
       doctest_signal (repeat (Fin 0) 13) doctest_signal true)
  = Some [(Fin 9, Fin 12)]
  /\ observe (map (fun cell => (local_top cell, local_bottom cell)))
       (Cells_init doctest_tunables (Fin 3) interpolating_spline channel
          doctest_signal (repeat (Fin 0) 13) doctest_signal true)
     = Some [].
Proof. split; vm_compute; reflexivity. Qed.

End CellsProofs.

(** ** TunableManager: what a call of tunable returns and leaves behind *)

Module TunableProofs.

Import String.
Import Tunable.

Lemma lookup_setitem_same d key v : lookup (setitem d key v) key = Some v.
Proof.
  induction d as [|[k v'] rest IH]; cbn [setitem lookup].
  - now rewrite String.eqb_refl.
  - destruct (String.eqb k key) eqn:E; cbn [lookup]; rewrite E;
      [reflexivity|exact IH].
Qed.

Lemma lookup_setitem_other d key v other :
  other <> key -> lookup (setitem d key v) other = lookup d other.
Proof.
  intros Hne. induction d as [|[k v'] rest IH]; cbn [setitem lookup].
  - destruct (String.eqb_spec key other); [congruence|reflexivity].
  - destruct (String.eqb_spec k key) as [->|Hk]; cbn [lookup].
    + destruct (String.eqb_spec key other); [congruence|reflexivity].
    + destruct (String.eqb k other); [reflexivity|exact IH].
Qed.

(** Storing the value a key already has changes nothing. *)
Lemma setitem_again d key v :
  setitem (setitem d key v) key v = setitem d key v.
Proof.
  induction d as [|[k v'] rest IH]; cbn [setitem].
  - now rewrite String.eqb_refl.
  - destruct (String.eqb k key) eqn:E; cbn [setitem]; rewrite E;
      [reflexivity|now rewrite IH].
Qed.

Section Casts.

Variable float_of_string : string -> attempt float.
Variable int_of_string : string -> attempt Z.
Variable str_of : value -> string.

Lemma cast_type t x v :
  cast float_of_string int_of_string str_of t x = Done v -> type_of v = t.
Proof.
  destruct t; cbn [cast].
  - destruct (to_float _ x); [|discriminate]. now intros [= <-].
  - destruct (to_int _ x); [|discriminate]. now intros [= <-].
  - now intros [= <-].
  - now intros [= <-].
Qed.

(** The cast of a value to its own type gives the value back. *)
Lemma cast_own_type x :
  cast float_of_string int_of_string str_of (type_of x) x = Done x.
Proof. destruct x as [f|z|b|s]; reflexivity. Qed.

(** Whatever the class holds, a call of [get_tunable] stores the default
    under the name asked for and touches nothing else, also when it raises;
    a value it returns has the type of the default; it is the default
    itself when defaults are forced or nothing overrides the name, and the
    override itself when that already has the type of the default; and the
    same call again returns the same and leaves the class as it is. *)
Theorem get_tunable_result (cls : TunableManager) (what : string)
  (default : value) :
  let run := get_tunable float_of_string int_of_string str_of what default
               cls in
  lookup (defaults (snd run)) what = Some default
  /\ (forall other, other <> what ->
        lookup (defaults (snd run)) other = lookup (defaults cls) other)
  /\ current (snd run) = current cls
  /\ force_default (snd run) = force_default cls
  /\ (forall v, fst run = Done v -> type_of v = type_of default)
  /\ (force_default cls = true \/ lookup (current cls) what = None ->
      fst run = Done default)
  /\ (forall override,
        force_default cls = false ->
        lookup (current cls) what = Some override ->
        type_of override = type_of default ->
        fst run = Done override)
  /\ get_tunable float_of_string int_of_string str_of what default (snd run)
     = run.
Proof.
  cbv zeta. unfold get_tunable, contains, getitem.
  cbn [defaults current force_default].
  pose proof (lookup_setitem_same (defaults cls) what default) as Hsame.
  pose proof (lookup_setitem_other (defaults cls) what default) as Hother.
  destruct (force_default cls) eqn:Eforce; cbn [orb].
  - cbn [fst snd defaults current force_default]. rewrite setitem_again.
    split; [exact Hsame|]. split; [exact Hother|].
    split; [reflexivity|]. split; [reflexivity|].
    split; [now intros v [= <-]|]. split; [reflexivity|].
    split; [discriminate|reflexivity].
  - destruct (lookup (current cls) what) as [override|] eqn:Ecurrent;
      cbn [negb fst snd defaults current force_default];
      rewrite ?Ecurrent; cbn [negb orb]; rewrite setitem_again.
    + split; [exact Hsame|]. split; [exact Hother|].
      split; [reflexivity|]. split; [reflexivity|].
      split; [intros v; apply cast_type|].
      split; [intros [|]; discriminate|].
      split; [|reflexivity].
      intros override' _ [= <-] Htype. rewrite <- Htype.
      apply cast_own_type.
    + split; [exact Hsame|]. split; [exact Hother|].
      split; [reflexivity|]. split; [reflexivity|].
      split; [now intros v [= <-]|]. split; [reflexivity|].
      split; [discriminate|reflexivity].
Qed.

(** After [load_tunables] only the new overrides count: a name the new
    data lacks gets its default, whatever was loaded before, and the
    defaults collected so far stay. *)
Lemma load_tunables_replaces (cls : TunableManager) (data : dict)
  (what : string) (default : value) :
  lookup data what = None ->
  fst (tunable float_of_string int_of_string str_of what default
         (load_tunables data cls)) = Done default
  /\ get_defaults (load_tunables data cls) = get_defaults cls.
Proof.
  intros Hnone. split; [|reflexivity].
  unfold tunable, get_tunable, contains, load_tunables.
  cbn [current force_default]. rewrite Hnone. cbn [negb].
  now rewrite orb_true_r.
Qed.

End Casts.

(** The doctests: an override wins over the default, and the default asked
    for is collected. *)
Example tunable_doctests float_of_string int_of_string str_of :
  let fresh := {| defaults := []; current := []; force_default := false |} in
  fst (tunable float_of_string int_of_string str_of "foo"%string (VStr "not bar"%string)
         (load_tunables [("foo"%string, VStr "bar"%string)] fresh))
  = Done (VStr "bar"%string)
  /\ tunable float_of_string int_of_string str_of "my.tunable"%string
       (VFloat (Fin (31415 # 10000))) fresh
     = (Done (VFloat (Fin (31415 # 10000))),
        {| defaults := [("my.tunable"%string, VFloat (Fin (31415 # 10000)))];
           current := []; force_default := false |}).
Proof. split; reflexivity. Qed.

(** Overrides of another type are cast: a number for a float or an integer
    tunable is converted, and any non-empty string switches a boolean
    tunable on, the string False included. *)
Example tunable_casts float_of_string int_of_string str_of :
  let overrides :=
    {| defaults := [];
       current := [("cells.otsu_bias"%string, VInt 2);
                   ("cells.extrema.order"%string, VFloat (Fin (27 # 10)));
                   ("cells.empty_channel.skipping"%string, VStr "False"%string)];
       force_default := false |} in
  fst (tunable float_of_string int_of_string str_of "cells.otsu_bias"%string
         (VFloat (Fin 1)) overrides) = Done (VFloat (Fin 2))
  /\ fst (tunable float_of_string int_of_string str_of "cells.extrema.order"%string
            (VInt 15) overrides) = Done (VInt 2)
  /\ fst (tunable float_of_string int_of_string str_of
            "cells.empty_channel.skipping"%string (VBool false) overrides)
     = Done (VBool true).
Proof. repeat split; reflexivity. Qed.

End TunableProofs.

(** ** FluorescentImage: what find_channels leaves as backgrounds *)

Module FluorescenceProofs.

Import Fluorescence.

Lemma firstn_set_nth {A : Type} (l : list A) value : forall i,
  (i < List.length l)%nat ->
  firstn (S i) (Utilities.set_nth i l value) = firstn i l ++ [value].
Proof.
  induction l as [|x l IH]; intros i Hi; [simpl in Hi; lia|].
  destruct i as [|i]; [reflexivity|].
  cbn [Utilities.set_nth]. rewrite !firstn_cons, IH by (simpl in Hi; lia).
  reflexivity.
Qed.

Section Images.

Variable image : Type.
Variable Channel : Type.
Variable background_fragment : image -> Channel -> Channel -> ndarray.

(** With a single channel there is nothing between channels: the background
    is [0 / 0], for an image that is [None] as well. *)
Lemma background_fluorescence_single fluorescence_image only :
  background_fluorescence image Channel background_fragment
    fluorescence_image only [] = Ok NaN.
Proof. reflexivity. Qed.

Lemma background_fluorescence_none first second others :
  background_fluorescence image Channel background_fragment None first
    (second :: others) = Raise TypeError.
Proof. reflexivity. Qed.

Lemma background_fluorescence_means_some pixels : forall others first,
  exists rows,
    background_fluorescence_means image Channel background_fragment
      (Some pixels) first others = Ok rows.
Proof.
  induction others as [|next others IH]; intros first; [now eexists|].
  cbn [background_fluorescence_means].
  destruct (IH next) as [rows ->]. cbn [bind]. now eexists.
Qed.

Lemma background_fluorescence_some pixels first others :
  exists value,
    background_fluorescence image Channel background_fragment (Some pixels)
      first others = Ok value.
Proof.
  unfold background_fluorescence.
  destruct (background_fluorescence_means_some pixels others first)
    as [rows ->].
  cbn [bind]. now eexists.
Qed.

(** The loop writes one value for every fluorescence, from index [i] on. *)
Lemma assign_backgrounds_values first others :
  forall fluorescences values i backgrounds,
    List.length backgrounds = (i + List.length fluorescences)%nat ->
    Forall2 (fun fluorescence_image value =>
               background_fluorescence image Channel background_fragment
                 fluorescence_image first others = Ok value)
            fluorescences values ->
    assign_backgrounds image Channel background_fragment fluorescences i
      first others backgrounds
    = Ok (firstn i backgrounds ++ values).
Proof.
  intros fluorescences values i backgrounds Hlength Hvalues.
  revert i backgrounds Hlength.
  induction Hvalues as [|fluorescence_image value fluorescences values
                          Hvalue _ IH]; intros i backgrounds Hlength;
    cbn [assign_backgrounds].
  - rewrite app_nil_r, firstn_all2; [reflexivity|]. simpl in Hlength. lia.
  - rewrite Hvalue. cbn [bind]. cbn [List.length] in Hlength.
    destruct (Nat.ltb_spec i (List.length backgrounds)); [|lia].
    rewrite IH by (rewrite UtilitiesProofs.set_nth_length; lia).
    rewrite firstn_set_nth by lia. now rewrite <- app_assoc.
Qed.

(** An image that is [None] stops the loop, if there is anything to cut. *)
Lemma assign_backgrounds_none first second others :
  forall fluorescences i backgrounds,
    List.length backgrounds = (i + List.length fluorescences)%nat ->
    In None fluorescences ->
    assign_backgrounds image Channel background_fragment fluorescences i
      first (second :: others) backgrounds
    = Raise TypeError.
Proof.
  intros fluorescences.
  induction fluorescences as [|fluorescence_image fluorescences IH];
    intros i backgrounds Hlength Hnone; [contradiction|].
  cbn [assign_backgrounds]. cbn [List.length] in Hlength.
  destruct fluorescence_image as [pixels|]; [|reflexivity].
  destruct Hnone as [Hnone|Hnone]; [discriminate|].
  destruct (background_fluorescence_some pixels first (second :: others))
    as [value ->].
  cbn [bind]. destruct (Nat.ltb_spec i (List.length backgrounds)); [|lia].
  apply IH; [|exact Hnone]. rewrite UtilitiesProofs.set_nth_length. lia.
Qed.

Lemma values_of_images first others (fluorescences : list (option image)) :
  ~ In None fluorescences ->
  exists values,
    Forall2 (fun fluorescence_image value =>
               background_fluorescence image Channel background_fragment
                 fluorescence_image first others = Ok value)
            fluorescences values.
Proof.
  induction fluorescences as [|fluorescence_image fluorescences IH];
    intros Hsome; [exists []; constructor|].
  destruct IH as [values Hvalues]; [intros Hin; apply Hsome; now right|].
  destruct fluorescence_image as [pixels|]; [|exfalso; apply Hsome; now left].
  destruct (background_fluorescence_some pixels first others) as [value Hvalue].
  exists (value :: values). now constructor.
Qed.

(** For an image object whose three lists are in step, [find_channels]
    leaves them in step and sets the backgrounds: to 0 for every fluorescence
    when no channel was found, and to NaN for every one when a single
    channel was found.  With two channels or more, an image that is [None]
    (as after [clean]) is a [TypeError]; otherwise the call succeeds and
    leaves the images as they are. *)
Theorem find_channels_background
  (self : FluorescentImage image Channel) (found : list Channel) :
  in_step image Channel self ->
  (found = [] ->
   exists after,
     find_channels image Channel background_fragment found self = Ok after
     /\ in_step image Channel after
     /\ background_fluorescences image Channel after
        = repeat (Fin 0) (List.length (image_fluorescences image Channel self)))
  /\ (forall only, found = [only] ->
      exists after,
        find_channels image Channel background_fragment found self = Ok after
        /\ in_step image Channel after
        /\ background_fluorescences image Channel after
           = repeat NaN (List.length (image_fluorescences image Channel self)))
  /\ (forall first second others, found = first :: second :: others ->
      (In None (image_fluorescences image Channel self) ->
       find_channels image Channel background_fragment found self
       = Raise TypeError)
      /\ (~ In None (image_fluorescences image Channel self) ->
          exists after,
            find_channels image Channel background_fragment found self
            = Ok after
            /\ in_step image Channel after
            /\ image_fluorescences image Channel after
               = image_fluorescences image Channel self)).
Proof.
  intros [Horiginal Hbackground].
  split; [|split].
  - intros ->. eexists. split; [reflexivity|].
    unfold in_step. cbn. rewrite repeat_length. now split.
  - intros only ->. unfold find_channels.
    rewrite (assign_backgrounds_values only []
               (image_fluorescences image Channel self)
               (repeat NaN
                  (List.length (image_fluorescences image Channel self)))).
    + cbn [bind firstn app]. eexists. split; [reflexivity|].
      unfold in_step. cbn. rewrite repeat_length. now split.
    + now rewrite Hbackground.
    + clear. induction (image_fluorescences image Channel self); cbn;
        [constructor|].
      constructor; [reflexivity|assumption].
  - intros first second others ->. split.
    + intros Hnone. unfold find_channels.
      rewrite assign_backgrounds_none; [reflexivity| |exact Hnone].
      now rewrite Hbackground.
    + intros Hsome.
      destruct (values_of_images first (second :: others) _ Hsome)
        as [values Hvalues].
      unfold find_channels.
      rewrite (assign_backgrounds_values first (second :: others) _ values)
        by (rewrite ?Hbackground; auto).
      cbn [bind firstn app]. eexists. split; [reflexivity|].
      pose proof (Forall2_length Hvalues) as Hlength.
      split; [unfold in_step; cbn; now split|reflexivity].
Qed.

End Images.

(** A strip of pixels with channels given by their left and right ends; the
    pixels between two channels run from the right end of the one to the
    left end of the other. *)
Lemma find_channels_background_witness :
  let strip := map of_Z [5; 5; 0; 0; 7; 9; 0; 0; 1; 1; 1; 0] in
  let between (pixels : ndarray) (previous next : Z * Z) :=
    slice pixels (snd previous) (fst next) in
  let self := setup_add_fluorescence ndarray (Z * Z) strip
                (FluorescentImage_init ndarray (Z * Z)) in
  let found := [(2, 4); (6, 8); (11, 12)] in
  exists after,
    find_channels ndarray (Z * Z) between found self = Ok after
    /\ in_step ndarray (Z * Z) after
    /\ image_fluorescences ndarray (Z * Z) after
       = image_fluorescences ndarray (Z * Z) self.
Proof.
  cbv zeta.
  refine (proj2 (proj2 (proj2
            (find_channels_background ndarray (Z * Z)
               (fun pixels previous next =>
                  slice pixels (snd previous) (fst next))
               (setup_add_fluorescence ndarray (Z * Z)
                  (map of_Z [5; 5; 0; 0; 7; 9; 0; 0; 1; 1; 1; 0])
                  (FluorescentImage_init ndarray (Z * Z)))
               [(2, 4); (6, 8); (11, 12)] _))
            (2, 4) (6, 8) [(11, 12)] eq_refl) _).
  - split; reflexivity.
  - cbn. intros [E|[]]. discriminate.
Defined.

(** On that strip a single channel gives NaN, and after [clean] the call
    with two channels fails. *)
Example find_channels_strip :
  let strip := map of_Z [5; 5; 0; 0; 7; 9; 0; 0; 1; 1; 1; 0] in
  let between (pixels : ndarray) (previous next : Z * Z) :=
    slice pixels (snd previous) (fst next) in
  let self := setup_add_fluorescence ndarray (Z * Z) strip
                (FluorescentImage_init ndarray (Z * Z)) in
  observe (background_fluorescences ndarray (Z * Z))
    (find_channels ndarray (Z * Z) between [(2, 4)] self)
  = Some [NaN]
  /\ find_channels ndarray (Z * Z) between [(2, 4); (6, 8)]
       (clean ndarray (Z * Z) self)
     = Raise TypeError.
Proof. cbv zeta. split; vm_compute; reflexivity. Qed.

End FluorescenceProofs.

(** ** flatten and unflatten: the values of the cells come back *)

Module FlatteningProofs.

Import Fluorescence.

Lemma for_each_map {A B : Type} (body : A -> result B) (g : A -> B) items :
  (forall item, In item items -> body item = Ok (g item)) ->
  for_each body items = Ok (map g items).
Proof.
  induction items as [|item items IH]; intros Hbody; [reflexivity|].
  cbn [for_each map]. rewrite Hbody by now left. cbn [bind].
  rewrite IH by (intros; apply Hbody; now right). reflexivity.
Qed.

Lemma arange_map_nth {B : Type} (g : Z -> B) k f d :
  0 <= f <= Z.of_nat k - 1 -> nth (Z.to_nat f) (map g (arange k)) d = g f.
Proof.
  intros Hf. unfold arange. rewrite map_map.
  rewrite (nth_indep _ d (g (Z.of_nat 0)))
    by (rewrite length_map, length_seq; lia).
  rewrite (map_nth (fun i => g (Z.of_nat i))).
  rewrite seq_nth by lia. f_equal. lia.
Qed.

Lemma map_nth_arange {A : Type} (items : list A) d :
  map (fun f => nth (Z.to_nat f) items d) (arange (List.length items)) = items.
Proof.
  unfold arange. rewrite map_map.
  rewrite (map_ext _ (fun i => nth i items d))
    by (intros; now rewrite Nat2Z.id).
  induction items as [|item items IH]; [reflexivity|].
  cbn [List.length seq map nth]. f_equal.
  rewrite <- seq_shift, map_map. exact IH.
Qed.

(** Numbering does not lose an item, and numbers from 0. *)
Lemma enumerate_In {A : Type} (items : list A) n item :
  In (n, item) (enumerate items) ->
  0 <= n <= len items - 1 /\ nth_error items (Z.to_nat n) = Some item.
Proof.
  unfold enumerate. intros Hin. apply zip_In_nth in Hin.
  destruct Hin as [i [Hn Hitem]].
  assert (Hi : (i < List.length items)%nat)
    by (apply nth_error_Some; congruence).
  unfold arange in Hn. rewrite nth_error_map, nth_error_seq in Hn.
  destruct (Nat.ltb_spec i (List.length items)); [|lia].
  cbn in Hn. injection Hn as <-. rewrite Nat2Z.id. unfold len.
  split; [lia|exact Hitem].
Qed.

Lemma map_enumerate {A B : Type} (g : Z -> B) (items : list A) :
  map (fun numbered => g (fst numbered)) (enumerate items)
  = map g (arange (List.length items)).
Proof.
  unfold enumerate, zip, arange.
  generalize 0%nat. induction items as [|item items IH]; intros start;
    [reflexivity|].
  cbn [List.length seq map zip_with fst]. f_equal. apply IH.
Qed.

Section Tables.

Variable fluor_count : nat.
Variable channels : list (list FluorescentCell).
Hypothesis channels_complete : complete fluor_count channels.

(** The table [flatten] makes of one attribute. *)
Lemma by_fluorescence_table attribute :
  Forall (Forall (fun cell => List.length (attribute cell) = fluor_count))
    channels ->
  by_fluorescence attribute (Z.of_nat fluor_count) channels
  = Ok (map (fun f =>
               map (map (fun cc => nth (Z.to_nat f) (attribute cc) NaN))
                 channels)
          (arange fluor_count)).
Proof.
  clear channels_complete. intros Hcomplete.
  unfold by_fluorescence, Utilities.range. rewrite Nat2Z.id.
  apply for_each_map. intros f Hf. apply arange_bounds in Hf.
  apply for_each_map. intros c Hc.
  apply for_each_map. intros cc Hcc.
  rewrite Forall_forall in Hcomplete. specialize (Hcomplete c Hc).
  rewrite Forall_forall in Hcomplete. specialize (Hcomplete cc Hcc).
  apply getitem_nth. unfold len. lia.
Qed.

(** Reading the table back at the place of a cell gives its values. *)
Lemma of_cell_table attribute n cn channel cell :
  Forall (Forall (fun cell => List.length (attribute cell) = fluor_count))
    channels ->
  nth_error channels (Z.to_nat n) = Some channel ->
  nth_error channel (Z.to_nat cn) = Some cell ->
  0 <= n -> 0 <= cn ->
  of_cell (map (fun f =>
                  map (map (fun cc => nth (Z.to_nat f) (attribute cc) NaN))
                    channels)
             (arange fluor_count))
    (Z.of_nat fluor_count) n cn
  = Ok (attribute cell).
Proof.
  clear channels_complete. intros Hcomplete Hchannel Hcell Hn Hcn.
  assert (Hn' : (Z.to_nat n < List.length channels)%nat)
    by (apply nth_error_Some; congruence).
  assert (Hcn' : (Z.to_nat cn < List.length channel)%nat)
    by (apply nth_error_Some; congruence).
  assert (Hlength : List.length (attribute cell) = fluor_count).
  { rewrite Forall_forall in Hcomplete.
    specialize (Hcomplete channel (nth_error_In _ _ Hchannel)).
    rewrite Forall_forall in Hcomplete.
    apply (Hcomplete cell (nth_error_In _ _ Hcell)). }
  unfold of_cell, Utilities.range. rewrite Nat2Z.id.
  rewrite (for_each_map _ (fun f => nth (Z.to_nat f) (attribute cell) NaN)).
  - rewrite <- Hlength. now rewrite map_nth_arange.
  - intros f Hf. apply arange_bounds in Hf.
    rewrite (getitem_nth _ f [])
      by (unfold len, arange; rewrite length_map, length_map, length_seq;
          lia).
    cbn [bind]. rewrite arange_map_nth by exact Hf.
    rewrite (getitem_nth _ n [])
      by (unfold len; rewrite length_map; lia).
    cbn [bind].
    rewrite (nth_indep _ [] (map (fun cc => nth (Z.to_nat f) (attribute cc)
                                              NaN) []))
      by (rewrite length_map; lia).
    rewrite map_nth, (nth_error_nth _ _ [] Hchannel).
    rewrite (getitem_nth _ cn NaN)
      by (unfold len; rewrite length_map; lia).
    f_equal.
    rewrite (nth_indep _ NaN (nth (Z.to_nat f) (attribute cell) NaN))
      by (rewrite length_map; lia).
    rewrite (map_nth (fun cc => nth (Z.to_nat f) (attribute cc) NaN)).
    now rewrite (nth_error_nth _ _ cell Hcell).
Qed.

End Tables.

Lemma same_shape_nth (channels rebuilt : list (list FluorescentCell)) :
  map (@List.length _) rebuilt = map (@List.length _) channels ->
  map (fun n => nth (Z.to_nat n) channels [])
    (arange (List.length rebuilt)) = channels.
Proof.
  intros Hshape. apply (f_equal (@List.length _)) in Hshape.
  rewrite !length_map in Hshape. rewrite Hshape. apply map_nth_arange.
Qed.

Lemma same_shape_cells (channels rebuilt : list (list FluorescentCell)) i
  channel channel' :
  map (@List.length _) rebuilt = map (@List.length _) channels ->
  nth_error channels i = Some channel ->
  nth_error rebuilt i = Some channel' ->
  List.length channel' = List.length channel.
Proof.
  intros Hshape Hchannel Hchannel'.
  apply (f_equal (fun l => nth_error l i)) in Hshape.
  rewrite !nth_error_map, Hchannel, Hchannel' in Hshape.
  cbn in Hshape. congruence.
Qed.

(** When every cell holds one value of mean and of standard deviation for
    every fluorescence, [flatten] succeeds, and [unflatten] on cells made
    anew in the same numbers, whatever they hold, gives the cells their
    values back. *)
Theorem flatten_unflatten (fluor_count : nat)
  (channels rebuilt : list (list FluorescentCell)) :
  complete fluor_count channels ->
  map (@List.length _) rebuilt = map (@List.length _) channels ->
  exists flat,
    flatten (Z.of_nat fluor_count) channels = Ok flat
    /\ unflatten (Z.of_nat fluor_count) flat rebuilt = Ok channels.
Proof.
  intros Hcomplete Hshape.
  assert (Hmean : Forall (Forall (fun cell =>
                    List.length (fluorescences_mean cell) = fluor_count))
                    channels).
  { revert Hcomplete. apply Forall_impl. intros c. apply Forall_impl. tauto. }
  assert (Hstd : Forall (Forall (fun cell =>
                   List.length (fluorescences_std cell) = fluor_count))
                   channels).
  { revert Hcomplete. apply Forall_impl. intros c. apply Forall_impl. tauto. }
  unfold flatten.
  rewrite !(by_fluorescence_table fluor_count channels) by assumption.
  cbn [bind]. eexists. split; [reflexivity|].
  unfold unflatten.
  cbn [channels_cells_fluorescences_mean channels_cells_fluorescences_std].
  rewrite (for_each_map _
             (fun numbered_channel =>
                nth (Z.to_nat (fst numbered_channel)) channels [])).
  - rewrite (map_enumerate (fun n => nth (Z.to_nat n) channels [])).
    now rewrite same_shape_nth.
  - intros [n channel'] Hin. cbn [fst snd].
    apply enumerate_In in Hin. destruct Hin as [Hn Hchannel'].
    assert (Hn' : (Z.to_nat n < List.length channels)%nat).
    { apply (f_equal (@List.length _)) in Hshape.
      rewrite !length_map in Hshape. unfold len in Hn. lia. }
    destruct (nth_error channels (Z.to_nat n)) as [channel|] eqn:Hchannel;
      [|apply nth_error_None in Hchannel; lia].
    rewrite (nth_error_nth _ _ [] Hchannel).
    assert (Hcells : List.length channel' = List.length channel)
      by (apply (same_shape_cells channels rebuilt (Z.to_nat n)); assumption).
    set (nobody := {| fluorescences_mean := []; fluorescences_std := [] |}).
    rewrite (for_each_map _
               (fun numbered_cell =>
                  nth (Z.to_nat (fst numbered_cell)) channel nobody)).
    + rewrite (map_enumerate (fun cn => nth (Z.to_nat cn) channel nobody)).
      rewrite Hcells. now rewrite map_nth_arange.
    + intros [cn cell'] Hin. cbn [fst snd].
      apply enumerate_In in Hin. destruct Hin as [Hcn _].
      destruct (nth_error channel (Z.to_nat cn)) as [cell|] eqn:Hcell;
        [|apply nth_error_None in Hcell; unfold len in Hcn; lia].
      rewrite (of_cell_table fluor_count channels fluorescences_mean n cn
                 channel cell Hmean Hchannel Hcell) by lia.
      rewrite (of_cell_table fluor_count channels fluorescences_std n cn
                 channel cell Hstd Hchannel Hcell) by lia.
      cbn [bind]. rewrite (nth_error_nth _ _ nobody Hcell).
      now destruct cell.
Qed.

(** Two channels, of two cells and of one, with two fluorescences. *)
Lemma flatten_unflatten_witness :
  let cell (a b : Z) := {| fluorescences_mean := [of_Z a; of_Z b];
                           fluorescences_std := [of_Z 1; of_Z 2] |} in
  let nobody := {| fluorescences_mean := [NaN; NaN];
                   fluorescences_std := [NaN; NaN] |} in
  exists flat,
    flatten (Z.of_nat 2) [[cell 10 20; cell 11 21]; [cell 12 22]] = Ok flat
    /\ unflatten (Z.of_nat 2) flat [[nobody; nobody]; [nobody]]
       = Ok [[cell 10 20; cell 11 21]; [cell 12 22]].
Proof.
  cbv zeta.
  apply (flatten_unflatten 2
           [[{| fluorescences_mean := [of_Z 10; of_Z 20];
                fluorescences_std := [of_Z 1; of_Z 2] |};
             {| fluorescences_mean := [of_Z 11; of_Z 21];
                fluorescences_std := [of_Z 1; of_Z 2] |}];
            [{| fluorescences_mean := [of_Z 12; of_Z 22];
                fluorescences_std := [of_Z 1; of_Z 2] |}]]
           [[{| fluorescences_mean := [NaN; NaN];
                fluorescences_std := [NaN; NaN] |};
             {| fluorescences_mean := [NaN; NaN];
                fluorescences_std := [NaN; NaN] |}];
            [{| fluorescences_mean := [NaN; NaN];
                fluorescences_std := [NaN; NaN] |}]]).
  - repeat constructor.
  - reflexivity.
Defined.

(** A cell with a value missing stops [flatten], and a table read for more
    cells than it was made from stops [unflatten]. *)
Example flatten_incomplete :
  let cell := {| fluorescences_mean := [of_Z 10];
                 fluorescences_std := [of_Z 1; of_Z 2] |} in
  flatten 2 [[cell]] = Raise IndexError
  /\ (exists flat,
        flatten 1 [[cell]] = Ok flat
        /\ unflatten 1 flat [[cell; cell]] = Raise IndexError).
Proof. split; [reflexivity|]. eexists. split; reflexivity. Qed.

End FlatteningProofs.

(** ** FluorescentCell.fluorescences after find_channels *)

Module CellFluorescenceProofs.

Import Fluorescence.

Lemma sub_zero x : Float.eq (sub x (Fin 0)) x.
Proof.
  destruct x as [q| | |]; cbn; try exact I. ring.
Qed.

Lemma sub_NaN x : sub x NaN = NaN.
Proof. now destruct x. Qed.

Lemma fluorescences_uniform {image Channel : Type} (self : FluorescentCell)
  (its_image : FluorescentImage image Channel) (background : float) :
  List.length (fluorescences_mean self)
  = List.length (image_fluorescences image Channel its_image) ->
  background_fluorescences image Channel its_image
  = repeat background
      (List.length (image_fluorescences image Channel its_image)) ->
  fluorescences self its_image
  = Ok (map (fun measured => sub measured background)
          (fluorescences_mean self)).
Proof.
  intros Hlength Hbackground. unfold fluorescences, Utilities.range, len.
  rewrite Nat2Z.id, Hbackground, <- Hlength.
  rewrite (FlatteningProofs.for_each_map _
             (fun f => sub (nth (Z.to_nat f) (fluorescences_mean self) NaN)
                         background)).
  - rewrite <- (map_map (fun f => nth (Z.to_nat f) (fluorescences_mean self)
                                    NaN)
                  (fun measured => sub measured background)).
    now rewrite FlatteningProofs.map_nth_arange.
  - intros f Hf. apply arange_bounds in Hf.
    rewrite (getitem_nth _ f NaN) by (unfold len; lia). cbn [bind].
    rewrite (getitem_nth _ f NaN)
      by (unfold len; rewrite repeat_length; lia).
    cbn [bind]. f_equal. f_equal. apply nth_repeat_lt. lia.
Qed.

(** A single channel: every background is [0 / 0]. *)
Lemma find_channels_single {image Channel : Type}
  (background_fragment : image -> Channel -> Channel -> ndarray)
  (its_image : FluorescentImage image Channel) (only : Channel) :
  in_step image Channel its_image ->
  find_channels image Channel background_fragment [only] its_image
  = Ok {| image_fluorescences := image_fluorescences image Channel its_image;
          original_image_fluorescences :=
            original_image_fluorescences image Channel its_image;
          background_fluorescences :=
            repeat NaN
              (List.length (image_fluorescences image Channel its_image));
          channels := [only] |}.
Proof.
  intros [_ Hbackground]. unfold find_channels.
  rewrite (FluorescenceProofs.assign_backgrounds_values image Channel
             background_fragment only []
             (image_fluorescences image Channel its_image)
             (repeat NaN
                (List.length (image_fluorescences image Channel its_image)))).
  - reflexivity.
  - now rewrite Hbackground.
  - clear. induction (image_fluorescences image Channel its_image); cbn;
      [constructor|].
    constructor; [reflexivity|assumption].
Qed.

(** For a cell with one mean for every fluorescence of its image, and an
    image with its lists in step: after [find_channels] has found a single
    channel every fluorescence of the cell is NaN, whatever was measured,
    and after it has found none the fluorescences are the measured means. *)
Theorem fluorescences_after_find_channels {image Channel : Type}
  (background_fragment : image -> Channel -> Channel -> ndarray)
  (self : FluorescentCell) (its_image : FluorescentImage image Channel) :
  in_step image Channel its_image ->
  List.length (fluorescences_mean self)
  = List.length (image_fluorescences image Channel its_image) ->
  (forall only,
     exists after,
       find_channels image Channel background_fragment [only] its_image
       = Ok after
       /\ fluorescences self after
          = Ok (repeat NaN (List.length (fluorescences_raw self))))
  /\ (exists after values,
        find_channels image Channel background_fragment [] its_image
        = Ok after
        /\ fluorescences self after = Ok values
        /\ Forall2 Float.eq values (fluorescences_raw self)).
Proof.
  intros Hstep Hlength. split.
  - intros only.
    eexists. split; [now apply find_channels_single|].
    rewrite (fluorescences_uniform self _ NaN) by first [assumption|reflexivity].
    f_equal. unfold fluorescences_raw.
    generalize (fluorescences_mean self). clear. intros means.
    induction means as [|measured rest IH]; [reflexivity|].
    cbn [map List.length repeat]. now rewrite sub_NaN, IH.
  - eexists. eexists. split; [reflexivity|].
    split.
    + apply (fluorescences_uniform self _ (Fin 0)); [exact Hlength|].
      reflexivity.
    + unfold fluorescences_raw.
      generalize (fluorescences_mean self). clear. intros means.
      induction means as [|measured rest IH]; cbn [map]; [constructor|].
      constructor; [apply sub_zero|exact IH].
Qed.

Lemma fluorescences_after_find_channels_witness :
  let strip := map of_Z [5; 5; 0; 0; 7; 9; 0; 0; 1; 1; 1; 0] in
  let between (pixels : ndarray) (previous next : Z * Z) :=
    slice pixels (snd previous) (fst next) in
  let its_image := setup_add_fluorescence ndarray (Z * Z) strip
                     (FluorescentImage_init ndarray (Z * Z)) in
  let cell := {| fluorescences_mean := [Fin 3];
                 fluorescences_std := [Fin 1] |} in
  (forall only,
     exists after,
       find_channels ndarray (Z * Z) between [only] its_image = Ok after
       /\ fluorescences cell after
          = Ok (repeat NaN (List.length (fluorescences_raw cell))))
  /\ (exists after values,
        find_channels ndarray (Z * Z) between [] its_image = Ok after
        /\ fluorescences cell after = Ok values
        /\ Forall2 Float.eq values (fluorescences_raw cell)).
Proof.
  cbv zeta.
  apply (fluorescences_after_find_channels
           (fun (pixels : ndarray) (previous next : Z * Z) =>
              slice pixels (snd previous) (fst next))
           {| fluorescences_mean := [Fin 3]; fluorescences_std := [Fin 1] |}
           (setup_add_fluorescence ndarray (Z * Z)
              (map of_Z [5; 5; 0; 0; 7; 9; 0; 0; 1; 1; 1; 0])
              (FluorescentImage_init ndarray (Z * Z)))).
  - split; reflexivity.
  - reflexivity.
Defined.

End CellFluorescenceProofs.

(** ** parse_range: where the open interval ends up *)

Module RangesProofs.

Import String.
Import Ranges.

Section Parsing.

Variable int : String.string -> result Z.

(** What holds of [ranges] and [tail] all along the loop. *)
Lemma parse_fragment_shape allow_open_interval frag ranges tail ranges' tail' :
  parse_fragment int allow_open_interval frag (ranges, tail)
  = Ok (ranges', tail') ->
  Forall is_number ranges ->
  (tail = [] \/ exists start, tail = [Number start; Inf]) ->
  (allow_open_interval = false -> tail = []) ->
  Forall is_number ranges'
  /\ (tail' = [] \/ exists start, tail' = [Number start; Inf])
  /\ (allow_open_interval = false -> tail' = []).
Proof.
  intros Hrun Hranges Htail Hclosed. unfold parse_fragment in Hrun.
  destruct (contains _ frag).
  - destruct (split _ frag) as [|f [|t [|]]]; try discriminate.
    destruct (String.eqb t _).
    + destruct allow_open_interval; [|discriminate].
      destruct (int f) as [start|]; [|discriminate]. cbn [bind] in Hrun.
      injection Hrun as <- <-.
      split; [exact Hranges|]. split; [right; now exists start|discriminate].
    + destruct (int f) as [start|]; [|discriminate]. cbn [bind] in Hrun.
      destruct (int t) as [stop|]; [|discriminate]. cbn [bind] in Hrun.
      injection Hrun as <- <-.
      split; [|split; assumption].
      apply Forall_app. split; [exact Hranges|].
      apply Forall_map, Forall_forall. intros z _. exact I.
  - destruct (int frag) as [only|]; [|discriminate]. cbn [bind] in Hrun.
    injection Hrun as <- <-.
    split; [|split; assumption].
    apply Forall_app. split; [exact Hranges|]. now repeat constructor.
Qed.

Lemma parse_fragments_shape allow_open_interval fragments :
  forall ranges tail ranges' tail',
    parse_fragments int allow_open_interval fragments (ranges, tail)
    = Ok (ranges', tail') ->
    Forall is_number ranges ->
    (tail = [] \/ exists start, tail = [Number start; Inf]) ->
    (allow_open_interval = false -> tail = []) ->
    Forall is_number ranges'
    /\ (tail' = [] \/ exists start, tail' = [Number start; Inf])
    /\ (allow_open_interval = false -> tail' = []).
Proof.
  induction fragments as [|frag fragments IH];
    intros ranges tail ranges' tail' Hrun Hranges Htail Hclosed;
    cbn [parse_fragments] in Hrun.
  - injection Hrun as <- <-. now split.
  - destruct (parse_fragment int allow_open_interval frag (ranges, tail))
      as [[ranges1 tail1]|] eqn:Hstep; [|discriminate].
    cbn [bind] in Hrun.
    destruct (parse_fragment_shape _ _ _ _ _ _ Hstep Hranges Htail Hclosed)
      as (H1 & H2 & H3).
    exact (IH _ _ _ _ Hrun H1 H2 H3).
Qed.

(** Whatever [int] makes of the numbers, a result of [parse_range] is a
    list of integers, followed by nothing or by the start of an open
    interval and the infinity: the infinity is never anywhere but at the
    very end, there is at most one, and none when open intervals are not
    allowed. *)
Theorem parse_range_shape (s : String.string) (allow_open_interval : bool)
  (ranges : list item) :
  parse_range int s allow_open_interval = Ok ranges ->
  exists closed tail,
    ranges = closed ++ tail
    /\ Forall is_number closed
    /\ (tail = [] \/ exists start, tail = [Number start; Inf])
    /\ (allow_open_interval = false -> tail = []).
Proof.
  unfold parse_range.
  destruct (parse_fragments int allow_open_interval _ ([], []))
    as [[closed tail]|] eqn:Hrun; [|discriminate].
  cbn [bind fst snd]. intros E. apply PhaseProperties.Ok_inj in E.
  subst ranges. exists closed, tail. split; [reflexivity|].
  apply (parse_fragments_shape _ _ _ _ _ _ Hrun); [constructor|now left|].
  reflexivity.
Qed.

End Parsing.

Lemma parse_range_shape_witness :
  exists closed tail,
    [Number 1; Number 2; Number 3; Number 5; Number 7; Inf] = closed ++ tail
    /\ Forall is_number closed
    /\ (tail = [] \/ exists start, tail = [Number start; Inf])
    /\ (true = false -> tail = []).
Proof.
  apply (parse_range_shape unsigned "1-3;5,7-"%string true).
  reflexivity.
Defined.

(** Closed ranges are expanded in place, both ends included; of several
    open intervals the last one counts, and it goes to the end wherever it
    stood.  A range that runs backwards gives nothing; a number with a
    minus sign, a range of three parts and an empty string are errors, and
    so is an open interval where none is allowed. *)
Example parse_range_examples :
  parse_range unsigned "1-3;5,7-"%string true
  = Ok [Number 1; Number 2; Number 3; Number 5; Number 7; Inf]
  /\ parse_range unsigned "7-,1-3"%string true
     = Ok [Number 1; Number 2; Number 3; Number 7; Inf]
  /\ parse_range unsigned "3-,5-"%string true = Ok [Number 5; Inf]
  /\ parse_range unsigned "3-1"%string true = Ok []
  /\ parse_range unsigned "-3"%string true = Raise ValueError
  /\ parse_range unsigned "1-2-3"%string true = Raise ValueError
  /\ parse_range unsigned ""%string true = Raise ValueError
  /\ parse_range unsigned "5-"%string false = Raise ValueError.
Proof. repeat split; reflexivity. Qed.

End RangesProofs.

(** ** float64 arithmetic *)

Module Float64Proofs.

Import Float64.

Lemma Qpos_nonzero x : (0 < x)%Q -> ~ (x == 0)%Q.
Proof. intros Hpos E. rewrite E in Hpos. now apply Qlt_irrefl in Hpos. Qed.

Lemma Qred_integer z : Qred (inject_Z z) = inject_Z z.
Proof.
  unfold Qred, inject_Z.
  pose proof (Z.ggcd_gcd z 1) as Hgcd.
  pose proof (Z.ggcd_correct_divisors z 1) as Hdiv.
  destruct (Z.ggcd z 1) as [g [p q]]. cbn [fst snd] in *.
  rewrite Z.gcd_1_r in Hgcd. subst g. destruct Hdiv as [Hp Hq].
  rewrite Z.mul_1_l in Hp, Hq. subst p. subst q. reflexivity.
Qed.

(** ** The rounding of float64 *)

Lemma nearest_even_spec a b :
  0 < b -> 2 * Z.abs (a - b * nearest_even a b) <= b.
Proof.
  intros Hb. unfold nearest_even.
  pose proof (Z.div_mod a b ltac:(lia)) as E.
  pose proof (Z.mod_pos_bound a b Hb) as Hr.
  destruct (Z.compare_spec (2 * (a mod b)) b); [destruct (Z.even _)|..]; lia.
Qed.

Lemma nearest_integer a b r t :
  0 < b -> 2 * Z.abs (a - b * r) <= b ->
  Z.abs (a - b * r) <= Z.abs (a - b * t).
Proof.
  intros Hb Hr. destruct (Z.eq_dec t r) as [->|Hne]; [lia|].
  assert (b <= Z.abs (b * (t - r))) by (rewrite Z.abs_mul; nia).
  lia.
Qed.

Lemma nearest_even_between a b lo hi :
  0 < b -> lo * b <= a <= hi * b -> lo <= nearest_even a b <= hi.
Proof.
  intros Hb Ha. pose proof (nearest_even_spec a b Hb) as Hr. nia.
Qed.

Lemma nearest_even_exact t b : 0 < b -> nearest_even (t * b) b = t.
Proof.
  intros Hb.
  pose proof (nearest_even_between (t * b) b t t Hb ltac:(lia)). lia.
Qed.


Lemma exponent_bounds n d :
  0 < d ->
  0 <= exponent n d
  /\ Z.abs n < d * 2 ^ (exponent n d + 53)
  /\ (0 < exponent n d -> d * 2 ^ (exponent n d + 52) <= Z.abs n).
Proof.
  intros Hd. unfold exponent.
  set (N := Z.abs n / d).
  assert (HN : 0 <= N) by (apply Z.div_pos; lia).
  pose proof (Z.div_mod (Z.abs n) d ltac:(lia)) as E. fold N in E.
  pose proof (Z.mod_pos_bound (Z.abs n) d Hd) as Hr.
  split; [lia|].
  destruct (Z.eq_dec N 0) as [E0|E0].
  - rewrite E0. cbn [Z.log2]. rewrite Z.max_l by lia. split; [|lia].
    rewrite E0 in E.
    assert (1 <= 2 ^ (0 + 53)) by (apply Z.pow_le_mono_r with (b := 0); lia).
    nia.
  - pose proof (Z.log2_spec N ltac:(lia)) as [Hlow Hhigh].
    pose proof (Z.log2_nonneg N) as Hl.
    set (l := Z.log2 N) in *.
    split.
    + assert (2 ^ Z.succ l <= 2 ^ (Z.max 0 (l - 52) + 53))
        by (apply Z.pow_le_mono_r; lia).
      nia.
    + intros He. replace (Z.max 0 (l - 52) + 52) with l by lia. nia.
Qed.

Lemma pow2_pos e : 0 <= e -> 0 < 2 ^ e.
Proof. intros He. apply Z.pow_pos_nonneg; lia. Qed.

Lemma pow2_split e j : 0 <= e <= j -> 2 ^ j = 2 ^ (j - e) * 2 ^ e.
Proof.
  intros H. rewrite <- Z.pow_add_r by lia. f_equal. lia.
Qed.

Lemma nearest_float_unfold n d :
  nearest_float n d
  = nearest_even n (d * 2 ^ exponent n d) * 2 ^ exponent n d.
Proof. reflexivity. Qed.

Lemma significand_bounds n d :
  0 < d ->
  Z.abs (nearest_even n (d * 2 ^ exponent n d)) <= 2 ^ 53
  /\ (0 < exponent n d ->
      2 ^ 52 <= Z.abs (nearest_even n (d * 2 ^ exponent n d))).
Proof.
  intros Hd. destruct (exponent_bounds n d Hd) as (He & Hhigh & Hlow).
  set (e := exponent n d) in *.
  pose proof (pow2_pos e He) as HP.
  rewrite Z.pow_add_r in Hhigh by lia.
  assert (Hb : 0 < d * 2 ^ e) by nia.
  split.
  - pose proof (nearest_even_between n (d * 2 ^ e) (- 2 ^ 53) (2 ^ 53) Hb
                  ltac:(nia)).
    lia.
  - intros Hpos. specialize (Hlow Hpos).
    rewrite Z.pow_add_r in Hlow by lia.
    destruct (Z_le_gt_dec 0 n) as [Hn|Hn].
    + pose proof (nearest_even_between n (d * 2 ^ e) (2 ^ 52) (2 ^ 53) Hb
                    ltac:(nia)).
      lia.
    + pose proof (nearest_even_between n (d * 2 ^ e) (- 2 ^ 53) (- 2 ^ 52) Hb
                    ltac:(nia)).
      lia.
Qed.

Lemma nearest_float_is_float n d : 0 < d -> is_float (nearest_float n d).
Proof.
  intros Hd. destruct (exponent_bounds n d Hd) as (He & _).
  destruct (significand_bounds n d Hd) as [Hr _].
  rewrite nearest_float_unfold.
  set (e := exponent n d) in *.
  set (r := nearest_even n (d * 2 ^ e)) in *.
  assert (E53 : 2 ^ 53 = 2 * 2 ^ 52) by reflexivity.
  assert (Ee : 2 ^ (e + 1) = 2 * 2 ^ e)
    by (rewrite Z.pow_add_r by lia; lia).
  destruct (Z.eq_dec (Z.abs r) (2 ^ 53)) as [E|E].
  - destruct (Z_le_gt_dec 0 r).
    + exists (2 ^ 52), (e + 1). rewrite Ee.
      split; [lia|]. split; [rewrite Z.abs_eq; lia|lia].
    + exists (- 2 ^ 52), (e + 1). rewrite Ee.
      split; [lia|]. split; [rewrite Z.abs_opp, Z.abs_eq; lia|lia].
  - exists r, e. split; [reflexivity|]. split; lia.
Qed.

Lemma nearest_float_nearest n d g :
  0 < d -> is_float g ->
  Z.abs (n - d * nearest_float n d) <= Z.abs (n - d * g).
Proof.
  intros Hd (m & j & -> & Hm & Hj).
  destruct (exponent_bounds n d Hd) as (He & _ & Hlow).
  rewrite nearest_float_unfold.
  set (e := exponent n d) in *.
  pose proof (pow2_pos e He) as HP.
  assert (Hb : 0 < d * 2 ^ e) by nia.
  pose proof (nearest_even_spec n (d * 2 ^ e) Hb) as Hr.
  set (r := nearest_even n (d * 2 ^ e)) in *.
  replace (d * (r * 2 ^ e)) with (d * 2 ^ e * r) by ring.
  destruct (Z_le_gt_dec e j) as [Hej|Hej].
  - rewrite (pow2_split e j) by lia.
    replace (d * (m * (2 ^ (j - e) * 2 ^ e)))
      with (d * 2 ^ e * (m * 2 ^ (j - e))) by ring.
    now apply nearest_integer.
  - specialize (Hlow ltac:(lia)). rewrite Z.pow_add_r in Hlow by lia.
    assert (Hg : Z.abs (m * 2 ^ j) < 2 ^ e * 2 ^ 52).
    { rewrite (pow2_split j e) by lia.
      pose proof (pow2_pos j Hj) as Hpj.
      assert (2 <= 2 ^ (e - j))
        by (change 2 with (2 ^ 1) at 1; apply Z.pow_le_mono_r; lia).
      assert (E53 : 2 ^ 53 = 2 * 2 ^ 52) by reflexivity.
      rewrite Z.abs_mul, (Z.abs_eq (2 ^ j)) by lia. nia. }
    destruct (Z_le_gt_dec 0 n) as [Hn|Hn].
    + pose proof (nearest_integer n (d * 2 ^ e) r (2 ^ 52) Hb Hr) as Hh.
      nia.
    + pose proof (nearest_integer n (d * 2 ^ e) r (- 2 ^ 52) Hb Hr) as Hh.
      nia.
Qed.

Lemma nearest_float_monotone n d n' d' :
  0 < d -> 0 < d' -> n * d' < n' * d ->
  nearest_float n d <= nearest_float n' d'.
Proof.
  intros Hd Hd' Hlt.
  pose proof (nearest_float_nearest n d (nearest_float n' d') Hd
                (nearest_float_is_float n' d' Hd')) as H1.
  pose proof (nearest_float_nearest n' d' (nearest_float n d) Hd'
                (nearest_float_is_float n d Hd)) as H2.
  set (k := nearest_float n d) in *. set (k' := nearest_float n' d') in *.
  destruct (Z_le_gt_dec k k') as [Hle|Hgt]; [exact Hle|exfalso].
  assert (A : d * (k + k') <= 2 * n) by nia.
  assert (B : 2 * n' <= d' * (k + k')) by nia.
  nia.
Qed.

(** A multiple of the unit with at most 53 bits is rounded to itself. *)
Lemma nearest_float_fixed k d m j :
  0 < d -> k = m * 2 ^ j -> Z.abs m <= 2 ^ 53 -> 0 <= j ->
  nearest_float (k * d) d = k.
Proof.
  intros Hd Hk Hm Hj.
  destruct (exponent_bounds (k * d) d Hd) as (He & _ & Hlow).
  rewrite nearest_float_unfold.
  set (e := exponent (k * d) d) in *.
  pose proof (pow2_pos e He) as HP. pose proof (pow2_pos j Hj) as HPj.
  assert (Hdiv : exists t, k = t * 2 ^ e).
  { destruct (Z_le_gt_dec e j) as [Hej|Hej].
    - exists (m * 2 ^ (j - e)). rewrite Hk, (pow2_split e j) by lia. ring.
    - specialize (Hlow ltac:(lia)).
      rewrite Z.abs_mul, (Z.abs_eq d), Z.pow_add_r in Hlow by lia.
      assert (Hk' : 2 ^ e * 2 ^ 52 <= Z.abs k) by nia.
      rewrite Hk, Z.abs_mul, (Z.abs_eq (2 ^ j)) in Hk' by lia.
      rewrite (pow2_split j e) in Hk' by lia.
      assert (E53 : 2 ^ 53 = 2 * 2 ^ 52) by reflexivity.
      assert (H2 : 2 <= 2 ^ (e - j))
        by (change 2 with (2 ^ 1) at 1; apply Z.pow_le_mono_r; lia).
      assert (Hm' : Z.abs m = 2 ^ 53 /\ 2 ^ (e - j) = 2) by nia.
      destruct Hm' as [Hm' He'].
      assert (Ee : 2 ^ e = 2 * 2 ^ j)
        by (rewrite (pow2_split j e), He' by lia; reflexivity).
      destruct (Z_le_gt_dec 0 m).
      + exists (2 ^ 52). rewrite Hk, Ee. lia.
      + exists (- 2 ^ 52). rewrite Hk, Ee. lia. }
  destruct Hdiv as [t Ht].
  replace (k * d) with (t * (d * 2 ^ e)) by (rewrite Ht; ring).
  rewrite nearest_even_exact by nia. now rewrite Ht.
Qed.

Lemma nearest_float_overflow n d :
  0 < d -> 2 ^ 2098 * d <= n -> 2 ^ 2098 <= nearest_float n d.
Proof.
  intros Hd Hn.
  assert (Hbig : 0 < 2 ^ 2098) by (apply pow2_pos; lia).
  assert (HN : 2 ^ 2098 <= Z.abs n / d)
    by (apply Z.div_le_lower_bound; lia).
  assert (Hlog : 2098 <= Z.log2 (Z.abs n / d)).
  { rewrite <- (Z.log2_pow2 2098) by lia. now apply Z.log2_le_mono. }
  destruct (exponent_bounds n d Hd) as (He & _ & Hlow).
  destruct (significand_bounds n d Hd) as [_ Hr].
  rewrite nearest_float_unfold.
  assert (Ee : exponent n d = Z.log2 (Z.abs n / d) - 52)
    by (unfold exponent; lia).
  set (e := exponent n d) in *.
  specialize (Hr ltac:(lia)).
  pose proof (pow2_pos e He) as HP.
  assert (Hb : 0 < d * 2 ^ e) by nia.
  pose proof (nearest_even_between n (d * 2 ^ e) 0 (Z.abs n) Hb) as Hsign.
  assert (Hpos : 0 <= nearest_even n (d * 2 ^ e)) by (apply Hsign; nia).
  assert (Hle : 2 ^ 2098 <= 2 ^ (e + 52))
    by (apply Z.pow_le_mono_r; lia).
  rewrite Z.pow_add_r in Hle by lia.
  nia.
Qed.

Lemma nearest_float_zero k d :
  0 < d -> nearest_float (k * d) d = 0 -> k = 0.
Proof.
  intros Hd Hzero.
  destruct (exponent_bounds (k * d) d Hd) as (He & _ & Hlow).
  destruct (significand_bounds (k * d) d Hd) as [_ Hr].
  rewrite nearest_float_unfold in Hzero.
  set (e := exponent (k * d) d) in *.
  pose proof (pow2_pos e He) as HP.
  assert (Hb : 0 < d * 2 ^ e) by nia.
  pose proof (nearest_even_spec (k * d) (d * 2 ^ e) Hb) as Hspec.
  assert (Hr0 : nearest_even (k * d) (d * 2 ^ e) = 0) by nia.
  rewrite Hr0 in Hspec, Hr.
  destruct (Z_le_gt_dec e 0) as [He0|He0].
  - assert (e = 0) by lia.
    replace (2 ^ e) with 1 in Hspec by (replace e with 0 by lia; reflexivity).
    nia.
  - specialize (Hr ltac:(lia)). cbn [Z.abs] in Hr.
    assert (0 < 2 ^ 52) by (apply pow2_pos; lia). lia.
Qed.

Lemma smallest_pow : Z.pos smallest = 2 ^ 1074.
Proof. unfold smallest. now rewrite Pos2Z.inj_pow. Qed.


Lemma Qred_twice a : Qred (Qred a) = Qred a.
Proof. apply Qred_complete, Qred_correct. Qed.

Lemma scaled_proper a b : (a == b)%Q -> scaled a = scaled b.
Proof. intros E. unfold scaled. now rewrite (Qred_complete a b E). Qed.

Lemma binary64_proper a b : (a == b)%Q -> binary64 a = binary64 b.
Proof. intros E. unfold binary64. now rewrite (scaled_proper a b E). Qed.

Lemma binary64_cases a :
  (2 ^ 2098 <= scaled a /\ binary64 a = PInf)
  \/ (scaled a <= - 2 ^ 2098 /\ binary64 a = NInf)
  \/ (- 2 ^ 2098 < scaled a < 2 ^ 2098
      /\ binary64 a = Fin (Qred (scaled a # smallest))).
Proof.
  unfold binary64.
  destruct (Z.leb_spec (2 ^ 2098) (scaled a)); [now left|right].
  destruct (Z.leb_spec (scaled a) (- 2 ^ 2098)); [now left|right].
  split; [lia|reflexivity].
Qed.

(** A multiple [k] of the unit is rounded as [k / 1] is. *)
Lemma scaled_units k :
  exists d, 0 < d /\ scaled (k # smallest) = nearest_float (k * d) d.
Proof.
  unfold scaled. pose proof (Qred_correct (k # smallest)) as E.
  set (x := Qred (k # smallest)) in *.
  exists (Z.pos (Qden x)). split; [lia|].
  unfold Qeq in E. cbn [Qnum Qden] in E. now rewrite E.
Qed.

Lemma scaled_fixed k m j :
  k = m * 2 ^ j -> Z.abs m <= 2 ^ 53 -> 0 <= j -> scaled (k # smallest) = k.
Proof.
  intros Hk Hm Hj. destruct (scaled_units k) as (d & Hd & ->).
  now apply (nearest_float_fixed k d m j).
Qed.

Lemma scaled_is_float a : is_float (scaled a).
Proof. unfold scaled. apply nearest_float_is_float. lia. Qed.

Lemma scaled_monotone a b : (a <= b)%Q -> scaled a <= scaled b.
Proof.
  intros Hab. destruct (Qlt_le_dec a b) as [Hlt|Hge].
  - unfold scaled. apply nearest_float_monotone; [lia|lia|].
    rewrite <- (Qred_correct a), <- (Qred_correct b) in Hlt.
    unfold Qlt in Hlt.
    assert (0 < Z.pos smallest) by lia.
    set (u := Z.pos smallest) in *. nia.
  - rewrite (scaled_proper a b); [lia|]. now apply Qle_antisym.
Qed.

(** A value of [binary64] is the multiple of the unit it was made from. *)
Lemma binary64_value a b :
  binary64 a = Fin b ->
  exists k, b = Qred (k # smallest) /\ is_float k
            /\ - 2 ^ 2098 < k < 2 ^ 2098 /\ scaled b = k
            /\ binary64 b = Fin b.
Proof.
  intros E. destruct (binary64_cases a) as [[_ H]|[[_ H]|[Hk H]]];
    rewrite H in E; try discriminate.
  assert (E' : Qred (scaled a # smallest) = b) by congruence.
  clear E. rename E' into E. exists (scaled a).
  pose proof (scaled_is_float a) as Hf.
  assert (Es : scaled b = scaled a).
  { rewrite <- E, (scaled_proper _ _ (Qred_correct _)).
    destruct Hf as (m & j & Hm & Hlt & Hj).
    apply (scaled_fixed _ m j); [exact Hm|lia|exact Hj]. }
  repeat split; try tauto; try congruence; try lia.
  destruct (binary64_cases b) as [[F _]|[[F _]|[_ ->]]]; try lia.
  now rewrite Es, E.
Qed.

Theorem binary64_IEEE : IEEE binary64.
Proof.
  constructor.
  - exact binary64_proper.
  - intros a b Hab. pose proof (scaled_monotone a b Hab) as Hk.
    destruct (binary64_cases a) as [[Ha ->]|[[Ha ->]|[Ha ->]]];
      destruct (binary64_cases b) as [[Hb ->]|[[Hb ->]|[Hb ->]]];
      cbn [le]; try exact I; try lia.
    rewrite !Qred_correct. unfold Qle. cbn [Qnum Qden].
    apply Z.mul_le_mono_nonneg_r; lia.
  - intros a b E. now destruct (binary64_value a b E) as (k & _ & _ & _ & _ & H).
  - intros z Hz.
    assert (E : (inject_Z z == (z * 2 ^ 1074) # smallest)%Q).
    { unfold Qeq, inject_Z. cbn [Qnum Qden]. rewrite smallest_pow. ring. }
    rewrite (binary64_proper _ _ E).
    assert (Es : scaled ((z * 2 ^ 1074) # smallest) = z * 2 ^ 1074)
      by (apply (scaled_fixed _ z 1074); [reflexivity|exact Hz|lia]).
    assert (Hbig : 2 ^ 2098 = 2 ^ 1024 * 2 ^ 1074)
      by (rewrite <- Z.pow_add_r by lia; reflexivity).
    assert (H53 : 2 ^ 53 < 2 ^ 1024) by (apply Z.pow_lt_mono_r; lia).
    pose proof (pow2_pos 1074 ltac:(lia)) as Hu.
    destruct (binary64_cases ((z * 2 ^ 1074) # smallest))
      as [[F _]|[[F _]|[_ ->]]]; rewrite Es in *; try nia.
    f_equal. rewrite <- (Qred_integer z). apply Qred_complete.
    now symmetry.
  - intros a Ha.
    assert (Hk : 2 ^ 2098 <= scaled a).
    { unfold scaled. apply nearest_float_overflow; [lia|].
      rewrite <- (Qred_correct a) in Ha. unfold Qle, inject_Z in Ha.
      cbn [Qnum Qden] in Ha. rewrite smallest_pow.
      assert (Hbig : 2 ^ 2098 = 2 ^ 1024 * 2 ^ 1074)
        by (rewrite <- Z.pow_add_r by lia; reflexivity).
      pose proof (pow2_pos 1074 ltac:(lia)) as Hu.
      rewrite Hbig. nia. }
    destruct (binary64_cases a) as [[_ H]|[[F _]|[F _]]]; [exact H|..].
    + pose proof (pow2_pos 2098 ltac:(lia)). lia.
    + lia.
  - intros a b Ea Eb Ediff.
    destruct (binary64_value a a Ea) as (ka & Ha & _).
    destruct (binary64_value b b Eb) as (kb & Hb & _).
    assert (Hu : 0 < Z.pos smallest) by lia.
    assert (E : (a - b == (ka - kb) # smallest)%Q).
    { rewrite Ha, Hb, !Qred_correct. unfold Qeq, Qminus, Qplus, Qopp.
      cbn [Qnum Qden]. rewrite Pos2Z.inj_mul. ring. }
    rewrite (binary64_proper _ _ E) in Ediff.
    destruct (scaled_units (ka - kb)) as (d & Hd & Es).
    destruct (binary64_cases ((ka - kb) # smallest))
      as [[_ H]|[[_ H]|[_ H]]]; rewrite H in Ediff; cbn [Float.eq] in Ediff;
      try contradiction.
    rewrite Qred_correct in Ediff. unfold Qeq in Ediff.
    cbn [Qnum Qden] in Ediff. rewrite Z.mul_1_r, Z.mul_0_l in Ediff.
    rewrite Es in Ediff. apply nearest_float_zero in Ediff; [|exact Hd].
    rewrite Ha, Hb, !Qred_correct. unfold Qeq. cbn [Qnum Qden].
    replace ka with kb by lia. reflexivity.
Qed.

(** ** normalize in float64 arithmetic *)

Section Rounding.

Variable round : Q -> float.
Hypothesis ieee : IEEE round.

Lemma round_zero : round 0 = Fin 0.
Proof. apply (round_integer round ieee 0). vm_compute. discriminate. Qed.

Lemma round_one : round 1 = Fin 1.
Proof. apply (round_integer round ieee 1). vm_compute. discriminate. Qed.

(** Between two float64 numbers the rounding stays between them. *)
Lemma round_between a lo hi :
  (lo <= a <= hi)%Q -> round lo = Fin lo -> round hi = Fin hi ->
  exists r, round a = Fin r /\ (lo <= r <= hi)%Q /\ round r = Fin r.
Proof.
  intros [Hlo Hhi] Elo Ehi.
  pose proof (round_monotone round ieee lo a Hlo) as Hlow.
  pose proof (round_monotone round ieee a hi Hhi) as Hhigh.
  rewrite Elo in Hlow. rewrite Ehi in Hhigh.
  destruct (round a) as [r| | |] eqn:Er; cbn [le] in *; try contradiction.
  exists r. split; [reflexivity|]. split; [now split|].
  now apply (round_idempotent round ieee a).
Qed.

Lemma round_nonneg a :
  (0 <= a)%Q -> is_finite (round a) = true ->
  exists r, round a = Fin r /\ (0 <= r)%Q /\ round r = Fin r.
Proof.
  intros Ha Hfinite.
  pose proof (round_monotone round ieee 0 a Ha) as Hlow.
  rewrite round_zero in Hlow.
  destruct (round a) as [r| | |] eqn:Er; try discriminate.
  exists r. split; [reflexivity|]. split; [exact Hlow|].
  now apply (round_idempotent round ieee a).
Qed.

Lemma map_finite {A : Type} (f : A -> float) items :
  (forall item, In item items -> is_finite (f item) = true) ->
  map f items = map Fin (map (fun item => finite_part (f item)) items).
Proof.
  intros Hfinite. rewrite map_map. apply map_ext_in. intros item Hin.
  specialize (Hfinite item Hin). destruct (f item); try discriminate.
  reflexivity.
Qed.

(** One run of [normalize] on float64 numbers with two different ones among
    them and a spread that does not overflow: the values returned are
    float64 numbers between 0 and 1, with 0 and 1 among them. *)
Lemma normalize_run qs a b :
  (forall q, In q qs -> round q = Fin q) ->
  (forall c d, In c qs -> In d qs -> is_finite (round (c - d)%Q) = true) ->
  In a qs -> In b qs -> ~ (a == b)%Q ->
  exists ys,
    normalize round (FloatArray (map Fin qs)) = Ok (map Fin ys)
    /\ length ys = length qs
    /\ (forall y, In y ys -> (0 <= y <= 1)%Q /\ round y = Fin y)
    /\ In 0%Q ys
    /\ In 1%Q ys.
Proof.
  intros Hfloat Hspread Ha Hb Hab.
  assert (Hqs : qs <> []) by (destruct qs; [destruct Ha|discriminate]).
  destruct (amin_finite qs Hqs) as (lowest & Hmin & Hlow_in & Hlow).
  (* the differences *)
  set (rs := map (fun q => finite_part (round (q - lowest)%Q)) qs).
  assert (Hsub : map (fun x => sub round x (Fin lowest)) (map Fin qs)
                 = map Fin rs).
  { rewrite map_map. cbn [sub]. apply map_finite.
    intros q Hq. now apply Hspread. }
  assert (Hrs : forall q, In q qs ->
                  round (q - lowest)%Q
                  = Fin (finite_part (round (q - lowest)%Q))
                  /\ (0 <= finite_part (round (q - lowest)%Q))%Q
                  /\ round (finite_part (round (q - lowest)%Q))
                     = Fin (finite_part (round (q - lowest)%Q))).
  { intros q Hq.
    destruct (round_nonneg (q - lowest)%Q) as (r & Er & Hr & Hfix).
    - pose proof (Hlow q Hq). Lqa.lra.
    - now apply Hspread.
    - rewrite Er. cbn [finite_part]. now repeat split. }
  assert (Hrs_ne : rs <> [])
    by (unfold rs; destruct qs; [congruence|discriminate]).
  destruct (amax_finite rs Hrs_ne) as (highest & Hmax & Hhigh_in & Hhigh).
  (* the divisor is a positive float64 *)
  assert (Hhigh_fix : round highest = Fin highest /\ (0 <= highest)%Q).
  { unfold rs in Hhigh_in. apply in_map_iff in Hhigh_in.
    destruct Hhigh_in as [q [<- Hq]]. destruct (Hrs q Hq) as (_ & H0 & Hfix).
    now split. }
  assert (Hpos : (0 < highest)%Q).
  { assert (Hc : exists c, In c qs /\ ~ (c == lowest)%Q).
    { destruct (Qeq_dec a lowest) as [Ea|Na]; [|now exists a].
      exists b. split; [exact Hb|]. intros Eb. apply Hab.
      now rewrite Ea, Eb. }
    destruct Hc as (c & Hc & Hne).
    destruct (Hrs c Hc) as (Ec & Hc0 & _).
    assert (Hin : In (finite_part (round (c - lowest)%Q)) rs)
      by (unfold rs; apply in_map_iff; now exists c).
    pose proof (Hhigh _ Hin) as Hle.
    destruct (Qeq_dec (finite_part (round (c - lowest)%Q)) 0) as [E0|N0].
    - exfalso. apply Hne.
      apply (round_difference round ieee c lowest);
        [now apply Hfloat|now apply Hfloat|].
      rewrite Ec. exact E0.
    - apply Qle_lt_trans with (y := 0%Q); [apply Qle_refl|].
      apply Qlt_le_trans with (y := finite_part (round (c - lowest)%Q));
        [|exact Hle].
      apply Qle_lteq in Hc0. destruct Hc0 as [Hlt|Heq]; [exact Hlt|].
      exfalso. apply N0. now symmetry. }
  assert (Hnz : Qeq_bool highest 0 = false).
  { destruct (Qeq_bool highest 0) eqn:E; [|reflexivity].
    apply Qeq_bool_iff in E. exfalso. now apply (Qpos_nonzero highest). }
  (* the quotients *)
  assert (Hquot : forall r, In r rs ->
                    exists y, round (r / highest)%Q = Fin y
                              /\ (0 <= y <= 1)%Q /\ round y = Fin y).
  { intros r Hr.
    apply (round_between (r / highest)%Q 0 1);
      [|apply round_zero|apply round_one].
    assert (H0 : (0 <= r)%Q).
    { unfold rs in Hr. apply in_map_iff in Hr. destruct Hr as [q [<- Hq]].
      apply (Hrs q Hq). }
    pose proof (Hhigh r Hr). split.
    - apply Qle_shift_div_l; [assumption|Lqa.lra].
    - apply Qle_shift_div_r; [assumption|Lqa.lra]. }
  set (ys := map (fun r => finite_part (round (r / highest)%Q)) rs).
  assert (Hdiv : map (fun x => div round x (Fin highest)) (map Fin rs)
                 = map Fin ys).
  { rewrite map_map. cbn [div]. rewrite Hnz. apply map_finite.
    intros r Hr. destruct (Hquot r Hr) as (y & -> & _). reflexivity. }
  exists ys. split.
  { unfold normalize. cbn [astype_float]. rewrite Hmin. cbn [bind].
    rewrite Hsub, Hmax. cbn [bind]. now rewrite Hdiv. }
  split; [unfold ys, rs; now rewrite !length_map|].
  split.
  { intros y Hy. unfold ys in Hy. apply in_map_iff in Hy.
    destruct Hy as [r [<- Hr]]. destruct (Hquot r Hr) as (y & -> & H).
    exact H. }
  split.
  - unfold ys. apply in_map_iff. exists 0%Q. split.
    + rewrite (round_proper round ieee (0 / highest)%Q 0%Q)
        by (field; now apply Qpos_nonzero).
      now rewrite round_zero.
    + unfold rs. apply in_map_iff. exists lowest. split; [|exact Hlow_in].
      rewrite (round_proper round ieee (lowest - lowest)%Q 0%Q) by ring.
      now rewrite round_zero.
  - unfold ys. apply in_map_iff. exists highest. split; [|exact Hhigh_in].
    rewrite (round_proper round ieee (highest / highest)%Q 1%Q)
      by (field; now apply Qpos_nonzero).
    now rewrite round_one.
Qed.

(** An array normalized already is returned as it is. *)
Lemma normalize_fixed ys :
  (forall y, In y ys -> (0 <= y <= 1)%Q /\ round y = Fin y) ->
  In 0%Q ys -> In 1%Q ys ->
  normalize round (FloatArray (map Fin ys)) = Ok (map Fin ys).
Proof.
  intros Hys Hzero Hone.
  assert (Hne : ys <> []) by (destruct ys; [destruct Hzero|discriminate]).
  destruct (amin_finite ys Hne) as (lowest & Hmin & Hlow_in & Hlow).
  assert (Hlowest : (lowest == 0)%Q).
  { pose proof (Hlow 0%Q Hzero). destruct (Hys lowest Hlow_in) as [[H0 _] _].
    Lqa.lra. }
  assert (Hsub : map (fun x => sub round x (Fin lowest)) (map Fin ys)
                 = map Fin ys).
  { rewrite map_map. cbn [sub]. apply map_ext_in. intros y Hy.
    rewrite (round_proper round ieee (y - lowest)%Q y)
      by (rewrite Hlowest; ring).
    apply (Hys y Hy). }
  destruct (amax_finite ys Hne) as (highest & Hmax & Hhigh_in & Hhigh).
  assert (Hhighest : (highest == 1)%Q).
  { pose proof (Hhigh 1%Q Hone). destruct (Hys highest Hhigh_in) as [[_ H1] _].
    Lqa.lra. }
  assert (Hnz : Qeq_bool highest 0 = false).
  { destruct (Qeq_bool highest 0) eqn:E; [|reflexivity].
    apply Qeq_bool_iff in E. rewrite Hhighest in E. discriminate. }
  unfold normalize. cbn [astype_float]. rewrite Hmin. cbn [bind].
  rewrite Hsub, Hmax. cbn [bind]. f_equal.
  rewrite map_map. cbn [div]. rewrite Hnz. apply map_ext_in. intros y Hy.
  rewrite (round_proper round ieee (y / highest)%Q y)
    by (rewrite Hhighest; field).
  apply (Hys y Hy).
Qed.

(** The exact values of an array as [normalize] takes it. *)
Lemma normalize_input (data : numeric_array) :
  let x := astype_float round data in
  finite_array x -> float64_array round x -> non_constant_array x ->
  spread_fits round x ->
  exists qs a b,
    x = map Fin qs
    /\ normalize round data = normalize round (FloatArray (map Fin qs))
    /\ (forall q, In q qs -> round q = Fin q)
    /\ (forall c d, In c qs -> In d qs ->
                    is_finite (round (c - d)%Q) = true)
    /\ In a qs /\ In b qs /\ ~ (a == b)%Q.
Proof.
  intros x Hfinite Hfloat (v & w & Hv & Hw & Hvw) Hspread.
  pose proof (finite_array_map x Hfinite) as Hx.
  set (qs := map finite_part x) in *.
  rewrite Hx in Hv, Hw. apply in_map_iff in Hv, Hw.
  destruct Hv as [a [<- Ha]]. destruct Hw as [b [<- Hb]].
  cbn [Float.eq] in Hvw.
  exists qs, a, b. split; [exact Hx|]. split.
  { unfold normalize. cbn [astype_float]. fold x. now rewrite <- Hx. }
  split.
  { intros q Hq. apply Hfloat. rewrite Hx. now apply in_map. }
  split.
  { intros c d Hc Hd. apply Hspread; rewrite Hx; now apply in_map. }
  now repeat split.
Qed.

End Rounding.


(** With the spread of the values overflowing, the highest difference is
    an infinity, and dividing it by itself gives a NaN: normalizing the
    float64 numbers -2^1023 and 2^1023 gives 0 and NaN, and normalizing
    that gives two NaN. *)
Lemma normalize_overflow (round : Q -> float) :
  IEEE round ->
  normalize round
    (FloatArray [Fin (inject_Z (- 2 ^ 1023)); Fin (inject_Z (2 ^ 1023))])
  = Ok [Fin 0; NaN]
  /\ normalize round (FloatArray [Fin 0; NaN]) = Ok [NaN; NaN].
Proof.
  intros ieee. split; [|reflexivity].
  unfold normalize. cbn [astype_float].
  assert (Hmin : amin [Fin (inject_Z (- 2 ^ 1023)); Fin (inject_Z (2 ^ 1023))]
                 = Ok (Fin (inject_Z (- 2 ^ 1023))))
    by (vm_compute; reflexivity).
  rewrite Hmin. cbn [bind map sub].
  rewrite (round_proper round ieee
             (inject_Z (- 2 ^ 1023) - inject_Z (- 2 ^ 1023))%Q 0%Q) by ring.
  rewrite (round_zero round ieee).
  rewrite (round_overflow round ieee
             (inject_Z (2 ^ 1023) - inject_Z (- 2 ^ 1023))%Q).
  - reflexivity.
  - unfold Qminus. rewrite <- inject_Z_opp, <- inject_Z_plus, <- Zle_Qle.
    vm_compute. discriminate.
Qed.

(** The claim that [normalize] is idempotent on every finite array with
    two different values fails in two ways.  The float64 numbers -2^1023
    and 2^1023 are finite and different, but their difference overflows:
    [normalize] gives 0 and NaN, and normalizing that gives two NaN.  The
    int64 numbers 2^53 and 2^53 + 1 are different, but the same float64:
    [normalize] divides zero by zero. *)
Lemma normalize_not_idempotent :
  binary64 (inject_Z (- 2 ^ 1023)) = Fin (inject_Z (- 2 ^ 1023))
  /\ binary64 (inject_Z (2 ^ 1023)) = Fin (inject_Z (2 ^ 1023))
  /\ finite_array [Fin (inject_Z (- 2 ^ 1023)); Fin (inject_Z (2 ^ 1023))]
  /\ normalize binary64
       (FloatArray [Fin (inject_Z (- 2 ^ 1023)); Fin (inject_Z (2 ^ 1023))])
     = Ok [Fin 0; NaN]
  /\ normalize binary64 (FloatArray [Fin 0; NaN]) = Ok [NaN; NaN]
  /\ finite_array (astype_float binary64 (IntArray [2 ^ 53; 2 ^ 53 + 1]))
  /\ normalize binary64 (IntArray [2 ^ 53; 2 ^ 53 + 1]) = Ok [NaN; NaN]
  /\ normalize binary64 (FloatArray [NaN; NaN]) = Ok [NaN; NaN].
Proof.
  split; [vm_compute; reflexivity|]. split; [vm_compute; reflexivity|].
  split; [repeat constructor|].
  split; [exact (proj1 (normalize_overflow binary64 binary64_IEEE))|].
  split; [reflexivity|].
  split; [vm_compute; repeat constructor|].
  split; vm_compute; reflexivity.
Qed.

(** Whatever the rounding, what [normalize] returned is returned again. *)
Lemma normalize_twice (round : Q -> float) (data : numeric_array) :
  IEEE round ->
  finite_array (astype_float round data) ->
  float64_array round (astype_float round data) ->
  non_constant_array (astype_float round data) ->
  spread_fits round (astype_float round data) ->
  exists once,
    normalize round data = Ok once
    /\ normalize round (FloatArray once) = Ok once
    /\ finite_array once.
Proof.
  intros ieee Hfinite Hfloat Hdiffer Hspread.
  destruct (normalize_input round data Hfinite Hfloat Hdiffer Hspread)
    as (qs & a & b & _ & -> & Hqs & Hfits & Ha & Hb & Hab).
  destruct (normalize_run round ieee qs a b Hqs Hfits Ha Hb Hab)
    as (ys & Hrun & _ & Hys & Hzero & Hone).
  exists (map Fin ys). split; [exact Hrun|]. split.
  - now apply normalize_fixed.
  - apply Forall_map, Forall_forall. reflexivity.
Qed.

Ltac each_value :=
  repeat match goal with
    | H : _ \/ _ |- _ => destruct H as [H|H]
    | H : False |- _ => destruct H
    | H : Fin _ = Fin _ |- _ => injection H as <-
    end.

(** C6.  In float64 arithmetic, on an array whose values (as floats) are
    finite and not all equal and whose spread does not overflow,
    normalizing what [normalize] returned gives it back, value for
    value. *)
Theorem normalize_idempotent (data : numeric_array) :
  finite_array (astype_float binary64 data) ->
  float64_array binary64 (astype_float binary64 data) ->
  non_constant_array (astype_float binary64 data) ->
  spread_fits binary64 (astype_float binary64 data) ->
  exists once,
    normalize binary64 data = Ok once
    /\ normalize binary64 (FloatArray once) = Ok once
    /\ finite_array once.
Proof. apply normalize_twice, binary64_IEEE. Qed.

Lemma normalize_idempotent_witness :
  exists once,
    normalize binary64 (IntArray [0; 1; 3]) = Ok once
    /\ normalize binary64 (FloatArray once) = Ok once
    /\ finite_array once.
Proof.
  apply (normalize_idempotent (IntArray [0; 1; 3])).
  - vm_compute. repeat constructor.
  - intros a Ha. vm_compute in Ha. each_value; vm_compute; reflexivity.
  - exists (Fin 0), (Fin 1). vm_compute.
    split; [now left|]. split; [right; now left|]. discriminate.
  - intros a b Ha Hb. vm_compute in Ha, Hb.
    each_value; vm_compute; reflexivity.
Defined.

(** Whatever the rounding, the values returned lie between 0 and 1, with 0
    and 1 among them. *)
Lemma normalize_unit_range (round : Q -> float) (data : numeric_array) :
  IEEE round ->
  finite_array (astype_float round data) ->
  float64_array round (astype_float round data) ->
  non_constant_array (astype_float round data) ->
  spread_fits round (astype_float round data) ->
  exists out,
    normalize round data = Ok out
    /\ length out = length (astype_float round data)
    /\ Forall (fun v => exists y, v = Fin y /\ (0 <= y <= 1)%Q) out
    /\ In (Fin 0) out
    /\ In (Fin 1) out.
Proof.
  intros ieee Hfinite Hfloat Hdiffer Hspread.
  destruct (normalize_input round data Hfinite Hfloat Hdiffer Hspread)
    as (qs & a & b & -> & -> & Hqs & Hfits & Ha & Hb & Hab).
  destruct (normalize_run round ieee qs a b Hqs Hfits Ha Hb Hab)
    as (ys & Hrun & Hlength & Hys & Hzero & Hone).
  exists (map Fin ys). split; [exact Hrun|].
  split; [now rewrite !length_map|]. split.
  - apply Forall_map, Forall_forall. intros y Hy. exists y.
    split; [reflexivity|apply (Hys y Hy)].
  - split; now apply in_map.
Qed.

(** In float64 arithmetic, on an array whose values (as floats) are finite
    and not all equal and whose spread does not overflow, [normalize]
    returns as many values as it was given, all of them between 0 and 1,
    with 0 and 1 among them. *)
Theorem normalize_range (data : numeric_array) :
  finite_array (astype_float binary64 data) ->
  float64_array binary64 (astype_float binary64 data) ->
  non_constant_array (astype_float binary64 data) ->
  spread_fits binary64 (astype_float binary64 data) ->
  exists out,
    normalize binary64 data = Ok out
    /\ length out = length (astype_float binary64 data)
    /\ Forall (fun v => exists y, v = Fin y /\ (0 <= y <= 1)%Q) out
    /\ In (Fin 0) out
    /\ In (Fin 1) out.
Proof. apply normalize_unit_range, binary64_IEEE. Qed.

Lemma normalize_range_witness :
  exists out,
    normalize binary64 (IntArray [10; 15; 20]) = Ok out
    /\ length out = length (astype_float binary64 (IntArray [10; 15; 20]))
    /\ Forall (fun v => exists y, v = Fin y /\ (0 <= y <= 1)%Q) out
    /\ In (Fin 0) out
    /\ In (Fin 1) out.
Proof.
  apply (normalize_range (IntArray [10; 15; 20])).
  - vm_compute. repeat constructor.
  - intros a Ha. vm_compute in Ha. each_value; vm_compute; reflexivity.
  - exists (Fin 10), (Fin 15). vm_compute.
    split; [now left|]. split; [right; now left|]. discriminate.
  - intros a b Ha Hb. vm_compute in Ha, Hb.
    each_value; vm_compute; reflexivity.
Defined.


(** ** fit_to_type in float64 arithmetic *)

Lemma Qtruncate_bounds (a b : Z) (q : Q) :
  (inject_Z a <= q)%Q -> (q <= inject_Z b)%Q -> a <= Qtruncate q <= b.
Proof.
  destruct q as [n d]. unfold Qle, Qtruncate, inject_Z. cbn [Qnum Qden].
  rewrite !Z.mul_1_r. intros Ha Hb.
  assert (Hd : 0 < Z.pos d) by lia.
  destruct (Z_le_gt_dec 0 n) as [Hn|Hn].
  - rewrite Z.quot_div_nonneg by lia. split.
    + destruct (Z_le_gt_dec a 0) as [Ha0|Ha0].
      * pose proof (Z.div_pos n (Z.pos d) Hn Hd). lia.
      * apply Z.div_le_lower_bound; lia.
    + apply Z.div_le_upper_bound; lia.
  - replace n with (- (- n)) by lia. rewrite Z.quot_opp_l by lia.
    rewrite Z.quot_div_nonneg by lia. split.
    + assert ((- n) / Z.pos d <= - a); [|lia].
      apply Z.div_le_upper_bound; lia.
    + assert (- b <= (- n) / Z.pos d); [|lia].
      apply Z.div_le_lower_bound; lia.
Qed.

Lemma Qtruncate_integer (z : Z) : Qtruncate (inject_Z z) = z.
Proof.
  pose proof (Qtruncate_bounds z z (inject_Z z) (Qle_refl _) (Qle_refl _)).
  lia.
Qed.

Lemma inject_Z_nonneg z : 0 <= z -> (0 <= inject_Z z)%Q.
Proof. intros Hz. unfold Qle, inject_Z. cbn. lia. Qed.

Section Casts.

Variable round : Q -> float.
Hypothesis ieee : IEEE round.
Variable undefined_cast : float -> Z.

Lemma cast_within lo hi r :
  (inject_Z lo <= r <= inject_Z hi)%Q ->
  cast_between undefined_cast lo hi (Fin r) = Qtruncate r
  /\ lo <= Qtruncate r <= hi.
Proof.
  intros [Hlo Hhi]. pose proof (Qtruncate_bounds lo hi r Hlo Hhi) as Hb.
  split; [|exact Hb]. cbn [cast_between].
  assert (Hin : (lo <=? Qtruncate r) && (Qtruncate r <=? hi) = true).
  { apply andb_true_iff. split; apply Z.leb_le; lia. }
  now rewrite Hin.
Qed.

(** Scaling a value of the unit interval to [0..top] and casting stays
    within [0..top], and reaches both ends from 0 and 1. *)
Lemma unsigned_cast top y :
  0 <= top <= 2 ^ 53 -> (0 <= y <= 1)%Q ->
  let c := cast_between undefined_cast 0 top
             (mul round (Fin y) (float_of_int round top)) in
  0 <= c <= top
  /\ ((y == 0)%Q -> c = 0)
  /\ ((y == 1)%Q -> c = top).
Proof.
  intros Htop Hy c. unfold c, float_of_int.
  assert (Etop : round (inject_Z top) = Fin (inject_Z top))
    by (apply (round_integer round ieee); lia).
  rewrite Etop. cbn [mul].
  pose proof (inject_Z_nonneg top ltac:(lia)) as Htop'.
  destruct (round_between round ieee (y * inject_Z top)%Q 0 (inject_Z top))
    as (r & Er & Hr & _); [|apply round_zero; exact ieee|exact Etop|].
  { split; [apply Qmult_le_0_compat; tauto|].
    rewrite <- (Qmult_1_l (inject_Z top)) at 2.
    apply Qmult_le_compat_r; tauto. }
  destruct (cast_within 0 top r Hr) as [Ecast Hcast].
  rewrite Er, Ecast. split; [exact Hcast|]. split; intros E.
  - rewrite (round_proper round ieee (y * inject_Z top)%Q 0%Q) in Er
      by (rewrite E; ring).
    rewrite (round_zero round ieee) in Er. injection Er as <-. reflexivity.
  - rewrite (round_proper round ieee (y * inject_Z top)%Q (inject_Z top))
      in Er by (rewrite E; ring).
    rewrite Etop in Er. injection Er as <-. apply Qtruncate_integer.
Qed.

(** The same for the signed target: scaled to [0..2 half - 1] and moved
    down by [half]. *)
Lemma signed_cast half y :
  1 <= half -> 2 * half - 1 <= 2 ^ 53 -> (0 <= y <= 1)%Q ->
  let c := cast_between undefined_cast (- half) (half - 1)
             (sub round
                (mul round (Fin y) (float_of_int round (2 * half - 1)))
                (float_of_int round half)) in
  - half <= c <= half - 1
  /\ ((y == 0)%Q -> c = - half)
  /\ ((y == 1)%Q -> c = half - 1).
Proof.
  intros Hhalf Hsmall Hy c. unfold c, float_of_int.
  assert (Etop : round (inject_Z (2 * half - 1))
                 = Fin (inject_Z (2 * half - 1)))
    by (apply (round_integer round ieee); lia).
  assert (Ehalf : round (inject_Z half) = Fin (inject_Z half))
    by (apply (round_integer round ieee); lia).
  assert (Elow : round (inject_Z (- half)) = Fin (inject_Z (- half)))
    by (apply (round_integer round ieee); lia).
  assert (Ehigh : round (inject_Z (half - 1)) = Fin (inject_Z (half - 1)))
    by (apply (round_integer round ieee); lia).
  rewrite Etop, Ehalf. cbn [mul].
  pose proof (inject_Z_nonneg (2 * half - 1) ltac:(lia)) as Htop.
  destruct (round_between round ieee (y * inject_Z (2 * half - 1))%Q 0
              (inject_Z (2 * half - 1)))
    as (r & Er & Hr & _); [|apply round_zero; exact ieee|exact Etop|].
  { split; [apply Qmult_le_0_compat; tauto|].
    rewrite <- (Qmult_1_l (inject_Z (2 * half - 1))) at 2.
    apply Qmult_le_compat_r; tauto. }
  rewrite Er. cbn [sub].
  assert (Hsum : (inject_Z (half - 1)
                  == inject_Z (2 * half - 1) - inject_Z half)%Q).
  { unfold Qminus. rewrite <- inject_Z_opp, <- inject_Z_plus.
    apply inject_Z_injective. lia. }
  destruct (round_between round ieee (r - inject_Z half)%Q
              (inject_Z (- half)) (inject_Z (half - 1)))
    as (s & Es & Hs & _); [|exact Elow|exact Ehigh|].
  { rewrite Hsum, inject_Z_opp. split; Lqa.lra. }
  destruct (cast_within (- half) (half - 1) s Hs) as [Ecast Hcast].
  rewrite Es, Ecast. split; [exact Hcast|]. split; intros E.
  - rewrite (round_proper round ieee (y * inject_Z (2 * half - 1))%Q 0%Q)
      in Er by (rewrite E; ring).
    rewrite (round_zero round ieee) in Er. injection Er as <-.
    rewrite (round_proper round ieee (0 - inject_Z half)%Q
               (inject_Z (- half))) in Es
      by (rewrite inject_Z_opp; ring).
    rewrite Elow in Es. injection Es as <-. apply Qtruncate_integer.
  - rewrite (round_proper round ieee (y * inject_Z (2 * half - 1))%Q
               (inject_Z (2 * half - 1))) in Er by (rewrite E; ring).
    rewrite Etop in Er.
    assert (Er' : r = inject_Z (2 * half - 1)) by congruence. subst r.
    rewrite (round_proper round ieee
               (inject_Z (2 * half - 1) - inject_Z half)%Q
               (inject_Z (half - 1))) in Es by now rewrite Hsum.
    rewrite Ehigh in Es. injection Es as <-. apply Qtruncate_integer.
Qed.

End Casts.

Import Ascii.

(** Whatever the rounding, [fit_to_type] uses the whole range of the
    target and nothing beyond it. *)
Lemma fit_to_type_cases (round : Q -> float) (undefined_cast : float -> Z)
  (astype_floating : numpy_dtype -> numeric_array -> ndarray)
  (image : numeric_array) (new_dtype : numpy_dtype) :
  IEEE round ->
  finite_array (astype_float round image) ->
  float64_array round (astype_float round image) ->
  non_constant_array (astype_float round image) ->
  spread_fits round (astype_float round image) ->
  In (itemsize new_dtype) [1; 2; 4] ->
  (kind new_dtype = "u"%char ->
   exists out,
     fit_to_type round undefined_cast astype_floating image new_dtype
     = Ok (OfInt out)
     /\ length out = length (astype_float round image)
     /\ Forall (fun v => 0 <= v <= 2 ^ (itemsize new_dtype * 8) - 1) out
     /\ In 0 out
     /\ In (2 ^ (itemsize new_dtype * 8) - 1) out)
  /\ (kind new_dtype = "i"%char ->
      exists out,
        fit_to_type round undefined_cast astype_floating image new_dtype
        = Ok (OfInt out)
        /\ length out = length (astype_float round image)
        /\ Forall (fun v => - 2 ^ (itemsize new_dtype * 8 - 1) <= v
                            <= 2 ^ (itemsize new_dtype * 8 - 1) - 1) out
        /\ In (- 2 ^ (itemsize new_dtype * 8 - 1)) out
        /\ In (2 ^ (itemsize new_dtype * 8 - 1) - 1) out)
  /\ (kind new_dtype = "b"%char ->
      exists out,
        fit_to_type round undefined_cast astype_floating image new_dtype
        = Ok (OfBool out)
        /\ length out = length (astype_float round image)
        /\ In true out /\ In false out)
  /\ (kind new_dtype = "f"%char ->
      fit_to_type round undefined_cast astype_floating image new_dtype
      = Ok (OfFloat (astype_floating new_dtype image)))
  /\ (~ In (kind new_dtype) ["f"; "u"; "i"; "b"]%char ->
      fit_to_type round undefined_cast astype_floating image new_dtype
      = Raise TypeError).
Proof.
  intros ieee Hfinite Hfloat Hdiffer Hspread Hsize.
  destruct (normalize_input round image Hfinite Hfloat Hdiffer Hspread)
    as (qs & a & b & -> & Hsame & Hqs & Hfits & Ha & Hb & Hab).
  destruct (normalize_run round ieee qs a b Hqs Hfits Ha Hb Hab)
    as (ys & Hrun & Hlen & Hys & Hzero & Hone).
  rewrite <- Hsame in Hrun. clear Hsame.
  set (bits := itemsize new_dtype * 8).
  assert (Hbits : 8 <= bits <= 32) by (unfold bits; cbn in Hsize; lia).
  assert (Hpow : 2 ^ bits <= 2 ^ 32) by (apply Z.pow_le_mono_r; lia).
  assert (Hpow' : 2 ^ 32 < 2 ^ 53) by (apply Z.pow_lt_mono_r; lia).
  assert (Htop : 0 <= 2 ^ bits - 1).
  { pose proof (Z.pow_pos_nonneg 2 bits ltac:(lia) ltac:(lia)). lia. }
  assert (Hhalf : 1 <= 2 ^ (bits - 1)).
  { pose proof (Z.pow_pos_nonneg 2 (bits - 1) ltac:(lia) ltac:(lia)). lia. }
  assert (Hdouble : 2 ^ bits - 1 = 2 * 2 ^ (bits - 1) - 1).
  { replace bits with (Z.succ (bits - 1)) at 1 by lia.
    rewrite Z.pow_succ_r by lia. reflexivity. }
  unfold fit_to_type. rewrite Hrun. cbn [bind]. fold bits.
  rewrite !length_map.
  split; [|split; [|split; [|split]]].
  - intros ->. cbn [Ascii.eqb Bool.eqb andb]. eexists.
    split; [reflexivity|]. rewrite map_map, length_map.
    split; [exact Hlen|]. split; [|split].
    + apply Forall_forall. intros v Hv. apply in_map_iff in Hv.
      destruct Hv as [y [<- Hy]].
      apply (unsigned_cast round ieee undefined_cast (2 ^ bits - 1) y);
        [lia|apply (Hys y Hy)].
    + apply in_map_iff. exists 0%Q. split; [|exact Hzero].
      apply (unsigned_cast round ieee undefined_cast (2 ^ bits - 1) 0%Q);
        [lia|apply (Hys 0%Q Hzero)|reflexivity].
    + apply in_map_iff. exists 1%Q. split; [|exact Hone].
      apply (unsigned_cast round ieee undefined_cast (2 ^ bits - 1) 1%Q);
        [lia|apply (Hys 1%Q Hone)|reflexivity].
  - intros ->. cbn [Ascii.eqb Bool.eqb andb]. eexists.
    split; [reflexivity|]. rewrite map_map, length_map.
    split; [exact Hlen|]. rewrite Hdouble. split; [|split].
    + apply Forall_forall. intros v Hv. apply in_map_iff in Hv.
      destruct Hv as [y [<- Hy]].
      apply (signed_cast round ieee undefined_cast (2 ^ (bits - 1)) y);
        [lia|lia|apply (Hys y Hy)].
    + apply in_map_iff. exists 0%Q. split; [|exact Hzero].
      apply (signed_cast round ieee undefined_cast (2 ^ (bits - 1)) 0%Q);
        [lia|lia|apply (Hys 0%Q Hzero)|reflexivity].
    + apply in_map_iff. exists 1%Q. split; [|exact Hone].
      apply (signed_cast round ieee undefined_cast (2 ^ (bits - 1)) 1%Q);
        [lia|lia|apply (Hys 1%Q Hone)|reflexivity].
  - intros ->. cbn [Ascii.eqb Bool.eqb andb]. eexists.
    split; [reflexivity|]. rewrite map_map, length_map.
    split; [exact Hlen|]. split.
    + apply in_map_iff. exists 1%Q. split; [reflexivity|exact Hone].
    + apply in_map_iff. exists 0%Q. split; [reflexivity|exact Hzero].
  - intros ->. reflexivity.
  - intros Hother.
    destruct (Ascii.eqb_spec (kind new_dtype) "f"%char) as [E|_];
      [exfalso; apply Hother; rewrite E; now left|].
    destruct (Ascii.eqb_spec (kind new_dtype) "u"%char) as [E|_];
      [exfalso; apply Hother; rewrite E; right; now left|].
    destruct (Ascii.eqb_spec (kind new_dtype) "i"%char) as [E|_];
      [exfalso; apply Hother; rewrite E; right; right; now left|].
    destruct (Ascii.eqb_spec (kind new_dtype) "b"%char) as [E|_];
      [exfalso; apply Hother; rewrite E; right; right; right; now left|].
    reflexivity.
Qed.

(** In float64 arithmetic, on an image whose values (as floats) are finite
    and not all equal and whose spread does not overflow, and for a target
    of 1, 2 or 4 bytes, [fit_to_type] uses the whole range of an integer
    target and nothing beyond it: for an unsigned type the values lie in
    [0, 2^bits - 1], for a signed one in [-2^(bits-1), 2^(bits-1) - 1], both
    ends occurring, so that no value takes the undefined cast; a boolean
    target holds both truth values; a float target is given the image
    itself in that type, not rescaled; any other kind is a [TypeError]. *)
Theorem fit_to_type_range (undefined_cast : float -> Z)
  (astype_floating : numpy_dtype -> numeric_array -> ndarray)
  (image : numeric_array) (new_dtype : numpy_dtype) :
  finite_array (astype_float binary64 image) ->
  float64_array binary64 (astype_float binary64 image) ->
  non_constant_array (astype_float binary64 image) ->
  spread_fits binary64 (astype_float binary64 image) ->
  In (itemsize new_dtype) [1; 2; 4] ->
  (kind new_dtype = "u"%char ->
   exists out,
     fit_to_type binary64 undefined_cast astype_floating image new_dtype
     = Ok (OfInt out)
     /\ length out = length (astype_float binary64 image)
     /\ Forall (fun v => 0 <= v <= 2 ^ (itemsize new_dtype * 8) - 1) out
     /\ In 0 out
     /\ In (2 ^ (itemsize new_dtype * 8) - 1) out)
  /\ (kind new_dtype = "i"%char ->
      exists out,
        fit_to_type binary64 undefined_cast astype_floating image new_dtype
        = Ok (OfInt out)
        /\ length out = length (astype_float binary64 image)
        /\ Forall (fun v => - 2 ^ (itemsize new_dtype * 8 - 1) <= v
                            <= 2 ^ (itemsize new_dtype * 8 - 1) - 1) out
        /\ In (- 2 ^ (itemsize new_dtype * 8 - 1)) out
        /\ In (2 ^ (itemsize new_dtype * 8 - 1) - 1) out)
  /\ (kind new_dtype = "b"%char ->
      exists out,
        fit_to_type binary64 undefined_cast astype_floating image new_dtype
        = Ok (OfBool out)
        /\ length out = length (astype_float binary64 image)
        /\ In true out /\ In false out)
  /\ (kind new_dtype = "f"%char ->
      fit_to_type binary64 undefined_cast astype_floating image new_dtype
      = Ok (OfFloat (astype_floating new_dtype image)))
  /\ (~ In (kind new_dtype) ["f"; "u"; "i"; "b"]%char ->
      fit_to_type binary64 undefined_cast astype_floating image new_dtype
      = Raise TypeError).
Proof. apply fit_to_type_cases, binary64_IEEE. Qed.

Lemma fit_to_type_range_witness :
  exists out,
    fit_to_type binary64 (fun _ => 0)
      (fun _ image => astype_float binary64 image)
      (IntArray [-7; 4; 18; 432]) uint8
    = Ok (OfInt out)
    /\ length out = length (astype_float binary64
                              (IntArray [-7; 4; 18; 432]))
    /\ Forall (fun v => 0 <= v <= 2 ^ (itemsize uint8 * 8) - 1) out
    /\ In 0 out
    /\ In (2 ^ (itemsize uint8 * 8) - 1) out.
Proof.
  apply (fit_to_type_range (fun _ => 0)
           (fun _ image => astype_float binary64 image)
           (IntArray [-7; 4; 18; 432]) uint8).
  - vm_compute. repeat constructor.
  - intros a Ha. vm_compute in Ha. each_value; vm_compute; reflexivity.
  - exists (Fin (-7)), (Fin 4). vm_compute.
    split; [now left|]. split; [right; now left|]. discriminate.
  - intros a b Ha Hb. vm_compute in Ha, Hb.
    each_value; vm_compute; reflexivity.
  - simpl. now left.
  - reflexivity.
Defined.

(** The doctests of [normalize] and [fit_to_type].  The tenths are the
    float64 numbers nearest to them, as Python prints them. *)
Example normalize_doctests :
  normalize binary64 (IntArray [10; 15; 20])
  = Ok [Fin 0; Fin (1 # 2); Fin 1]
  /\ normalize binary64 (IntArray [0; 1; 2; 3; 4; 5; 6; 7; 8; 9; 10])
     = Ok [Fin 0; binary64 (1 # 10); binary64 (2 # 10); binary64 (3 # 10);
           binary64 (4 # 10); binary64 (5 # 10); binary64 (6 # 10);
           binary64 (7 # 10); binary64 (8 # 10); binary64 (9 # 10); Fin 1]
  /\ binary64 (1 # 10) = Fin (3602879701896397 # 36028797018963968)
  /\ normalize binary64 (IntArray []) = Raise ValueError.
Proof. repeat split; vm_compute; reflexivity. Qed.

Example fit_to_type_doctests (undefined_cast : float -> Z)
  (astype_floating : numpy_dtype -> numeric_array -> ndarray) :
  let image := IntArray [-7; 4; 18; 432] in
  fit_to_type binary64 undefined_cast astype_floating image uint8
  = Ok (OfInt [0; 6; 14; 255])
  /\ fit_to_type binary64 undefined_cast astype_floating image int8
     = Ok (OfInt [-128; -121; -113; 127])
  /\ fit_to_type binary64 undefined_cast astype_floating image bool_
     = Ok (OfBool [false; false; false; true])
  /\ fit_to_type binary64 undefined_cast astype_floating image float32
     = Ok (OfFloat (astype_floating float32 image))
  /\ fit_to_type binary64 undefined_cast astype_floating
       (IntArray []) float32
     = Raise ValueError.
Proof. repeat split; vm_compute; reflexivity. Qed.

End Float64Proofs.
